(** * UVLoader, [load.c]: parsing and loading an ELF to memory

    A shallow embedding of [load.c] and the properties of its loader
    pipeline: the acquirer ([uvl_load_file]), the format dispatcher
    ([uvl_load_exe]), the import relocator ([uvl_offset_import]), the ELF
    loader ([uvl_load_elf]), the header validator ([uvl_elf_check_header]),
    the module-info locator ([uvl_elf_get_module_info]) and the
    address-space reclaimer ([uvl_elf_free_memory]).

    The code runs on a 32-bit little-endian machine and works on raw
    memory, so memory is a map from 32-bit addresses to bytes and every
    pointer is an unsigned 32-bit number whose arithmetic wraps.  The
    platform services the code calls are an interface over an abstract
    kernel state; every call, its arguments and its result are recorded in
    a trace, together with the messages given to [LOG]. *)

From Stdlib Require Import ZArith List String Bool Lia.
Import ListNotations.
Open Scope string_scope.
Open Scope list_scope.
Open Scope Z_scope.

(** ** 32-bit machine arithmetic *)

(** [u32_t]: conversion to unsigned 32 bits. *)
Definition u32 (x : Z) : Z := x mod 2 ^ 32.

(** [int]: conversion to signed 32 bits. *)
Definition s32 (x : Z) : Z :=
  if u32 x <? 2 ^ 31 then u32 x else u32 x - 2 ^ 32.

Definition NULL : Z := 0.

(** ** Memory *)

(** One byte per address; a cell is read modulo 256 at the address taken
    modulo 2^32. *)
Definition Mem : Type := Z -> Z.

Definition load8 (m : Mem) (a : Z) : Z := m (u32 a) mod 256.

Definition store8 (m : Mem) (a v : Z) : Mem :=
  fun x => if x =? u32 a then v mod 256 else m x.

(** Little-endian integers of [n] bytes. *)
Fixpoint load_le (n : nat) (m : Mem) (a : Z) : Z :=
  match n with
  | O => 0
  | S k => load8 m a + 256 * load_le k m (a + 1)
  end.

Fixpoint store_le (n : nat) (m : Mem) (a v : Z) : Mem :=
  match n with
  | O => m
  | S k => store_le k (store8 m a v) (a + 1) (v / 256)
  end.

Definition load32 : Mem -> Z -> Z := load_le 4.
Definition store32 : Mem -> Z -> Z -> Mem := store_le 4.

(** [memcpy (dst, src, n)]: the [n] bytes at [src], as they are before the
    call, are written at [dst] (the two ranges are not to overlap).
    Addresses wrap at 2^32. *)
Definition memcpy (m : Mem) (dst src n : Z) : Mem :=
  fun x => if u32 (x - dst) <? n then m (u32 (src + u32 (x - dst))) else m x.

(** [memset (dst, c, n)]. *)
Definition memset (m : Mem) (dst c n : Z) : Mem :=
  fun x => if u32 (x - dst) <? n then c mod 256 else m x.

(** A member of a structure: its offset and its size in bytes. *)
Record field : Type := Field { f_off : Z; f_len : nat }.

(** [base->f] *)
Definition get (m : Mem) (base : Z) (f : field) : Z :=
  load_le (f_len f) m (base + f_off f).

(** [base->f = v] *)
Definition set (m : Mem) (base : Z) (f : field) (v : Z) : Mem :=
  store_le (f_len f) m (base + f_off f) v.

(** ** Declarations of the headers

    [load.h], [resolve.h], [scefuncs.h] and [utils.h] are not part of the
    sources at hand: the constants and the structure layouts they declare
    are taken as parameters, and so are the functions they only declare. *)

(** [loaded_module_info_t], filled in by [sceKernelGetModuleInfo];
    [segments[j].vaddr] and [segments[j].memsz] are what the loader reads. *)
Record segment_info_t : Type := { vaddr : Z; memsz : Z }.

Record loaded_module_info_t : Type :=
  { module_name : string; segments : list segment_info_t }.

(** Constants and layouts. *)
Class LoadH : Type := {
  (* identification of an ELF *)
  EI_MAG0 : Z; EI_MAG1 : Z; EI_MAG2 : Z; EI_MAG3 : Z;
  EI_CLASS : Z; EI_DATA : Z; EI_VERSION : Z;
  ELFMAG0 : Z; ELFMAG1 : Z; ELFMAG2 : Z; ELFMAG3 : Z;
  ELFCLASS32 : Z; ELFDATA2LSB : Z; EV_CURRENT : Z;
  ET_EXEC : Z; ET_SCE_EXEC : Z; EM_ARM : Z;
  PT_LOAD : Z; PF_X : Z;
  (* identification of a SELF *)
  SCEMAG0 : Z; SCEMAG1 : Z; SCEMAG2 : Z; SCEMAG3 : Z;
  SCEHDR_LEN : Z;
  (* the loader *)
  UVL_BIN_MAX_SIZE : Z;
  UVL_SEC_MODINFO : string;
  MAX_LOADED_MODS : Z;
  ATTR_MOD_INFO : Z;
  ENTRY_NID : Z;
  PSP2_O_RDONLY : Z;
  (* Elf32_Ehdr_t *)
  e_ident : field; e_type : field; e_machine : field; e_version : field;
  e_phoff : field; e_shoff : field; e_phnum : field; e_shentsize : field;
  e_shnum : field; e_shstrndx : field;
  (* Elf32_Phdr_t *)
  sizeof_Elf32_Phdr_t : Z;
  p_type : field; p_offset : field; p_vaddr : field; p_filesz : field;
  p_memsz : field; p_flags : field;
  (* Elf32_Shdr_t *)
  sizeof_Elf32_Shdr_t : Z;
  sh_name : field; sh_offset : field; sh_size : field;
  (* module_info_t *)
  ent_top : field; ent_end : field; stub_top : field; stub_end : field;
  (* module_imports_t *)
  sizeof_module_imports_t : Z;
  lib_name : field;
  func_nid_table : field; func_entry_table : field;
  var_nid_table : field; var_entry_table : field;
  tls_nid_table : field; tls_entry_table : field;
  imports_num_functions : field; num_vars : field; num_tls_vars : field;
  (* module_exports_t *)
  sizeof_module_exports_t : Z;
  attribute : field; exports_num_functions : field;
  nid_table : field; entry_table : field
}.

(** The platform services of [scefuncs.h], over a kernel state [K], and the
    functions of [resolve.h] and [utils.h].  A service answers with its
    return code and the new kernel state; the ones that write to the
    caller's memory answer with the new memory as well. *)
Class Platform (K : Type) : Type := {
  sceIoOpen : string -> Z -> Z -> K -> Z * K;
  sceIoRead : Z -> Z -> Z -> K -> Mem -> Z * K * Mem;
  sceIoClose : Z -> K -> Z * K;
  sceKernelAllocMemBlock : string -> Z -> Z -> K -> Z * K;
  sceKernelAllocCodeMemBlock : string -> Z -> K -> Z * K;
  (* block, the value of [*base] before the call; answers the value of
     [*base] after it *)
  sceKernelGetMemBlockBase : Z -> Z -> K -> Z * Z * K;
  sceKernelFindMemBlockByAddr : Z -> Z -> K -> Z * K;
  sceKernelFreeMemBlock : Z -> K -> Z * K;
  (* flags, capacity of the list; answers the modules listed, [num_loaded]
     being their number *)
  sceKernelGetModuleList : Z -> Z -> K -> Z * list Z * K;
  sceKernelGetModuleInfo : Z -> K -> Z * loaded_module_info_t * K;
  sceKernelStopUnloadModule : Z -> K -> Z * K;
  psvUnlockMem : K -> K;
  psvLockMem : K -> K;
  (* resolve.h *)
  uvl_resolve_imports : Z -> K -> Mem -> Z * K * Mem;
  (* utils.h: haystack, its size, needle, its length; answers a pointer *)
  memstr : Mem -> Z -> Z -> string -> Z -> Z;
  (* what a local variable holds before it is assigned *)
  indeterminate : Z
}.

(** ** Traces *)

Inductive Event : Type :=
| ELog (msg : string)
| EIoOpen (filename : string) (rc : Z)
| EIoRead (fd base size rc : Z)
| EIoClose (fd rc : Z)
| EAllocMemBlock (name : string) (type size rc : Z)
| EAllocCodeMemBlock (name : string) (size rc : Z)
| EGetMemBlockBase (block rc base : Z)
| EFindMemBlockByAddr (addr rc : Z)
| EFreeMemBlock (block rc : Z)
| EGetModuleList (rc : Z) (mods : list Z)
| EGetModuleInfo (uid rc : Z) (info : loaded_module_info_t)
| EStopUnloadModule (uid rc : Z)
| EUnlockMem
| ELockMem
| EMemcpy (dst src n : Z)
| EMemset (dst c n : Z)
| ELoadModuleForLib (lib : Z) (rc : Z)
| EResolveImports (import rc : Z).

(** ** The state of the machine and the monad of the loader *)

Record World (K : Type) : Type :=
  mkWorld { mem : Mem; kern : K; trace : list Event }.
Arguments mkWorld {K}.
Arguments mem {K}.
Arguments kern {K}.
Arguments trace {K}.

(** A computation reads and changes the world; [None] is a computation
    that has not returned within the fuel given to its loops. *)
Definition M (K A : Type) : Type := World K -> option (A * World K).

Definition ret {K A} (a : A) : M K A := fun w => Some (a, w).

Definition bind {K A B} (c : M K A) (f : A -> M K B) : M K B :=
  fun w => match c w with
           | Some (a, w') => f a w'
           | None => None
           end.

Definition diverge {K A} : M K A := fun _ => None.

Declare Scope loader_scope.
Delimit Scope loader_scope with loader.
Notation "x <- c1 ;; c2" := (bind c1 (fun x => c2))
  (at level 61, c1 at next level, right associativity) : loader_scope.
Notation "' pat <- c1 ;; c2" :=
  (bind c1 (fun x => match x with pat => c2 end))
  (at level 61, pat pattern, c1 at next level, right associativity)
  : loader_scope.
Notation "c1 ;; c2" := (bind c1 (fun _ => c2))
  (at level 61, right associativity) : loader_scope.
Open Scope loader_scope.

Definition emit {K} (e : Event) : M K unit :=
  fun w => Some (tt, mkWorld (mem w) (kern w) (trace w ++ [e])).

(** [LOG (msg, ...)]; the messages under [IF_DEBUG] and [IF_VERBOSE] are
    diagnostics and are left out. *)
Definition LOG {K} (msg : string) : M K unit := emit (ELog msg).

Definition get_mem {K} : M K Mem := fun w => Some (mem w, w).

(** A service that changes the kernel state only. *)
Definition call {K} (f : K -> Z * K) (ev : Z -> Event) : M K Z :=
  fun w => let '(rc, k) := f (kern w) in
           Some (rc, mkWorld (mem w) k (trace w ++ [ev rc])).

(** A service that writes to memory as well. *)
Definition call_mem {K} (f : K -> Mem -> Z * K * Mem) (ev : Z -> Event)
  : M K Z :=
  fun w => let '(rc, k, m) := f (kern w) (mem w) in
           Some (rc, mkWorld m k (trace w ++ [ev rc])).

(** The world after more events. *)
Definition logged {K} (w : World K) (tr : list Event) : World K :=
  mkWorld (mem w) (kern w) (trace w ++ tr).

(** ** The loader *)

Section Loader.

Context {K : Type} {H : LoadH} {P : Platform K}.

Local Abbreviation M := (M K).

(** [sceKernelGetMemBlockBase (block, &base)], [base] holding [old]
    before the call: the return code and what [base] holds after it. *)
Definition get_mem_block_base (block old : Z) : M (Z * Z) :=
  fun w => let '(rc, base, k) := sceKernelGetMemBlockBase block old (kern w) in
           Some ((rc, base),
                 mkWorld (mem w) k
                   (trace w ++ [EGetMemBlockBase block rc base])).

(** *** [uvl_load_file]

    The result is the return code with what has been stored in [*data]
    and in [*size], if anything. *)
Definition uvl_load_file (filename : string)
  : M (Z * option Z * option Z) :=
  fd <- call (sceIoOpen filename PSP2_O_RDONLY 0) (EIoOpen filename) ;;
  if fd <? 0 then
    LOG "Failed to open %s for reading." ;;
    ret (-1, None, None)
  else
  memblock <- call (sceKernelAllocMemBlock "UVLTemp" 0xC20D060
                      UVL_BIN_MAX_SIZE)
                   (EAllocMemBlock "UVLTemp" 0xC20D060 UVL_BIN_MAX_SIZE) ;;
  if memblock <? 0 then
    LOG "Failed allocate %u bytes of memory." ;;
    ret (-1, None, None)
  else
  '(rc, base) <- get_mem_block_base memblock indeterminate ;;
  if rc <? 0 then
    LOG "Failed to locate base for block 0x%08X." ;;
    ret (-1, None, None)
  else
  size <- call_mem (sceIoRead fd base UVL_BIN_MAX_SIZE)
                   (EIoRead fd base UVL_BIN_MAX_SIZE) ;;
  if size <? 0 then
    LOG "Failed to read %s: 0x%08X" ;;
    ret (-1, None, Some size)
  else
  (if size >=? UVL_BIN_MAX_SIZE then
     LOG "Warning. Max homebrew size of %u bytes reached. File could be truncated."
   else ret tt) ;;
  rc <- call (sceIoClose fd) (EIoClose fd) ;;
  if rc <? 0 then
    LOG "Failed to close file." ;;
    ret (-1, None, Some size)
  else
  ret (0, Some base, Some size).

(** *** [uvl_free_data] *)
Definition uvl_free_data (data : Z) : M Z :=
  block <- call (sceKernelFindMemBlockByAddr data 0)
                (EFindMemBlockByAddr data) ;;
  (if block <? 0 then LOG "Cannot find block id: 0x%08X" else ret tt) ;;
  rc <- call (sceKernelFreeMemBlock block) (EFreeMemBlock block) ;;
  if rc <? 0 then
    LOG "Cannot free block: 0x%08X" ;;
    ret (-1)
  else ret 0.

(** *** [uvl_offset_import]

    The function calls no service: it is a transformation of memory.
    The three loops read [import->num_functions] (and the like) and the
    base of the table from memory at every turn, as the code does; the
    counter stays below the count read, which is below
    [256 ^ f_len count]. *)
Definition offset_pointer (import addend : Z) (f : field) (m : Mem) : Mem :=
  set m import f (u32 (get m import f + addend)).

Fixpoint offset_entries (fuel : nat) (import addend : Z) (count table : field)
  (i : Z) (m : Mem) : Mem :=
  match fuel with
  | O => m
  | S fuel' =>
    if i <? get m import count then
      let p := get m import table + 4 * i in
      offset_entries fuel' import addend count table (i + 1)
        (store32 m p (u32 (load32 m p + addend)))
    else m
  end.

Definition loop_bound (count : field) : nat :=
  Z.to_nat (256 ^ Z.of_nat (f_len count)).

Definition uvl_offset_import (import addend : Z) (m : Mem) : Mem :=
  let m := offset_pointer import addend lib_name m in
  let m := offset_pointer import addend func_nid_table m in
  let m := offset_pointer import addend func_entry_table m in
  let m := offset_pointer import addend var_nid_table m in
  let m := offset_pointer import addend var_entry_table m in
  let m := offset_pointer import addend tls_nid_table m in
  let m := offset_pointer import addend tls_entry_table m in
  let m := offset_entries (loop_bound imports_num_functions) import addend
             imports_num_functions func_entry_table 0 m in
  let m := offset_entries (loop_bound num_vars) import addend
             num_vars var_entry_table 0 m in
  offset_entries (loop_bound num_tls_vars) import addend
    num_tls_vars tls_entry_table 0 m.

(** *** [uvl_load_module_for_lib] *)
Definition uvl_load_module_for_lib (lib_name : Z) (k : K) (m : Mem)
  : Z * K * Mem :=
  (0, k, m).

(** *** [uvl_elf_check_header] *)
Definition uvl_elf_check_header (hdr : Z) : M Z :=
  m <- get_mem ;;
  let ident (i : Z) := load8 m (hdr + f_off e_ident + i) in
  if negb ((ident EI_MAG0 =? ELFMAG0) && (ident EI_MAG1 =? ELFMAG1)
           && (ident EI_MAG2 =? ELFMAG2) && (ident EI_MAG3 =? ELFMAG3)) then
    LOG "Invalid ELF magic number." ;; ret (-1)
  else if negb (ident EI_CLASS =? ELFCLASS32) then
    LOG "Not a 32bit executable." ;; ret (-1)
  else if negb (ident EI_DATA =? ELFDATA2LSB) then
    LOG "Not a valid ARM executable." ;; ret (-1)
  else if negb (ident EI_VERSION =? EV_CURRENT) then
    LOG "Unsupported ELF version." ;; ret (-1)
  else if negb ((get m hdr e_type =? ET_EXEC)
                || (get m hdr e_type =? ET_SCE_EXEC)) then
    LOG "Only ET_EXEC files can be loaded currently." ;; ret (-1)
  else if negb (get m hdr e_machine =? EM_ARM) then
    LOG "Not an ARM executable." ;; ret (-1)
  else if negb (get m hdr e_version =? EV_CURRENT) then
    LOG "Unsupported ELF version." ;; ret (-1)
  else if negb ((get m hdr e_shoff >? 0) && (get m hdr e_phoff >? 0)) then
    LOG "Missing table header(s)." ;; ret (-1)
  else if negb (get m hdr e_shstrndx >? 0) then
    LOG "Missing strings table." ;; ret (-1)
  else ret 0.

(** *** [uvl_elf_get_module_info]

    [Some p]: zero is returned and [p] stored in [*mod_info];
    [None]: -1 is returned.  Memory is only read, so the loop over the
    section headers is a function of the memory. *)
Fixpoint find_section (m : Mem) (data elf_hdr name_idx : Z) (n : nat) (i : Z)
  : option Z :=
  match n with
  | O => None
  | S n' =>
    let sec_hdr :=
      u32 (data + get m elf_hdr e_shoff + i * sizeof_Elf32_Shdr_t) in
    if get m sec_hdr sh_name =? u32 name_idx then
      Some (u32 (data + get m sec_hdr sh_offset))
    else find_section m data elf_hdr name_idx n' (i + 1)
  end.

Definition uvl_elf_get_module_info (data elf_hdr : Z) : M (option Z) :=
  m <- get_mem ;;
  let sec_hdr :=
    u32 (data + get m elf_hdr e_shoff
         + get m elf_hdr e_shstrndx * get m elf_hdr e_shentsize) in
  let strings := u32 (data + get m sec_hdr sh_offset) in
  let name_idx :=
    s32 (memstr m strings (get m sec_hdr sh_size) UVL_SEC_MODINFO
           (Z.of_nat (String.length UVL_SEC_MODINFO)) - strings) in
  if name_idx <=? 0 then
    LOG "Cannot find section %s in string table." ;; ret None
  else
    ret (find_section m data elf_hdr name_idx
           (Z.to_nat (get m elf_hdr e_shnum)) 0).

(** *** [uvl_elf_free_memory] *)

(** The first loop: the lowest and the highest address of the program
    headers; the code only reports them under [IF_DEBUG]. *)
Fixpoint load_window (m : Mem) (prog_hdrs : Z) (n : nat)
  (i min_addr max_addr : Z) : Z * Z :=
  match n with
  | O => (min_addr, max_addr)
  | S n' =>
    let ph := prog_hdrs + i * sizeof_Elf32_Phdr_t in
    let min_addr :=
      if get m ph p_vaddr <? min_addr then get m ph p_vaddr else min_addr in
    let max_addr :=
      if u32 (get m ph p_vaddr + get m ph p_memsz) >? max_addr
      then u32 (get m ph p_vaddr + get m ph p_memsz) else max_addr in
    load_window m prog_hdrs n' (i + 1) min_addr max_addr
  end.

(** The loop over [j]: [Some rc] when the function returns [rc] from
    inside the loop, [None] when the loop is left, by [break] or at its
    end; [n] turns are left. *)
Fixpoint free_segments (n : nat) (j : Z) (uid : Z)
  (m_mod_info : loaded_module_info_t) : M (option Z) :=
  match n with
  | O => ret None
  | S n' =>
    if vaddr (nth (Z.to_nat j) (segments m_mod_info)
                  {| vaddr := 0; memsz := 0 |}) =? 0x81000000 then
      rc <- call (sceKernelStopUnloadModule uid) (EStopUnloadModule uid) ;;
      if rc <? 0 then
        LOG "Error unloading %s." ;; ret (Some (-1))
      else ret None
    else free_segments n' (j + 1) uid m_mod_info
  end.

(** The loop over the modules [mod_list[i]], [i < num_loaded]. *)
Fixpoint free_modules (mod_list : list Z) : M Z :=
  match mod_list with
  | [] => ret 0
  | uid :: rest =>
    '(rc, m_mod_info) <-
       (fun w => let '(rc, info, k) := sceKernelGetModuleInfo uid (kern w) in
                 Some ((rc, info),
                       mkWorld (mem w) k
                         (trace w ++ [EGetModuleInfo uid rc info]))) ;;
    if rc <? 0 then
      LOG "Error getting info for mod 0x%08X, continuing" ;;
      free_modules rest
    else
      r <- free_segments 3 0 uid m_mod_info ;;
      match r with
      | Some rc => ret rc
      | None => free_modules rest
      end
  end.

Definition uvl_elf_free_memory (prog_hdrs count : Z) : M Z :=
  m <- get_mem ;;
  let _ := load_window m prog_hdrs (Z.to_nat count) 0 0xFFFFFFFF 0 in
  '(rc, mod_list) <-
     (fun w => let '(rc, mods, k) :=
                 sceKernelGetModuleList 0xFF MAX_LOADED_MODS (kern w) in
               Some ((rc, mods),
                     mkWorld (mem w) k (trace w ++ [EGetModuleList rc mods]))) ;;
  if rc <? 0 then
    LOG "Failed to get module list." ;; ret (-1)
  else free_modules mod_list.

(** *** [uvl_load_elf] *)

(** [(length + 0xFFFFF) & ~0xFFFFF] on [u32_t]. *)
Definition align_1mb (length : Z) : Z :=
  Z.land (u32 (length + 0xFFFFF)) (u32 (Z.lnot 0xFFFFF)).

Definition do_memcpy (dst src n : Z) : M unit :=
  fun w => Some (tt, mkWorld (memcpy (mem w) dst src n) (kern w)
                       (trace w ++ [EMemcpy dst src n])).

Definition do_memset (dst c n : Z) : M unit :=
  fun w => Some (tt, mkWorld (memset (mem w) dst c n) (kern w)
                       (trace w ++ [EMemset dst c n])).

Definition unlock_mem : M unit :=
  fun w => Some (tt, mkWorld (mem w) (psvUnlockMem (kern w))
                       (trace w ++ [EUnlockMem])).

Definition lock_mem : M unit :=
  fun w => Some (tt, mkWorld (mem w) (psvLockMem (kern w))
                       (trace w ++ [ELockMem])).

(** The loop over the program headers, from [i] on, [blockaddr] being the
    local of that name: [inl rc] when the function returns [rc] from
    inside the loop, [inr blockaddr] when the loop ends. *)
Fixpoint load_segments (fuel : nat) (data elf_hdr prog_hdrs i blockaddr : Z)
  : M (Z + Z) :=
  match fuel with
  | O => diverge
  | S fuel' =>
    m <- get_mem ;;
    if negb (i <? get m elf_hdr e_phnum) then ret (inr blockaddr) else
    let ph := prog_hdrs + i * sizeof_Elf32_Phdr_t in
    if negb (get m ph p_type =? PT_LOAD) || (get m ph p_vaddr =? 0) then
      load_segments fuel' data elf_hdr prog_hdrs (i + 1) blockaddr
    else
    let length := align_1mb (get m ph p_memsz) in
    memblock <-
      (if negb (Z.land (get m ph p_flags) (if PF_X =? PF_X then 1 else 0)
                =? 0)
       then call (sceKernelAllocCodeMemBlock "UVLHomebrew" length)
                 (EAllocCodeMemBlock "UVLHomebrew" length)
       else call (sceKernelAllocMemBlock "UVLHomebrew" 0xC20D060 length)
                 (EAllocMemBlock "UVLHomebrew" 0xC20D060 length)) ;;
    if memblock <? 0 then
      LOG "Error allocating memory. 0x%08X" ;; ret (inl (-1))
    else
    '(rc, blockaddr) <- get_mem_block_base memblock blockaddr ;;
    (if rc <? 0 then LOG "Error getting memory block address."
     else ret tt) ;;
    (if negb (u32 blockaddr =? u32 (get m ph p_vaddr)) then
       LOG "Error, section %u wants to be loaded to 0x%08X but we allocated 0x%08X"
     else ret tt) ;;
    unlock_mem ;;
    do_memcpy blockaddr (u32 (data + get m ph p_offset)) (get m ph p_filesz) ;;
    m <- get_mem ;;
    do_memset (u32 (blockaddr + get m ph p_filesz)) 0
              (u32 (get m ph p_memsz - get m ph p_filesz)) ;;
    lock_mem ;;
    load_segments fuel' data elf_hdr prog_hdrs (i + 1) blockaddr
  end.

(** The loop over the import descriptors [import[i]] below [end_], with
    the function that loads the module of a library as a parameter:
    [Some rc] when the function returns [rc] from inside the loop, [None]
    when the loop ends. *)
Fixpoint resolve_imports (fuel : nat)
  (load_module_for_lib : Z -> K -> Mem -> Z * K * Mem)
  (import end_ i : Z) : M (option Z) :=
  match fuel with
  | O => diverge
  | S fuel' =>
    let imp := u32 (import + i * sizeof_module_imports_t) in
    if negb (imp <? end_) then ret None else
    m <- get_mem ;;
    let name := get m imp lib_name in
    rc <- call_mem (load_module_for_lib name) (ELoadModuleForLib name) ;;
    if rc <? 0 then
      LOG "Cannot load required module for %s. May still be possible to resolve with cached entries. Continuing." ;;
      resolve_imports fuel' load_module_for_lib import end_ (u32 (i + 1))
    else
      rc <- call_mem (uvl_resolve_imports imp) (EResolveImports imp) ;;
      if rc <? 0 then
        LOG "Failed to resolve imports for %s" ;; ret (Some (-1))
      else
        resolve_imports fuel' load_module_for_lib import end_ (u32 (i + 1))
  end.

(** The loop over [j] of the entry point finder; memory is only read. *)
Fixpoint scan_nids (m : Mem) (exp : Z) (n : nat) (j : Z) : option Z :=
  match n with
  | O => None
  | S n' =>
    if load32 m (get m exp nid_table + 4 * j) =? ENTRY_NID then
      Some (load32 m (get m exp entry_table + 4 * j))
    else scan_nids m exp n' (j + 1)
  end.

(** The loop over the export descriptors [export[i]] below [end_]:
    [Some e] when the function stores [e] in [*entry] and returns zero,
    [None] when the loop ends. *)
Fixpoint find_entry (fuel : nat) (m : Mem) (export end_ i : Z)
  : option (option Z) :=
  match fuel with
  | O => None
  | S fuel' =>
    let exp := u32 (export + i * sizeof_module_exports_t) in
    if negb (exp <? end_) then Some None else
    if negb (get m exp attribute =? ATTR_MOD_INFO) then
      find_entry fuel' m export end_ (u32 (i + 1))
    else
      match scan_nids m exp (Z.to_nat (get m exp exports_num_functions)) 0 with
      | Some e => Some (Some e)
      | None => find_entry fuel' m export end_ (u32 (i + 1))
      end
  end.

(** The block of [uvl_load_elf] that loads the program sections:
    [Some rc] when the function returns [rc] there, [None] when it goes
    on. *)
Definition load_program_sections (fuel : nat) (data elf_hdr prog_hdrs : Z)
  : M (option Z) :=
  m <- get_mem ;;
  if get m elf_hdr e_phnum <? 1 then
    LOG "No program sections to load!" ;; ret (Some (-1))
  else
  r <- load_segments fuel data elf_hdr prog_hdrs 0 indeterminate ;;
  match r with
  | inl rc => ret (Some rc)
  | inr _ => ret None
  end.

(** The block that resolves the NIDs: [Some rc] when the function returns
    [rc] there, [None] when it goes on. *)
Definition resolve_nids (fuel : nat)
  (load_module_for_lib : Z -> K -> Mem -> Z * K * Mem)
  (prog_hdrs mod_info : Z) : M (option Z) :=
  m <- get_mem ;;
  let import := u32 (get m prog_hdrs p_vaddr + get m mod_info stub_top) in
  let end_ := u32 (get m prog_hdrs p_vaddr + get m mod_info stub_end) in
  resolve_imports fuel load_module_for_lib import end_ 0.

(** The block that finds the entry point, which ends the function: the
    return code and what [*entry] holds. *)
Definition find_entry_point (fuel : nat) (prog_hdrs mod_info : Z)
  : M (Z * Z) :=
  m <- get_mem ;;
  let export := u32 (get m prog_hdrs p_vaddr + get m mod_info ent_top) in
  let end_ := u32 (get m prog_hdrs p_vaddr + get m mod_info ent_end) in
  match find_entry fuel m export end_ 0 with
  | None => diverge
  | Some (Some e) => ret (0, e)
  | Some None => LOG "Cannot find application entry." ;; ret (-1, NULL)
  end.

(** The result is the return code and what [*entry] holds. *)
Definition uvl_load_elf (fuel : nat) (data : Z) : M (Z * Z) :=
  let elf_hdr := data in
  rc <- uvl_elf_check_header elf_hdr ;;
  if rc <? 0 then
    LOG "Check header failed." ;; ret (-1, NULL)
  else
  m <- get_mem ;;
  let prog_hdrs := u32 (data + get m elf_hdr e_phoff) in
  r <- uvl_elf_get_module_info data elf_hdr ;;
  match r with
  | None => LOG "Cannot find module info section." ;; ret (-1, NULL)
  | Some mod_info =>
  m <- get_mem ;;
  rc <- uvl_elf_free_memory prog_hdrs (get m elf_hdr e_phnum) ;;
  if rc <? 0 then
    LOG "Error freeing memory." ;; ret (-1, NULL)
  else
  r <- load_program_sections fuel data elf_hdr prog_hdrs ;;
  match r with
  | Some rc => ret (rc, NULL)
  | None =>
  r <- resolve_nids fuel uvl_load_module_for_lib prog_hdrs mod_info ;;
  match r with
  | Some rc => ret (rc, NULL)
  | None => find_entry_point fuel prog_hdrs mod_info
  end
  end
  end.

(** *** [uvl_load_exe] *)

(** The end of the function: the data are freed. *)
Definition free_and_return (data entry : Z) : M (Z * Z) :=
  rc <- uvl_free_data data ;;
  if rc <? 0 then
    LOG "Cannot free data" ;; ret (-1, entry)
  else ret (0, entry).

(** The result is the return code and what [*entry] holds. *)
Definition uvl_load_exe (fuel : nat) (filename : string) : M (Z * Z) :=
  '(rc, data, size) <- uvl_load_file filename ;;
  if rc <? 0 then
    LOG "Cannot load file." ;; ret (-1, NULL)
  else
  let data := match data with Some d => d | None => indeterminate end in
  m <- get_mem ;;
  let magic (i : Z) := load8 m (data + i) in
  if magic 0 =? ELFMAG0 then
    if (magic 1 =? ELFMAG1) && (magic 2 =? ELFMAG2) && (magic 3 =? ELFMAG3)
    then
      '(rc, entry) <- uvl_load_elf fuel data ;;
      if rc <? 0 then
        LOG "Cannot load ELF." ;; ret (-1, entry)
      else free_and_return data entry
    else free_and_return data NULL
  else if magic 0 =? SCEMAG0 then
    if (magic 1 =? SCEMAG1) && (magic 2 =? SCEMAG2) && (magic 3 =? SCEMAG3)
    then
      '(rc, entry) <- uvl_load_elf fuel (u32 (data + SCEHDR_LEN)) ;;
      if rc <? 0 then
        LOG "Cannot load SELF." ;; ret (-1, entry)
      else free_and_return data entry
    else free_and_return data NULL
  else
    LOG "Invalid magic." ;; ret (-1, NULL).

End Loader.

(** ** What the specification says, in its words *)

Section Specification.

Context {H : LoadH}.

(** The nine checks of the header validator: magic bytes, 32-bit class,
    little-endian data, identification version, file type, machine,
    version field, table offsets, index of the string table. *)
Definition ident (m : Mem) (hdr i : Z) : Z := load8 m (hdr + f_off e_ident + i).

Definition header_checks (m : Mem) (hdr : Z) : list bool :=
  [ (ident m hdr EI_MAG0 =? ELFMAG0) && (ident m hdr EI_MAG1 =? ELFMAG1)
    && (ident m hdr EI_MAG2 =? ELFMAG2) && (ident m hdr EI_MAG3 =? ELFMAG3);
    ident m hdr EI_CLASS =? ELFCLASS32;
    ident m hdr EI_DATA =? ELFDATA2LSB;
    ident m hdr EI_VERSION =? EV_CURRENT;
    (get m hdr e_type =? ET_EXEC) || (get m hdr e_type =? ET_SCE_EXEC);
    get m hdr e_machine =? EM_ARM;
    get m hdr e_version =? EV_CURRENT;
    (get m hdr e_shoff >? 0) && (get m hdr e_phoff >? 0);
    get m hdr e_shstrndx >? 0 ].

Definition valid_header (m : Mem) (hdr : Z) : bool :=
  forallb (fun b => b) (header_checks m hdr).

(** A trace holds no allocation. *)
Definition is_allocation (e : Event) : bool :=
  match e with
  | EAllocMemBlock _ _ _ _ | EAllocCodeMemBlock _ _ _ => true
  | _ => false
  end.

Definition no_allocation (tr : list Event) : Prop :=
  forall e, In e tr -> is_allocation e = false.

(** A module occupies the load window: one of its three segments has the
    reserved address as its base. *)
Definition occupies (info : loaded_module_info_t) : bool :=
  existsb (fun j => vaddr (nth j (segments info) {| vaddr := 0; memsz := 0 |})
                    =? 0x81000000)
          [0; 1; 2]%nat.

(** The reclamation of the address space, module by module: the trace
    [tr] and the return code [rc] it may have on the modules listed.  A
    module whose information cannot be fetched is skipped; a module that
    does not occupy the window is left alone; a module that occupies it is
    stopped and unloaded, and the failure of that ends the reclamation
    with -1. *)
Inductive reclaim_run : list Z -> list Event -> Z -> Prop :=
| reclaim_done : reclaim_run [] [] 0
| reclaim_skipped uid mods rci info tr rc :
    rci < 0 ->
    reclaim_run mods tr rc ->
    reclaim_run (uid :: mods)
      (EGetModuleInfo uid rci info
       :: ELog "Error getting info for mod 0x%08X, continuing" :: tr) rc
| reclaim_left uid mods rci info tr rc :
    0 <= rci -> occupies info = false ->
    reclaim_run mods tr rc ->
    reclaim_run (uid :: mods) (EGetModuleInfo uid rci info :: tr) rc
| reclaim_unloaded uid mods rci info rcu tr rc :
    0 <= rci -> occupies info = true -> 0 <= rcu ->
    reclaim_run mods tr rc ->
    reclaim_run (uid :: mods)
      (EGetModuleInfo uid rci info :: EStopUnloadModule uid rcu :: tr) rc
| reclaim_failed uid mods rci info rcu :
    0 <= rci -> occupies info = true -> rcu < 0 ->
    reclaim_run (uid :: mods)
      [EGetModuleInfo uid rci info; EStopUnloadModule uid rcu;
       ELog "Error unloading %s."] (-1).


(** The indices [i], [i + 1], ... of [k] descriptors. *)
Fixpoint zrange (i : Z) (k : nat) : list Z :=
  match k with
  | O => []
  | S k' => i :: zrange (i + 1) k'
  end.


Definition export_at (export i : Z) : Z :=
  u32 (export + i * sizeof_module_exports_t).

(** [exp->nid_table[j]] and [exp->entry_table[j]]. *)
Definition nid_at (m : Mem) (exp j : Z) : Z :=
  load32 m (get m exp nid_table + 4 * j).

Definition entry_at (m : Mem) (exp j : Z) : Z :=
  load32 m (get m exp entry_table + 4 * j).

(** An export descriptor with the tag of the module information whose
    NID table holds the identifier of the entry point. *)
Definition holds_entry (m : Mem) (exp : Z) : Prop :=
  get m exp attribute = ATTR_MOD_INFO /\
  exists j, 0 <= j < get m exp exports_num_functions
            /\ nid_at m exp j = ENTRY_NID.

(** The calls of the function that loads the module of a library. *)
Definition is_load_module (e : Event) : bool :=
  match e with ELoadModuleForLib _ _ => true | _ => false end.

(** [&prog_hdrs[i]]. *)
Definition phdr_at (prog_hdrs i : Z) : Z :=
  prog_hdrs + i * sizeof_Elf32_Phdr_t.

(** A loadable entry: of type [PT_LOAD], with an address that is not
    null. *)
Definition is_loadable (m : Mem) (ph : Z) : bool :=
  (get m ph p_type =? PT_LOAD) && negb (get m ph p_vaddr =? 0).

Definition loadable_entries (m : Mem) (prog_hdrs : Z) (n : nat) : list Z :=
  filter (fun i => is_loadable m (phdr_at prog_hdrs i)) (zrange 0 n).

(** The bases [sceKernelGetMemBlockBase] has left in [blockaddr], in the
    order of the calls. *)
Definition granted_base (e : Event) : list Z :=
  match e with
  | EGetMemBlockBase _ _ base => [base]
  | _ => []
  end.

Definition granted_bases (tr : list Event) : list Z :=
  flat_map granted_base tr.

(** The events of [w'] that [w] has not. *)
Definition new_events {K} (w w' : World K) : list Event :=
  skipn (List.length (trace w)) (trace w').

(** The [l] bytes at [a] lie in the [size] bytes at [lo]. *)
Definition within (a l lo size : Z) : bool :=
  (lo <=? a) && (a + l <=? lo + size).

Definition field_within (base : Z) (f : field) (lo size : Z) : bool :=
  within (base + f_off f) (Z.of_nat (f_len f)) lo size.

(** The [la] bytes at [a] and the [lb] bytes at [b] do not meet. *)
Definition apart (a la b lb : Z) : bool :=
  (a + la <=? b) || (b + lb <=? a).

(** What the loop over the [n] program headers reads lies in the image,
    the [size] bytes at [data]: the count of the headers, the headers, and
    the bytes in the file of the loadable entries, whose size in the file
    is at most their size in memory, a 32-bit number. *)
Definition entry_within (m : Mem) (data size prog_hdrs i : Z) : bool :=
  let ph := phdr_at prog_hdrs i in
  forallb (fun f => field_within ph f data size)
          [p_type; p_offset; p_vaddr; p_filesz; p_memsz; p_flags]
  && (negb (is_loadable m ph)
      || ((get m ph p_filesz <=? get m ph p_memsz)
          && (get m ph p_memsz <? 2 ^ 32)
          && within (data + get m ph p_offset) (get m ph p_filesz)
               data size)).

Definition image_within (m : Mem) (data size prog_hdrs : Z) (n : nat) : bool :=
  (0 <=? data) && (data + size <=? 2 ^ 32)
  && field_within data e_phnum data size
  && forallb (entry_within m data size prog_hdrs) (zrange 0 n).

(** The blocks granted to the entries placed lie in the address space,
    apart from the image and from each other. *)
Fixpoint separate (m : Mem) (data size prog_hdrs : Z)
  (placed : list (Z * Z)) : bool :=
  match placed with
  | [] => true
  | (i, b) :: rest =>
    let msz := get m (phdr_at prog_hdrs i) p_memsz in
    (0 <=? b) && (b + msz <=? 2 ^ 32) && apart b msz data size
    && forallb (fun p => apart b msz (snd p)
                           (get m (phdr_at prog_hdrs (fst p)) p_memsz)) rest
    && separate m data size prog_hdrs rest
  end.

(** The block at [b] holds the segment of the entry [ph] of the image that
    [m] holds at [data]: the bytes of the file, then zeros. *)
Definition segment_loaded (m' m : Mem) (data ph b : Z) : Prop :=
  (forall x, 0 <= x < get m ph p_filesz ->
             load8 m' (b + x) = load8 m (data + get m ph p_offset + x)) /\
  (forall x, get m ph p_filesz <= x < get m ph p_memsz ->
             load8 m' (b + x) = 0).

(** The memory after the segment of the entry [ph] has been copied to
    [blockaddr] and the rest of it zeroed. *)
Definition copy_segment (m : Mem) (data ph blockaddr : Z) : Mem :=
  let mc := memcpy m blockaddr (u32 (data + get m ph p_offset))
              (get m ph p_filesz) in
  memset mc (u32 (blockaddr + get mc ph p_filesz)) 0
         (u32 (get mc ph p_memsz - get mc ph p_filesz)).

(** The members of [module_imports_t] that are pointers, in the order in
    which [uvl_offset_import] shifts them, and its counts. *)
Definition import_pointers : list field :=
  [lib_name; func_nid_table; func_entry_table; var_nid_table;
   var_entry_table; tls_nid_table; tls_entry_table].

Definition import_counts : list field :=
  [imports_num_functions; num_vars; num_tls_vars].

(** The entry tables with their counts. *)
Definition import_tables : list (field * field) :=
  [(imports_num_functions, func_entry_table); (num_vars, var_entry_table);
   (num_tls_vars, tls_entry_table)].

(** Two members of a structure do not meet. *)
Definition fields_apart (f g : field) : bool :=
  apart (f_off f) (Z.of_nat (f_len f)) (f_off g) (Z.of_nat (f_len g)).

Fixpoint pairwise_apart (fs : list field) : bool :=
  match fs with
  | [] => true
  | f :: fs' => forallb (fields_apart f) fs' && pairwise_apart fs'
  end.

(** The layout of [module_imports_t] is one of a structure: its members lie
    in it without meeting, and its pointers have four bytes. *)
Definition imports_layout_ok : bool :=
  forallb (fun f => (f_len f =? 4)%nat) import_pointers
  && forallb (fun f => within (f_off f) (Z.of_nat (f_len f)) 0
                         sizeof_module_imports_t)
       (import_pointers ++ import_counts)
  && pairwise_apart (import_pointers ++ import_counts).

(** The shifts of the pointers of the descriptor, one after the other. *)
Fixpoint offset_pointers (import addend : Z) (fs : list field) (m : Mem)
  : Mem :=
  match fs with
  | [] => m
  | f :: fs' =>
    offset_pointers import addend fs'
      (set m import f (u32 (get m import f + addend)))
  end.

(** The table of [n] entries at [table], walked by a pass. *)
Definition table_region (m : Mem) (import : Z) (ct : field * field)
  (shift : Z) : Z * Z :=
  (u32 (get m import (snd ct) + shift), 4 * get m import (fst ct)).

(** The descriptor and the tables that the pass by [k] and the pass
    back walk: the tables at the shifted bases, then those at the bases
    the descriptor had. *)
Definition relocation_regions (m : Mem) (import k : Z) : list (Z * Z) :=
  (import, sizeof_module_imports_t)
  :: map (fun ct => table_region m import ct k) import_tables
  ++ map (fun ct => table_region m import ct 0) import_tables.

(** Regions that lie in the address space. *)
Definition in_space (r : Z * Z) : bool :=
  (0 <=? fst r) && (fst r + snd r <=? 2 ^ 32).

(** The first region does not meet the others, all in the address
    space. *)
Definition header_apart (rs : list (Z * Z)) : bool :=
  match rs with
  | [] => true
  | h :: ts =>
    in_space h
    && forallb (fun r => in_space r
                         && apart (fst h) (snd h) (fst r) (snd r)) ts
  end.

(** No two regions meet. *)
Fixpoint regions_apart (rs : list (Z * Z)) : bool :=
  match rs with
  | [] => true
  | r :: rs' =>
    forallb (fun r' => apart (fst r) (snd r) (fst r') (snd r')) rs'
    && regions_apart rs'
  end.

(** An address outside of a region. *)
Definition outside (r : Z * Z) (a : Z) : Prop :=
  a < fst r \/ fst r + snd r <= a.

(** The calls of a trace: its events that are not messages. *)
Definition is_log (e : Event) : bool :=
  match e with ELog _ => true | _ => false end.

Definition calls (tr : list Event) : list Event :=
  filter (fun e => negb (is_log e)) tr.

(** What a run has answered, the world it started in being [w]: the
    result, the state of the kernel and the events added. *)
Definition outcome {K A} (w : World K) (r : option (A * World K))
  : option (A * K * list Event) :=
  option_map (fun r => (fst r, kern (snd r), new_events w (snd r))) r.

(** The modules whose information has been asked for, with the answers,
    and the modules that have been stopped and unloaded, in the order of
    the calls. *)
Definition visit (e : Event) : list (Z * Z * loaded_module_info_t) :=
  match e with
  | EGetModuleInfo uid rc info => [(uid, rc, info)]
  | _ => []
  end.

Definition visits (tr : list Event) : list (Z * Z * loaded_module_info_t) :=
  flat_map visit tr.

Definition unload (e : Event) : list Z :=
  match e with
  | EStopUnloadModule uid _ => [uid]
  | _ => []
  end.

Definition unloads (tr : list Event) : list Z := flat_map unload tr.

Definition visited_uid (v : Z * Z * loaded_module_info_t) : Z := fst (fst v).

(** A visit that calls for the unloading: the information has been
    fetched and shows the module in the load window. *)
Definition to_unload (v : Z * Z * loaded_module_info_t) : bool :=
  (0 <=? snd (fst v)) && occupies (snd v).

(** The request for a block that the loop over the program headers makes
    for the entry [ph], [blk] being the answer: a block of code when the
    lowest bit of the flags is set, a block of data otherwise, of the
    size in memory of the entry rounded to 2^20. *)
Definition allocation_of (m : Mem) (ph blk : Z) : Event :=
  if Z.odd (get m ph p_flags)
  then EAllocCodeMemBlock "UVLHomebrew" (align_1mb (get m ph p_memsz)) blk
  else EAllocMemBlock "UVLHomebrew" 0xC20D060
         (align_1mb (get m ph p_memsz)) blk.

(** The copy of the segment of the entry [ph] to [b], between the lifting
    of the protection of memory and its restoration. *)
Definition segment_copy (m : Mem) (data ph b : Z) : list Event :=
  let mc := memcpy m b (u32 (data + get m ph p_offset)) (get m ph p_filesz) in
  [EUnlockMem;
   EMemcpy b (u32 (data + get m ph p_offset)) (get m ph p_filesz);
   EMemset (u32 (b + get mc ph p_filesz)) 0
     (u32 (get mc ph p_memsz - get mc ph p_filesz));
   ELockMem].

(** The messages of a turn of that loop on the answer of
    [sceKernelGetMemBlockBase]: its failure, and a base that is not the
    address the entry asks for. *)
Definition base_messages (m : Mem) (ph rc b : Z) : list Event :=
  (if rc <? 0 then [ELog "Error getting memory block address."] else [])
  ++ (if negb (u32 b =? u32 (get m ph p_vaddr))
      then [ELog "Error, section %u wants to be loaded to 0x%08X but we allocated 0x%08X"]
      else []).

(** The protection of memory along a trace, [unlocked] telling whether
    it is lifted at the start.  [Some u]: the trace lifts and restores the
    protection in turn, copies and fills only while it is lifted, and
    calls no service then, [u] telling whether it is lifted at the end;
    [None] otherwise. *)
Fixpoint protection (unlocked : bool) (tr : list Event) : option bool :=
  match tr with
  | [] => Some unlocked
  | e :: tr' =>
    match e with
    | ELog _ => protection unlocked tr'
    | EUnlockMem => if unlocked then None else protection true tr'
    | ELockMem => if unlocked then protection false tr' else None
    | EMemcpy _ _ _ | EMemset _ _ _ =>
      if unlocked then protection true tr' else None
    | _ => if unlocked then None else protection false tr'
    end
  end.

(** The stage of [uvl_load_elf] that a call belongs to: 1 for the
    reclamation of the address space, 2 for the loading of the segments, 3
    for the resolution of the imports, and 0 for the calls that are not
    of the ELF loader; a message belongs to none. *)
Definition stage (e : Event) : list nat :=
  match e with
  | ELog _ => []
  | EGetModuleList _ _ | EGetModuleInfo _ _ _ | EStopUnloadModule _ _ =>
    [1%nat]
  | EAllocMemBlock _ _ _ _ | EAllocCodeMemBlock _ _ _
  | EGetMemBlockBase _ _ _ | EUnlockMem | ELockMem
  | EMemcpy _ _ _ | EMemset _ _ _ => [2%nat]
  | ELoadModuleForLib _ _ | EResolveImports _ _ => [3%nat]
  | EIoOpen _ _ | EIoRead _ _ _ _ | EIoClose _ _
  | EFindMemBlockByAddr _ _ | EFreeMemBlock _ _ => [0%nat]
  end.

Definition stages (tr : list Event) : list nat := flat_map stage tr.

(** An event of the stage [s], or a message. *)
Definition stage_in (s : nat) (e : Event) : bool :=
  forallb (Nat.eqb s) (stage e).

Fixpoint ascending (l : list nat) : bool :=
  match l with
  | [] => true
  | a :: l' =>
    match l' with
    | [] => true
    | b :: _ => (a <=? b)%nat && ascending l'
    end
  end.

(** The container the dispatcher finds at [data]: the header it gives
    to the ELF loader and the message it logs when that loader fails.  An
    ELF starts at [data]; in a SELF the ELF follows the SCE header. *)
Definition container (m : Mem) (data : Z) : option (Z * string) :=
  if load8 m data =? ELFMAG0 then
    if (load8 m (data + 1) =? ELFMAG1) && (load8 m (data + 2) =? ELFMAG2)
       && (load8 m (data + 3) =? ELFMAG3)
    then Some (data, "Cannot load ELF.")
    else None
  else if load8 m data =? SCEMAG0 then
    if (load8 m (data + 1) =? SCEMAG1) && (load8 m (data + 2) =? SCEMAG2)
       && (load8 m (data + 3) =? SCEMAG3)
    then Some (u32 (data + SCEHDR_LEN), "Cannot load SELF.")
    else None
  else None.

(** The calls of the resolver. *)
Definition is_resolve (e : Event) : bool :=
  match e with EResolveImports _ _ => true | _ => false end.

(** The blocks asked of the kernel along a trace: whether a block of
    code is asked for, and the length. *)
Definition request (e : Event) : list (bool * Z) :=
  match e with
  | EAllocCodeMemBlock _ size _ => [(true, size)]
  | EAllocMemBlock _ _ size _ => [(false, size)]
  | _ => []
  end.

Definition requests (tr : list Event) : list (bool * Z) :=
  flat_map request tr.

(** The block that the entry [ph] of an image calls for. *)
Definition requested (m : Mem) (ph : Z) : bool * Z :=
  (Z.odd (get m ph p_flags), align_1mb (get m ph p_memsz)).

(** The messages of the header validator, in the order of its checks,
    and the message of the first check that fails. *)
Definition header_reasons : list string :=
  [ "Invalid ELF magic number."; "Not a 32bit executable.";
    "Not a valid ARM executable."; "Unsupported ELF version.";
    "Only ET_EXEC files can be loaded currently."; "Not an ARM executable.";
    "Unsupported ELF version."; "Missing table header(s).";
    "Missing strings table." ].

Fixpoint first_failure (checks : list bool) (reasons : list string)
  : option string :=
  match checks, reasons with
  | c :: checks', r :: reasons' =>
    if c then first_failure checks' reasons' else Some r
  | _, _ => None
  end.

End Specification.

(** ** The requests to the kernel, as the code makes them *)

Section Calls.

Context {K : Type} {H : LoadH} {P : Platform K}.

(** The allocator called for the entry [ph] and its answer. *)
Definition allocate (m : Mem) (ph : Z) (k : K) : Z * K :=
  if Z.odd (get m ph p_flags)
  then sceKernelAllocCodeMemBlock "UVLHomebrew"
         (align_1mb (get m ph p_memsz)) k
  else sceKernelAllocMemBlock "UVLHomebrew" 0xC20D060
         (align_1mb (get m ph p_memsz)) k.

(** The header of the table of the section names, the table, and the
    index of the name of the section of the module information in it,
    as [uvl_elf_get_module_info] computes them: the difference of two
    pointers, taken as an [int]. *)
Definition names_header (m : Mem) (data elf_hdr : Z) : Z :=
  u32 (data + get m elf_hdr e_shoff
       + get m elf_hdr e_shstrndx * get m elf_hdr e_shentsize).

Definition names_table (m : Mem) (data elf_hdr : Z) : Z :=
  u32 (data + get m (names_header m data elf_hdr) sh_offset).

Definition name_found (m : Mem) (data elf_hdr : Z) : Z :=
  memstr m (names_table m data elf_hdr)
    (get m (names_header m data elf_hdr) sh_size)
    UVL_SEC_MODINFO (Z.of_nat (String.length UVL_SEC_MODINFO)).

Definition name_index (m : Mem) (data elf_hdr : Z) : Z :=
  s32 (name_found m data elf_hdr - names_table m data elf_hdr).

(** [&sections[i]], the section headers being taken to have the size of
    [Elf32_Shdr_t]. *)
Definition section_at (m : Mem) (data elf_hdr i : Z) : Z :=
  u32 (data + get m elf_hdr e_shoff + i * sizeof_Elf32_Shdr_t).

(** The reclamation of the address space on a kernel, module by module,
    as the specification describes it: from the state [k] of the kernel,
    on the modules listed, the trace, the return code and the state the
    kernel is left in.  The information of a module is what
    [sceKernelGetModuleInfo] answers in the state the calls before have
    left; a module whose information cannot be fetched is skipped; a
    module that does not occupy the window is left alone; a module that
    occupies it is given to [sceKernelStopUnloadModule], and the failure
    of that call ends the reclamation with -1. *)
Inductive reclaims : K -> list Z -> list Event -> Z -> K -> Prop :=
| reclaims_done k : reclaims k [] [] 0 k
| reclaims_skipped k uid mods rci info k1 tr rc k' :
    sceKernelGetModuleInfo uid k = (rci, info, k1) ->
    rci < 0 ->
    reclaims k1 mods tr rc k' ->
    reclaims k (uid :: mods)
      (EGetModuleInfo uid rci info
       :: ELog "Error getting info for mod 0x%08X, continuing" :: tr) rc k'
| reclaims_left k uid mods rci info k1 tr rc k' :
    sceKernelGetModuleInfo uid k = (rci, info, k1) ->
    0 <= rci -> occupies info = false ->
    reclaims k1 mods tr rc k' ->
    reclaims k (uid :: mods) (EGetModuleInfo uid rci info :: tr) rc k'
| reclaims_unloaded k uid mods rci info k1 rcu k2 tr rc k' :
    sceKernelGetModuleInfo uid k = (rci, info, k1) ->
    0 <= rci -> occupies info = true ->
    sceKernelStopUnloadModule uid k1 = (rcu, k2) ->
    0 <= rcu ->
    reclaims k2 mods tr rc k' ->
    reclaims k (uid :: mods)
      (EGetModuleInfo uid rci info :: EStopUnloadModule uid rcu :: tr) rc k'
| reclaims_failed k uid mods rci info k1 rcu k2 :
    sceKernelGetModuleInfo uid k = (rci, info, k1) ->
    0 <= rci -> occupies info = true ->
    sceKernelStopUnloadModule uid k1 = (rcu, k2) ->
    rcu < 0 ->
    reclaims k (uid :: mods)
      [EGetModuleInfo uid rci info; EStopUnloadModule uid rcu;
       ELog "Error unloading %s."] (-1) k2.


End Calls.

(** ** An instance of the declarations, for the examples

    The constants and the layouts of the ELF format, and those of the
    module format of the platform. *)

Definition u16_at (off : Z) : field := Field off 2.
Definition u32_at (off : Z) : field := Field off 4.

#[local] Instance vita : LoadH := {|
  EI_MAG0 := 0; EI_MAG1 := 1; EI_MAG2 := 2; EI_MAG3 := 3;
  EI_CLASS := 4; EI_DATA := 5; EI_VERSION := 6;
  ELFMAG0 := 0x7F; ELFMAG1 := 0x45; ELFMAG2 := 0x4C; ELFMAG3 := 0x46;
  ELFCLASS32 := 1; ELFDATA2LSB := 1; EV_CURRENT := 1;
  ET_EXEC := 2; ET_SCE_EXEC := 0xFE00; EM_ARM := 40;
  PT_LOAD := 1; PF_X := 1;
  SCEMAG0 := 0x53; SCEMAG1 := 0x43; SCEMAG2 := 0x45; SCEMAG3 := 0;
  SCEHDR_LEN := 0x1000;
  UVL_BIN_MAX_SIZE := 0x2000000;
  UVL_SEC_MODINFO := ".sceModuleInfo.rodata";
  MAX_LOADED_MODS := 128;
  ATTR_MOD_INFO := 0x8000;
  ENTRY_NID := 0x935CD196;
  PSP2_O_RDONLY := 1;
  e_ident := Field 0 16; e_type := u16_at 16; e_machine := u16_at 18;
  e_version := u32_at 20; e_phoff := u32_at 28; e_shoff := u32_at 32;
  e_phnum := u16_at 44; e_shentsize := u16_at 46; e_shnum := u16_at 48;
  e_shstrndx := u16_at 50;
  sizeof_Elf32_Phdr_t := 32;
  p_type := u32_at 0; p_offset := u32_at 4; p_vaddr := u32_at 8;
  p_filesz := u32_at 16; p_memsz := u32_at 20; p_flags := u32_at 24;
  sizeof_Elf32_Shdr_t := 40;
  sh_name := u32_at 0; sh_offset := u32_at 16; sh_size := u32_at 20;
  ent_top := u32_at 36; ent_end := u32_at 40;
  stub_top := u32_at 44; stub_end := u32_at 48;
  sizeof_module_imports_t := 52;
  lib_name := u32_at 20;
  func_nid_table := u32_at 28; func_entry_table := u32_at 32;
  var_nid_table := u32_at 36; var_entry_table := u32_at 40;
  tls_nid_table := u32_at 44; tls_entry_table := u32_at 48;
  imports_num_functions := u16_at 6; num_vars := u16_at 8;
  num_tls_vars := u16_at 10;
  sizeof_module_exports_t := 32;
  attribute := u16_at 4; exports_num_functions := u16_at 6;
  nid_table := u32_at 24; entry_table := u32_at 28
|}.

(** ** A scripted platform, for the examples

    The kernel state holds the answers the services give. *)

Record Script : Type := {
  sc_file : list Z;      (* the bytes [sceIoRead] delivers *)
  sc_close : Z;          (* the return code of [sceIoClose] *)
  sc_alloc : Z;          (* the block the allocators answer *)
  sc_bases : list Z;     (* the bases [sceKernelGetMemBlockBase] answers *)
  sc_modules : list (Z * (Z * loaded_module_info_t));
                         (* the loaded modules: uid, return code of
                            [sceKernelGetModuleInfo], information *)
  sc_unload : Z -> Z;    (* the return code of [sceKernelStopUnloadModule] *)
  sc_resolve : Z -> Z    (* the return code of [uvl_resolve_imports] *)
}.

Fixpoint write_bytes (m : Mem) (a : Z) (l : list Z) : Mem :=
  match l with
  | [] => m
  | b :: l' => write_bytes (store8 m a b) (a + 1) l'
  end.

Fixpoint bytes_at (m : Mem) (a : Z) (l : list Z) : bool :=
  match l with
  | [] => true
  | b :: l' => (load8 m a =? b) && bytes_at m (a + 1) l'
  end.

Definition bytes_of_string (s : string) : list Z :=
  map (fun c => Z.of_N (Ascii.N_of_ascii c)) (list_ascii_of_string s).

(** The first place among [n] where the needle is, or [NULL]. *)
Fixpoint search (m : Mem) (needle : list Z) (n : nat) (a : Z) : Z :=
  match n with
  | O => NULL
  | S n' => if bytes_at m a needle then a else search m needle n' (a + 1)
  end.

Definition empty_info : loaded_module_info_t :=
  {| module_name := ""; segments := [] |}.

Fixpoint module_answer (l : list (Z * (Z * loaded_module_info_t))) (uid : Z)
  : Z * loaded_module_info_t :=
  match l with
  | [] => (-1, empty_info)
  | (u, a) :: l' => if u =? uid then a else module_answer l' uid
  end.

#[local] Instance scripted : Platform Script := {|
  sceIoOpen := fun _ _ _ k => (3, k);
  sceIoRead := fun _ base _ k m =>
    (Z.of_nat (List.length (sc_file k)), k, write_bytes m base (sc_file k));
  sceIoClose := fun _ k => (sc_close k, k);
  sceKernelAllocMemBlock := fun _ _ _ k => (sc_alloc k, k);
  sceKernelAllocCodeMemBlock := fun _ _ k => (sc_alloc k, k);
  sceKernelGetMemBlockBase := fun _ old k =>
    match sc_bases k with
    | [] => (-1, old, k)
    | b :: rest =>
      (0, b, {| sc_file := sc_file k; sc_close := sc_close k;
                sc_alloc := sc_alloc k; sc_bases := rest;
                sc_modules := sc_modules k; sc_unload := sc_unload k;
                sc_resolve := sc_resolve k |})
    end;
  sceKernelFindMemBlockByAddr := fun _ _ k => (1, k);
  sceKernelFreeMemBlock := fun _ k => (0, k);
  sceKernelGetModuleList := fun _ _ k => (0, map fst (sc_modules k), k);
  sceKernelGetModuleInfo := fun uid k =>
    (fst (module_answer (sc_modules k) uid),
     snd (module_answer (sc_modules k) uid), k);
  sceKernelStopUnloadModule := fun uid k => (sc_unload k uid, k);
  psvUnlockMem := fun k => k;
  psvLockMem := fun k => k;
  uvl_resolve_imports := fun imp k m => (sc_resolve k imp, k, m);
  memstr := fun m hay size needle len =>
    search m (bytes_of_string needle) (Z.to_nat (size - len + 1)) hay;
  indeterminate := 0
|}.

Definition zero_mem : Mem := fun _ => 0.

(** ** The worlds of the examples *)

Definition script (file : list Z) (close : Z) (bases : list Z)
  (modules : list (Z * (Z * loaded_module_info_t)))
  (unload resolve : Z -> Z) : Script :=
  {| sc_file := file; sc_close := close; sc_alloc := 1; sc_bases := bases;
     sc_modules := modules; sc_unload := unload; sc_resolve := resolve |}.

Definition world_of (m : Mem) (k : Script) : World Script := mkWorld m k [].

(** The return value and the trace of a run. *)
Definition observe {A} (r : option (A * World Script))
  : option (A * list Event) :=
  match r with
  | Some (a, w) => Some (a, trace w)
  | None => None
  end.

(** A file of four bytes that starts as an ELF does and goes on
    otherwise. *)
Definition partial_magic_file : list Z := [0x7F; 0; 0; 0].

(** A file with the magic of an ELF and the class of a 64-bit one. *)
Definition wrong_class_file : list Z := [0x7F; 0x45; 0x4C; 0x46; 2; 1; 1].

(** An ELF header at [data]. *)
Definition elf_header (m : Mem) (data phoff shoff phnum shnum shstrndx : Z)
  : Mem :=
  let m := write_bytes m data [0x7F; 0x45; 0x4C; 0x46; 1; 1; 1] in
  let m := set m data e_type 2 in
  let m := set m data e_machine 40 in
  let m := set m data e_version 1 in
  let m := set m data e_phoff phoff in
  let m := set m data e_shoff shoff in
  let m := set m data e_phnum phnum in
  let m := set m data e_shentsize 40 in
  let m := set m data e_shnum shnum in
  set m data e_shstrndx shstrndx.

(** The section headers at [data + 0x100]: the null section, the table of
    the section names at [data + 0x200], and the section of the module
    information at [data + 0x300]. *)
Definition section_headers (m : Mem) (data : Z) : Mem :=
  let m := set m (data + 0x100 + 40) sh_offset 0x200 in
  let m := set m (data + 0x100 + 40) sh_size 23 in
  let m := write_bytes m (data + 0x200)
             (0 :: bytes_of_string UVL_SEC_MODINFO ++ [0]) in
  let m := set m (data + 0x100 + 80) sh_name 1 in
  set m (data + 0x100 + 80) sh_offset 0x300.

(** An image at 0x1000 with a valid header and no program header. *)
Definition no_segment_image : Mem :=
  section_headers (elf_header zero_mem 0x1000 52 0x100 0 3 1) 0x1000.

Definition module_at (name : string) (base : Z) : loaded_module_info_t :=
  {| module_name := name;
     segments := [ {| vaddr := 0x80000000; memsz := 0x1000 |};
                   {| vaddr := base; memsz := 0x1000 |} ] |}.

(** Three loaded modules: one in the load window, one whose information
    cannot be fetched, one elsewhere. *)
Definition three_modules : list (Z * (Z * loaded_module_info_t)) :=
  [ (10, (0, module_at "occupant" 0x81000000));
    (11, (-1, module_at "unknown" 0x81000000));
    (12, (0, module_at "elsewhere" 0x82000000)) ].

(** A memory full of a byte that is not zero. *)
Definition junk_mem : Mem := fun _ => 0xAA.

(** The program header [i] of the table at [prog_hdrs]. *)
Definition program_header (m : Mem) (prog_hdrs i type offset vaddr filesz
  memsz flags : Z) : Mem :=
  let ph := prog_hdrs + i * 32 in
  let m := set m ph p_type type in
  let m := set m ph p_offset offset in
  let m := set m ph p_vaddr vaddr in
  let m := set m ph p_filesz filesz in
  let m := set m ph p_memsz memsz in
  set m ph p_flags flags.

(** An image of 0x400 bytes at 0x1000 with three program headers: a
    segment of four bytes in the file and eight in memory, an entry that
    is not loadable, and a segment of two bytes. *)
Definition two_segment_image : Mem :=
  let m := elf_header junk_mem 0x1000 52 0x100 3 3 1 in
  let m := program_header m 0x1034 0 1 0x380 0x81000000 4 8 5 in
  let m := program_header m 0x1034 1 0 0 0 0 0 0 in
  let m := program_header m 0x1034 2 1 0x384 0x81100000 2 2 6 in
  write_bytes m 0x1380 [0xDE; 0xAD; 0xBE; 0xEF; 0x11; 0x22].

Definition two_segment_world : World Script :=
  world_of two_segment_image
    (script [] 0 [0x81000000; 0x81100000] [] (fun _ => 0) (fun _ => 0)).

(** The world a run ends in. *)
Definition final_world {A} (r : option (A * World Script))
  (w : World Script) : World Script :=
  match r with
  | Some (_, w') => w'
  | None => w
  end.

(** An import descriptor at 0x2000 with two functions and one variable:
    the table of the functions at 0x3000, that of the variables at 0x4000,
    that of the thread-local variables, empty, at 0x5000. *)
Definition relocation_example : Mem :=
  let m := set zero_mem 0x2000 lib_name 0x9000 in
  let m := set m 0x2000 func_nid_table 0x9100 in
  let m := set m 0x2000 func_entry_table 0x3000 in
  let m := set m 0x2000 var_nid_table 0x9200 in
  let m := set m 0x2000 var_entry_table 0x4000 in
  let m := set m 0x2000 tls_nid_table 0x9300 in
  let m := set m 0x2000 tls_entry_table 0x5000 in
  let m := set m 0x2000 imports_num_functions 2 in
  let m := set m 0x2000 num_vars 1 in
  let m := store32 m 0x3000 0x81001000 in
  let m := store32 m 0x3004 0x81001010 in
  store32 m 0x4000 0x81002000.

(** The tables of a module resident at 0x81000000, whose first program
    header is at 0x1034 and whose module information is at 0x1300: three
    import descriptors from 0x81000100 on, and two export descriptors from
    0x81000200 on.  The first export descriptor has another tag than that
    of the module information, and holds the identifier of the entry
    point all the same; the second one has the tag and holds the
    identifier at the index 2.  A second module information, at 0x1340,
    ends the export table after the first descriptor. *)
Definition resident_tables : Mem :=
  let m := two_segment_image in
  let m := set m 0x1300 stub_top 0x100 in
  let m := set m 0x1300 stub_end 0x19C in
  let m := set m 0x1300 ent_top 0x200 in
  let m := set m 0x1300 ent_end 0x240 in
  let m := set m 0x1340 ent_top 0x200 in
  let m := set m 0x1340 ent_end 0x220 in
  let m := set m 0x81000100 lib_name 0xA0 in
  let m := set m 0x81000134 lib_name 0xA1 in
  let m := set m 0x81000168 lib_name 0xA2 in
  let m := set m 0x81000200 attribute 0x0001 in
  let m := set m 0x81000200 exports_num_functions 1 in
  let m := set m 0x81000200 nid_table 0x81000300 in
  let m := set m 0x81000200 entry_table 0x81000340 in
  let m := store32 m 0x81000300 0x935CD196 in
  let m := store32 m 0x81000340 0x0BAD0BAD in
  let m := set m 0x81000220 attribute 0x8000 in
  let m := set m 0x81000220 exports_num_functions 3 in
  let m := set m 0x81000220 nid_table 0x81000400 in
  let m := set m 0x81000220 entry_table 0x81000440 in
  let m := store32 m 0x81000400 0x11111111 in
  let m := store32 m 0x81000404 0x22222222 in
  let m := store32 m 0x81000408 0x935CD196 in
  let m := store32 m 0x81000440 0x81000010 in
  let m := store32 m 0x81000444 0x81000020 in
  store32 m 0x81000448 0x81000031.

(** A function that fails to load the module of the library named at
    0xA0, and a resolver that fails on the descriptor at 0x81000168. *)
Definition load_module_but_one (name : Z) (k : Script) (m : Mem)
  : Z * Script * Mem :=
  (if name =? 0xA0 then -1 else 0, k, m).

Definition resolve_but_one (imp : Z) : Z :=
  if imp =? 0x81000168 then -1 else 0.

Definition resident_world : World Script :=
  world_of resident_tables (script [] 0 [] [] (fun _ => 0) resolve_but_one).

(** A whole executable of 0x500 bytes: the header, one program header for
    a segment of 0x100 bytes in the file at 0x400 and 0x200 bytes in
    memory at 0x81000000, the section headers, the module information at
    0x300, and in the segment one import descriptor, one export
    descriptor with the tag of the module information, its table of NIDs
    and its table of entries. *)
Definition app_image : Mem :=
  let m := section_headers (elf_header zero_mem 0 52 0x100 1 3 1) 0 in
  let m := program_header m 52 0 1 0x400 0x81000000 0x100 0x200 5 in
  let m := set m 0x300 stub_top 0 in
  let m := set m 0x300 stub_end 0x34 in
  let m := set m 0x300 ent_top 0x40 in
  let m := set m 0x300 ent_end 0x60 in
  let m := set m 0x400 lib_name 0x810000A0 in
  let m := set m 0x440 attribute 0x8000 in
  let m := set m 0x440 exports_num_functions 1 in
  let m := set m 0x440 nid_table 0x81000080 in
  let m := set m 0x440 entry_table 0x81000090 in
  let m := store32 m 0x480 0x935CD196 in
  store32 m 0x490 0x81000101.

Definition app_file : list Z := map (load8 app_image) (zrange 0 0x500).

(** The kernel reads the file at 0x1000 and grants the block at
    0x81000000 to the segment. *)
Definition app_world : World Script :=
  world_of junk_mem
    (script app_file 0 [0x1000; 0x81000000] [] (fun _ => 0) (fun _ => 0)).

(** ** A platform that answers from a queue, for the examples

    The kernel state is the list of the return codes that the services
    are still to give, a service answering zero when the list is empty;
    [sceKernelGetMemBlockBase] takes the base from the list after a
    return code that is not negative, and leaves [*base] as it is
    otherwise. *)

Definition answer (k : list Z) : Z * list Z :=
  match k with
  | [] => (0, [])
  | rc :: k' => (rc, k')
  end.

#[local] Instance queued : Platform (list Z) := {|
  sceIoOpen := fun _ _ _ k => answer k;
  sceIoRead := fun _ _ _ k m => (fst (answer k), snd (answer k), m);
  sceIoClose := fun _ k => answer k;
  sceKernelAllocMemBlock := fun _ _ _ k => answer k;
  sceKernelAllocCodeMemBlock := fun _ _ k => answer k;
  sceKernelGetMemBlockBase := fun _ old k =>
    if fst (answer k) <? 0 then (fst (answer k), old, snd (answer k))
    else (fst (answer k), fst (answer (snd (answer k))),
          snd (answer (snd (answer k))));
  sceKernelFindMemBlockByAddr := fun _ _ k => answer k;
  sceKernelFreeMemBlock := fun _ k => answer k;
  sceKernelGetModuleList := fun _ _ k => (fst (answer k), [], snd (answer k));
  sceKernelGetModuleInfo := fun _ k =>
    (fst (answer k), empty_info, snd (answer k));
  sceKernelStopUnloadModule := fun _ k => answer k;
  psvUnlockMem := fun k => k;
  psvLockMem := fun k => k;
  uvl_resolve_imports := fun _ k m => (fst (answer k), snd (answer k), m);
  memstr := fun _ _ _ _ _ => NULL;
  indeterminate := 0
|}.



(** ** More worlds for the examples *)

(** The executable [app_image] in memory, at the address zero, and a
    kernel that grants the block at 0x81000000 to its segment. *)
Definition resident_app_world : World Script :=
  world_of app_image
    (script [] 0 [0x81000000] [] (fun _ => 0) (fun _ => 0)).

(** An image at 0x1000 with two program headers, none of them loadable:
    the first is not of the type [PT_LOAD] and the second has a null
    address. *)
Definition idle_image : Mem :=
  let m := elf_header junk_mem 0x1000 52 0x100 2 3 1 in
  let m := program_header m 0x1034 0 6 0x34 0x81000000 0x40 0x40 4 in
  program_header m 0x1034 1 1 0x380 0 4 8 5.

(** An image at 0x1000 whose header counts two sections only, so that the
    section of the module information is not among them. *)
Definition short_sections_image : Mem :=
  section_headers (elf_header zero_mem 0x1000 52 0x100 0 2 1) 0x1000.

(** An image at 0x1000 whose table of the section names starts with the
    name of the section of the module information. *)
Definition leading_name_image : Mem :=
  let m := elf_header zero_mem 0x1000 52 0x100 0 3 1 in
  let m := set m (0x1000 + 0x100 + 40) sh_offset 0x200 in
  let m := set m (0x1000 + 0x100 + 40) sh_size 22 in
  let m := write_bytes m (0x1000 + 0x200)
             (bytes_of_string UVL_SEC_MODINFO ++ [0]) in
  set m (0x1000 + 0x100 + 80) sh_offset 0x300.

(** A memory that is null below the address 16 and full of 0xFF from
    there on.  With the program headers at the address zero and the
    module information 24 bytes below it, the export table starts at zero
    and ends at 0xFFFFFFFF, and no descriptor of it has the tag of the
    module information. *)
Definition endless_exports : Mem := fun a => if a <? 16 then 0 else 0xFF.

(** * Properties *)

(** Reduction of the monad on a world. *)
Ltac red_world := cbv beta iota zeta; cbn [mem kern trace].

(** Membership of an event in a trace that is given. *)
Ltac in_cases :=
  repeat match goal with
         | Hin : In _ (_ :: _) |- _ => destruct Hin as [Hin | Hin]
         | Hin : In _ [] |- _ => destruct Hin
         | Heq : @eq Event _ _ |- _ =>
           first [ discriminate Heq | inversion Heq; subst; clear Heq ]
         end.

(** ** Machine arithmetic *)

Lemma u32_range x : 0 <= u32 x < 2 ^ 32.
Proof. unfold u32. apply Z.mod_pos_bound. lia. Qed.

Lemma u32_small x : 0 <= x < 2 ^ 32 -> u32 x = x.
Proof. intros. unfold u32. apply Z.mod_small. assumption. Qed.

Lemma u32_idem x : u32 (u32 x) = u32 x.
Proof. apply u32_small, u32_range. Qed.

(** ** The length given to the allocator *)

Lemma align_1mb_floor x :
  0 <= x -> align_1mb x = 2 ^ 20 * (u32 (x + 0xFFFFF) / 2 ^ 20).
Proof.
  intros Hx. unfold align_1mb.
  pose proof (u32_range (x + 0xFFFFF)) as Hr.
  set (y := u32 (x + 0xFFFFF)) in *.
  replace (u32 (Z.lnot 0xFFFFF)) with (Z.land (Z.lnot (Z.ones 20)) (Z.ones 32))
    by reflexivity.
  rewrite Z.land_assoc, (Z.land_comm y), <- (Z.land_assoc _ y).
  rewrite (Z.land_ones y 32), (Z.mod_small y) by lia.
  rewrite Z.land_comm.
  change (Z.land y (Z.lnot (Z.ones 20))) with (Z.ldiff y (Z.ones 20)).
  rewrite Z.ldiff_ones_r by lia.
  rewrite Z.shiftl_mul_pow2, Z.shiftr_div_pow2 by lia. lia.
Qed.

(** C8, as the code has it: for a memory size [m] of at most 0xFFF00000 the
    length given to the allocator is the smallest multiple of 2^20 that is
    at least [m]; for a larger 32-bit [m] the addition wraps and the length
    is zero. *)
Theorem align_1mb_round_up (m : Z) :
  (0 <= m <= 0xFFF00000 ->
   (2 ^ 20 | align_1mb m) /\ m <= align_1mb m /\
   (forall l, (2 ^ 20 | l) -> m <= l -> align_1mb m <= l)) /\
  (0xFFF00000 < m < 2 ^ 32 -> align_1mb m = 0).
Proof.
  split; intros Hm; rewrite align_1mb_floor by lia.
  - rewrite u32_small by lia.
    pose proof (Z.div_mod (m + 0xFFFFF) (2 ^ 20) ltac:(lia)) as E.
    pose proof (Z.mod_pos_bound (m + 0xFFFFF) (2 ^ 20) ltac:(lia)) as B.
    repeat split.
    + exists ((m + 0xFFFFF) / 2 ^ 20). lia.
    + lia.
    + intros l [q ->] Hl.
      assert ((m + 0xFFFFF) / 2 ^ 20 < q + 1); [| lia].
      apply Z.div_lt_upper_bound; lia.
  - unfold u32.
    replace (m + 0xFFFFF) with ((m + 0xFFFFF - 2 ^ 32) + 1 * 2 ^ 32) by lia.
    rewrite Z.mod_add by lia. rewrite Z.mod_small by lia.
    rewrite Z.div_small by lia. reflexivity.
Qed.

Lemma align_1mb_round_up_witness :
  ((2 ^ 20 | align_1mb 4096) /\ 4096 <= align_1mb 4096 /\
   (forall l, (2 ^ 20 | l) -> 4096 <= l -> align_1mb 4096 <= l)) /\
  align_1mb 0xFFF00001 = 0.
Proof.
  split.
  - apply (proj1 (align_1mb_round_up 4096)). lia.
  - apply (proj2 (align_1mb_round_up 0xFFF00001)). lia.
Defined.

(** C8, as stated, fails at [m = 0xFFF00001]: the length computed is
    zero, which is below [m]. *)
Lemma align_1mb_not_all_sizes :
  ~ (forall m, 0 <= m < 2 ^ 32 ->
       (2 ^ 20 | align_1mb m) /\ m <= align_1mb m /\
       (forall l, (2 ^ 20 | l) -> m <= l -> align_1mb m <= l)).
Proof.
  intros Hc. destruct (Hc 0xFFF00001 ltac:(lia)) as (_ & Hle & _).
  vm_compute in Hle. apply Hle. reflexivity.
Qed.

(** X19: The length given to the allocator is a multiple of 2^20 below 2^32
    for every size, those for which the addition wraps included; rounding
    it again changes nothing; and a 32-bit size is its own rounding
    exactly when it is a multiple of 2^20. *)
Theorem align_1mb_multiple (m : Z) :
  0 <= m ->
  (2 ^ 20 | align_1mb m) /\ 0 <= align_1mb m < 2 ^ 32 /\
  align_1mb (align_1mb m) = align_1mb m /\
  (m < 2 ^ 32 -> (align_1mb m = m <-> (2 ^ 20 | m))).
Proof.
  intros Hm. rewrite !align_1mb_floor by lia.
  pose proof (u32_range (m + 0xFFFFF)) as Hr.
  set (q := u32 (m + 0xFFFFF) / 2 ^ 20).
  assert (Hq : 0 <= q < 2 ^ 12).
  { unfold q. split; [apply Z.div_pos; lia |].
    apply Z.div_lt_upper_bound; lia. }
  split; [exists q; lia |]. split; [lia |]. split.
  - rewrite align_1mb_floor by lia. f_equal.
    rewrite u32_small by lia.
    replace (2 ^ 20 * q + 0xFFFFF) with (0xFFFFF + q * 2 ^ 20) by lia.
    rewrite Z.div_add by lia. rewrite Z.div_small by lia. lia.
  - intros Hlt. split.
    + intros E. exists q. lia.
    + intros [p ->]. unfold q.
      assert (Hp : 0 <= p < 2 ^ 12) by lia.
      rewrite u32_small by lia.
      replace (p * 2 ^ 20 + 0xFFFFF) with (0xFFFFF + p * 2 ^ 20) by lia.
      rewrite Z.div_add by lia. rewrite Z.div_small by lia. lia.
Qed.

(** ** The loader over any platform *)

Section Properties.

Context {K : Type} {H : LoadH} {P : Platform K}.

(** *** The header validator *)

Lemma uvl_elf_check_header_valid hdr (w : World K) :
  valid_header (mem w) hdr = true ->
  uvl_elf_check_header hdr w = Some (0, w).
Proof.
  unfold valid_header, header_checks, ident. cbn [forallb].
  rewrite !andb_true_r. intros Hv.
  repeat (apply andb_prop in Hv; destruct Hv as [? Hv]).
  unfold uvl_elf_check_header, bind, get_mem.
  repeat match goal with
         | E : ?b = true |- context [negb ?b] => rewrite E; cbn [negb]
         end.
  reflexivity.
Qed.

Lemma uvl_elf_check_header_invalid hdr (w : World K) :
  valid_header (mem w) hdr = false ->
  exists reason,
    uvl_elf_check_header hdr w = Some (-1, logged w [ELog reason]).
Proof.
  unfold valid_header, header_checks, ident. cbn [forallb].
  rewrite !andb_true_r. intros Hv.
  unfold uvl_elf_check_header, bind, get_mem, LOG, emit, ret, logged.
  repeat match goal with
         | |- context [if negb ?b then _ else _] =>
           destruct b eqn:?; cbn [negb];
           [ | eexists; reflexivity ]
         end.
  cbn in Hv. congruence.
Qed.

(** C5, as the code has it: on a header that fails one of the nine checks
    the ELF loader returns -1 after the validator has logged its reason and
    the loader [Check header failed.]; it calls no service before doing so,
    hence allocates nothing, and leaves the memory and the kernel as they
    were.  ([uvl_load_exe] has allocated the block of the image by then.) *)
Theorem uvl_load_elf_invalid_header fuel data (w : World K) :
  valid_header (mem w) data = false ->
  exists reason,
    uvl_load_elf fuel data w
    = Some ((-1, NULL), logged w [ELog reason; ELog "Check header failed."])
    /\ no_allocation [ELog reason; ELog "Check header failed."].
Proof.
  intros Hv. destruct (uvl_elf_check_header_invalid data w Hv) as [reason E].
  exists reason. split.
  - unfold uvl_load_elf, bind. rewrite E.
    change (-1 <? 0) with true. cbv iota.
    unfold LOG, emit, ret, logged. cbn [mem kern trace].
    rewrite <- app_assoc. reflexivity.
  - intros e [<- | [<- | []]]; reflexivity.
Qed.

(** *** The acquirer *)

(** C4, as the code has it: when opening, allocating, locating the block
    and reading succeed, the result of [uvl_load_file] is decided by
    [sceIoClose]: on its failure the function logs it and returns -1
    without storing the buffer in [*data] (the size read is in [*size]
    already); otherwise it returns zero with the buffer and the size. *)
Theorem uvl_load_file_close filename (w : World K)
  fd k1 blk k2 rcb base k3 size k4 m4 rcc k5 :
  sceIoOpen filename PSP2_O_RDONLY 0 (kern w) = (fd, k1) -> 0 <= fd ->
  sceKernelAllocMemBlock "UVLTemp" 0xC20D060 UVL_BIN_MAX_SIZE k1 = (blk, k2) ->
  0 <= blk ->
  sceKernelGetMemBlockBase blk indeterminate k2 = (rcb, base, k3) ->
  0 <= rcb ->
  sceIoRead fd base UVL_BIN_MAX_SIZE k3 (mem w) = (size, k4, m4) ->
  0 <= size ->
  sceIoClose fd k4 = (rcc, k5) ->
  exists tr,
    uvl_load_file filename w
    = Some (if rcc <? 0 then (-1, None, Some size)
            else (0, Some base, Some size),
            mkWorld m4 k5 (trace w ++ tr))
    /\ (rcc < 0 ->
        exists tr', tr = tr' ++ [EIoClose fd rcc; ELog "Failed to close file."]).
Proof.
  intros Eo Hfd Ea Hblk Eb Hrcb Er Hsize Ec.
  unfold uvl_load_file, bind, call, call_mem, get_mem_block_base, LOG, emit, ret.
  rewrite Eo. red_world.
  destruct (Z.ltb_spec fd 0); [lia |]. red_world.
  rewrite Ea. red_world.
  destruct (Z.ltb_spec blk 0); [lia |]. red_world.
  rewrite Eb. red_world.
  destruct (Z.ltb_spec rcb 0); [lia |]. red_world.
  rewrite Er. red_world.
  destruct (Z.ltb_spec size 0); [lia |]. red_world.
  destruct (size >=? UVL_BIN_MAX_SIZE); red_world;
    rewrite Ec; red_world;
    destruct (Z.ltb_spec rcc 0); red_world;
    rewrite <- ?app_assoc; cbn [app];
    eexists; (split; [reflexivity |]); intros; try lia.
  - eexists [_; _; _; _; _]. reflexivity.
  - eexists [_; _; _; _]. reflexivity.
Qed.

(** *** The dispatcher *)

(** An image whose first byte starts neither magic is refused. *)
Lemma uvl_load_exe_invalid_magic fuel filename (w w1 : World K) data size :
  uvl_load_file filename w = Some ((0, Some data, size), w1) ->
  load8 (mem w1) data <> ELFMAG0 ->
  load8 (mem w1) data <> SCEMAG0 ->
  uvl_load_exe fuel filename w
  = Some ((-1, NULL), logged w1 [ELog "Invalid magic."]).
Proof.
  intros E H0 H1. unfold uvl_load_exe, bind. rewrite E.
  change (0 <? 0) with false. cbv iota. unfold get_mem.
  rewrite Z.add_0_r.
  destruct (Z.eqb_spec (load8 (mem w1) data) ELFMAG0); [contradiction |].
  destruct (Z.eqb_spec (load8 (mem w1) data) SCEMAG0); [contradiction |].
  reflexivity.
Qed.

(** An image that starts as an ELF does and goes on otherwise is not given
    to the ELF loader: the data are freed and the result is that of
    [uvl_free_data], zero when it succeeds, with [*entry] null. *)
Lemma uvl_load_exe_partial_magic fuel filename (w w1 : World K) data size :
  uvl_load_file filename w = Some ((0, Some data, size), w1) ->
  load8 (mem w1) data = ELFMAG0 ->
  (load8 (mem w1) (data + 1) =? ELFMAG1)
  && (load8 (mem w1) (data + 2) =? ELFMAG2)
  && (load8 (mem w1) (data + 3) =? ELFMAG3) = false ->
  uvl_load_exe fuel filename w = free_and_return data NULL w1.
Proof.
  intros E H0 H1. unfold uvl_load_exe, bind. rewrite E.
  change (0 <? 0) with false. cbv iota. unfold get_mem.
  rewrite Z.add_0_r, H0, Z.eqb_refl, H1. reflexivity.
Qed.

(** *** The reclamation of the address space *)

(** The loop over the three segments calls the unloading once when the
    module occupies the window, and not at all otherwise. *)
Lemma free_segments_run uid info (w : World K) :
  free_segments 3 0 uid info w
  = if occupies info then
      let '(rcu, k) := sceKernelStopUnloadModule uid (kern w) in
      if rcu <? 0 then
        Some (Some (-1),
              mkWorld (mem w) k
                (trace w ++ [EStopUnloadModule uid rcu;
                             ELog "Error unloading %s."]))
      else
        Some (None, mkWorld (mem w) k (trace w ++ [EStopUnloadModule uid rcu]))
    else Some (None, w).
Proof.
  unfold occupies. cbn [existsb free_segments].
  change (Z.to_nat 0) with 0%nat.
  change (Z.to_nat (0 + 1)) with 1%nat.
  change (Z.to_nat (0 + 1 + 1)) with 2%nat.
  assert (Hcall : forall (w : World K),
    (rc <- call (sceKernelStopUnloadModule uid) (EStopUnloadModule uid) ;;
     if rc <? 0 then LOG "Error unloading %s." ;; ret (Some (-1))
     else ret None) w
    = let '(rcu, k) := sceKernelStopUnloadModule uid (kern w) in
      if rcu <? 0 then
        Some (Some (-1),
              mkWorld (mem w) k
                (trace w ++ [EStopUnloadModule uid rcu;
                             ELog "Error unloading %s."]))
      else
        Some (None, mkWorld (mem w) k (trace w ++ [EStopUnloadModule uid rcu]))).
  { intros w0. unfold bind, call, LOG, emit, ret.
    destruct (sceKernelStopUnloadModule uid (kern w0)) as [rcu k].
    destruct (rcu <? 0); red_world; rewrite <- ?app_assoc; reflexivity. }
  repeat match goal with
         | |- context [vaddr ?s =? ?c] =>
           destruct (vaddr s =? c); cbn [orb]; [apply Hcall |]
         end.
  reflexivity.
Qed.

(** The loop over the modules runs as the specification says. *)
Lemma free_modules_run mods :
  forall w : World K,
  exists rc w' tr,
    free_modules mods w = Some (rc, w') /\
    trace w' = trace w ++ tr /\ mem w' = mem w /\
    reclaim_run mods tr rc.
Proof.
  induction mods as [| uid mods IH]; intros w.
  - exists 0, w, []. rewrite app_nil_r. repeat split. constructor.
  - cbn [free_modules]. unfold bind at 1.
    destruct (sceKernelGetModuleInfo uid (kern w)) as [[rci info] k] eqn:Ei.
    red_world.
    destruct (Z.ltb_spec rci 0) as [Hrci | Hrci].
    + unfold bind, LOG, emit. red_world.
      match goal with |- context [free_modules mods ?w1] =>
        destruct (IH w1) as (rc & w' & tr & E & Ht & Hm & Hr) end.
      exists rc, w', (EGetModuleInfo uid rci info
                      :: ELog "Error getting info for mod 0x%08X, continuing"
                      :: tr).
      rewrite E. cbn [trace mem] in Ht, Hm.
      rewrite Ht, <- !app_assoc. repeat split; try assumption.
      now constructor.
    + unfold bind. rewrite free_segments_run. red_world.
      destruct (occupies info) eqn:Eocc.
      * destruct (sceKernelStopUnloadModule uid k) as [rcu k'].
        destruct (Z.ltb_spec rcu 0) as [Hrcu | Hrcu].
        -- unfold ret. eexists _, _, _. split; [reflexivity |].
           cbn [trace mem]. rewrite <- app_assoc. repeat split.
           now apply reclaim_failed.
        -- match goal with |- context [free_modules mods ?w1] =>
             destruct (IH w1) as (rc & w' & tr & E & Ht & Hm & Hr) end.
           exists rc, w', (EGetModuleInfo uid rci info
                           :: EStopUnloadModule uid rcu :: tr).
           rewrite E. cbn [trace mem] in Ht, Hm.
           rewrite Ht, <- !app_assoc. repeat split; try assumption.
           now apply reclaim_unloaded.
      * match goal with |- context [free_modules mods ?w1] =>
          destruct (IH w1) as (rc & w' & tr & E & Ht & Hm & Hr) end.
        exists rc, w', (EGetModuleInfo uid rci info :: tr).
        rewrite E. cbn [trace mem] in Ht, Hm.
        rewrite Ht, <- !app_assoc. repeat split; try assumption.
        now apply reclaim_left.
Qed.

(** What a run of the reclamation tells. *)
Lemma reclaim_run_unloaded mods tr rc :
  reclaim_run mods tr rc ->
  forall uid,
    (exists rcu, In (EStopUnloadModule uid rcu) tr) <->
    (exists rci info,
        In (EGetModuleInfo uid rci info) tr /\ 0 <= rci
        /\ occupies info = true).
Proof.
  induction 1 as [| u mods rci info tr rc Hrci Hr IH
                  | u mods rci info tr rc Hrci Hocc Hr IH
                  | u mods rci info rcu tr rc Hrci Hocc Hrcu Hr IH
                  | u mods rci info rcu Hrci Hocc Hrcu ]; intros uid;
    (split; [ intros [r Hin] | intros (a & b & Hin & Ha & Hb) ]);
    in_cases; try lia; try congruence;
    try (destruct (proj1 (IH uid)) as (a & b & Hi & Ha & Hb); [now eauto |];
         exists a, b; cbn [In]; now auto);
    try (destruct (proj2 (IH uid)) as [r Hu]; [now eauto |];
         exists r; cbn [In]; now auto);
    try (eexists _, _; cbn [In]; now eauto);
    try (eexists; cbn [In]; now eauto).
Qed.

Lemma reclaim_run_complete mods tr rc :
  reclaim_run mods tr rc ->
  (forall uid rcu, In (EStopUnloadModule uid rcu) tr -> 0 <= rcu) ->
  rc = 0 /\
  forall uid, In uid mods -> exists rci info, In (EGetModuleInfo uid rci info) tr.
Proof.
  induction 1 as [| u mods rci info tr rc Hrci Hr IH
                  | u mods rci info tr rc Hrci Hocc Hr IH
                  | u mods rci info rcu tr rc Hrci Hocc Hrcu Hr IH
                  | u mods rci info rcu Hrci Hocc Hrcu ]; intros Hall.
  - split; [reflexivity | intros ? []].
  - destruct IH as [-> IH].
    { intros uid rcu Hin. apply (Hall uid rcu). right. right. exact Hin. }
    split; [reflexivity |]. intros uid [<- | Hin].
    + exists rci, info. left. reflexivity.
    + destruct (IH uid Hin) as (a & b & Hi). exists a, b. right. right. exact Hi.
  - destruct IH as [-> IH].
    { intros uid rcu Hin. apply (Hall uid rcu). right. exact Hin. }
    split; [reflexivity |]. intros uid [<- | Hin].
    + exists rci, info. left. reflexivity.
    + destruct (IH uid Hin) as (a & b & Hi). exists a, b. right. exact Hi.
  - destruct IH as [-> IH].
    { intros uid r Hin. apply (Hall uid r). right. right. exact Hin. }
    split; [reflexivity |]. intros uid [<- | Hin].
    + exists rci, info. left. reflexivity.
    + destruct (IH uid Hin) as (a & b & Hi). exists a, b. right. right. exact Hi.
  - assert (0 <= rcu) by (apply (Hall u); cbn [In]; auto). lia.
Qed.

Lemma reclaim_run_aborts mods tr rc :
  reclaim_run mods tr rc ->
  forall uid rcu, In (EStopUnloadModule uid rcu) tr -> rcu < 0 ->
  rc = -1 /\
  exists tr0, tr = tr0 ++ [EStopUnloadModule uid rcu; ELog "Error unloading %s."].
Proof.
  induction 1 as [| u mods rci info tr rc Hrci Hr IH
                  | u mods rci info tr rc Hrci Hocc Hr IH
                  | u mods rci info rcu tr rc Hrci Hocc Hrcu Hr IH
                  | u mods rci info rcu Hrci Hocc Hrcu ]; intros uid r Hin Hneg.
  - destruct Hin.
  - destruct Hin as [Hin | [Hin | Hin]]; try discriminate.
    destruct (IH uid r Hin Hneg) as (-> & tr0 & ->).
    split; [reflexivity |]. eexists (_ :: _ :: tr0). reflexivity.
  - destruct Hin as [Hin | Hin]; try discriminate.
    destruct (IH uid r Hin Hneg) as (-> & tr0 & ->).
    split; [reflexivity |]. eexists (_ :: tr0). reflexivity.
  - destruct Hin as [Hin | [Hin | Hin]]; try discriminate.
    + injection Hin as <- <-. lia.
    + destruct (IH uid r Hin Hneg) as (-> & tr0 & ->).
      split; [reflexivity |]. eexists (_ :: _ :: tr0). reflexivity.
  - destruct Hin as [Hin | [Hin | [Hin | []]]]; try discriminate.
    injection Hin as <- <-. split; [reflexivity |].
    eexists [_]. reflexivity.
Qed.

Lemma uvl_elf_free_memory_run prog_hdrs count (w : World K) :
  exists rc w' rcl mods tr,
    uvl_elf_free_memory prog_hdrs count w = Some (rc, w') /\
    trace w' = trace w ++ EGetModuleList rcl mods :: tr /\
    mem w' = mem w /\
    (rcl < 0 -> rc = -1 /\ tr = [ELog "Failed to get module list."]) /\
    (0 <= rcl -> reclaim_run mods tr rc).
Proof.
  unfold uvl_elf_free_memory, bind, get_mem.
  destruct (sceKernelGetModuleList 0xFF MAX_LOADED_MODS (kern w))
    as [[rcl mods] k].
  red_world.
  destruct (Z.ltb_spec rcl 0) as [Hrcl | Hrcl].
  - unfold LOG, emit, ret. red_world.
    eexists _, _, rcl, mods, _. split; [reflexivity |].
    cbn [trace mem]. rewrite <- app_assoc.
    repeat split; intros; lia.
  - match goal with |- context [free_modules mods ?w1] =>
      destruct (free_modules_run mods w1) as (rc & w' & tr & E & Ht & Hm & Hr)
    end.
    exists rc, w', rcl, mods, tr. rewrite E. cbn [trace mem] in Ht, Hm.
    rewrite Ht, <- app_assoc. repeat split; intros; try lia; assumption.
Qed.

(** The loop over the modules is a reclamation on the kernel: every
    answer in its trace is the answer of the service, in the state that
    the calls before have left. *)
Lemma free_modules_reclaims mods :
  forall w : World K,
  exists rc k' tr,
    free_modules mods w = Some (rc, mkWorld (mem w) k' (trace w ++ tr)) /\
    reclaims (kern w) mods tr rc k'.
Proof.
  induction mods as [| uid mods IH]; intros w.
  - exists 0, (kern w), []. rewrite app_nil_r. destruct w.
    split; [reflexivity | constructor].
  - cbn [free_modules]. unfold bind at 1.
    destruct (sceKernelGetModuleInfo uid (kern w)) as [[rci info] k] eqn:Ei.
    red_world.
    destruct (Z.ltb_spec rci 0) as [Hrci | Hrci].
    + unfold bind, LOG, emit. red_world.
      match goal with |- context [free_modules mods ?w1] =>
        destruct (IH w1) as (rc & k' & tr & E & Hr) end.
      cbn [mem kern trace] in E, Hr. rewrite E.
      exists rc, k', (EGetModuleInfo uid rci info
                      :: ELog "Error getting info for mod 0x%08X, continuing"
                      :: tr).
      rewrite <- !app_assoc. split; [reflexivity |].
      now apply (reclaims_skipped _ _ _ _ _ k).
    + unfold bind. rewrite free_segments_run. red_world.
      destruct (occupies info) eqn:Eocc.
      * destruct (sceKernelStopUnloadModule uid k) as [rcu k2] eqn:Eu.
        destruct (Z.ltb_spec rcu 0) as [Hrcu | Hrcu].
        -- unfold ret. eexists _, _, _. rewrite <- app_assoc.
           split; [reflexivity |].
           now apply (reclaims_failed _ _ _ _ _ k).
        -- match goal with |- context [free_modules mods ?w1] =>
             destruct (IH w1) as (rc & k' & tr & E & Hr) end.
           cbn [mem kern trace] in E, Hr. rewrite E.
           exists rc, k', (EGetModuleInfo uid rci info
                           :: EStopUnloadModule uid rcu :: tr).
           rewrite <- !app_assoc. split; [reflexivity |].
           now apply (reclaims_unloaded _ _ _ _ _ k _ k2).
      * match goal with |- context [free_modules mods ?w1] =>
          destruct (IH w1) as (rc & k' & tr & E & Hr) end.
        cbn [mem kern trace] in E, Hr. rewrite E.
        exists rc, k', (EGetModuleInfo uid rci info :: tr).
        rewrite <- !app_assoc. split; [reflexivity |].
        now apply (reclaims_left _ _ _ _ _ k).
Qed.

(** A reclamation on the kernel is a run of the reclamation. *)
Lemma reclaims_reclaim_run (k k' : K) mods tr rc :
  reclaims k mods tr rc k' -> reclaim_run mods tr rc.
Proof. induction 1; now constructor. Qed.

(** In a reclamation that returns zero every module listed has been
    asked for, and every module that the kernel has shown in the load
    window has been given to [sceKernelStopUnloadModule], which has
    succeeded. *)
Lemma reclaims_visits (k k' : K) mods tr rc :
  reclaims k mods tr rc k' -> rc = 0 ->
  forall uid, In uid mods ->
    exists ka rci info kb,
      sceKernelGetModuleInfo uid ka = (rci, info, kb) /\
      In (EGetModuleInfo uid rci info) tr /\
      (0 <= rci -> occupies info = true ->
       exists rcu kc,
         sceKernelStopUnloadModule uid kb = (rcu, kc) /\ 0 <= rcu /\
         In (EStopUnloadModule uid rcu) tr).
Proof.
  induction 1 as [ k
                 | k u mods rci info k1 tr rc k' Ei Hrci Hr IH
                 | k u mods rci info k1 tr rc k' Ei Hrci Hocc Hr IH
                 | k u mods rci info k1 rcu k2 tr rc k' Ei Hrci Hocc Eu Hrcu Hr IH
                 | k u mods rci info k1 rcu k2 Ei Hrci Hocc Eu Hrcu ];
    intros Hrc uid Hin; try lia.
  - destruct Hin.
  - destruct Hin as [<- | Hin].
    + exists k, rci, info, k1. split; [exact Ei |].
      split; [left; reflexivity | intros; lia].
    + destruct (IH Hrc uid Hin) as (ka & a & b & kb & Ea & Hi & Hu).
      exists ka, a, b, kb. split; [exact Ea |].
      split; [right; right; exact Hi |]. intros Ha Hb.
      destruct (Hu Ha Hb) as (r & kc & Er & Hr0 & Hi').
      exists r, kc. auto 10 using in_cons.
  - destruct Hin as [<- | Hin].
    + exists k, rci, info, k1. split; [exact Ei |].
      split; [left; reflexivity | intros; congruence].
    + destruct (IH Hrc uid Hin) as (ka & a & b & kb & Ea & Hi & Hu).
      exists ka, a, b, kb. split; [exact Ea |].
      split; [right; exact Hi |]. intros Ha Hb.
      destruct (Hu Ha Hb) as (r & kc & Er & Hr0 & Hi').
      exists r, kc. auto 10 using in_cons.
  - destruct Hin as [<- | Hin].
    + exists k, rci, info, k1. split; [exact Ei |].
      split; [left; reflexivity |]. intros _ _.
      exists rcu, k2. split; [exact Eu |].
      split; [exact Hrcu | right; left; reflexivity].
    + destruct (IH Hrc uid Hin) as (ka & a & b & kb & Ea & Hi & Hu).
      exists ka, a, b, kb. split; [exact Ea |].
      split; [right; right; exact Hi |]. intros Ha Hb.
      destruct (Hu Ha Hb) as (r & kc & Er & Hr0 & Hi').
      exists r, kc. auto 10 using in_cons.
Qed.

(** The reclaimer on the kernel: the list of the modules is the one that
    [sceKernelGetModuleList] answers, and the modules are reclaimed from
    the state that this call has left. *)
Lemma uvl_elf_free_memory_kernel prog_hdrs count (w : World K) :
  exists rc rcl mods k1 k' tr,
    sceKernelGetModuleList 0xFF MAX_LOADED_MODS (kern w) = (rcl, mods, k1) /\
    uvl_elf_free_memory prog_hdrs count w
    = Some (rc, mkWorld (mem w) k'
                  (trace w ++ EGetModuleList rcl mods :: tr)) /\
    (rcl < 0 ->
     rc = -1 /\ k' = k1 /\ tr = [ELog "Failed to get module list."]) /\
    (0 <= rcl -> reclaims k1 mods tr rc k').
Proof.
  unfold uvl_elf_free_memory, bind, get_mem.
  destruct (sceKernelGetModuleList 0xFF MAX_LOADED_MODS (kern w))
    as [[rcl mods] k1].
  red_world.
  destruct (Z.ltb_spec rcl 0) as [Hrcl | Hrcl].
  - unfold LOG, emit, ret. red_world.
    exists (-1), rcl, mods, k1, k1, [ELog "Failed to get module list."].
    rewrite <- app_assoc. repeat split; intros; lia.
  - match goal with |- context [free_modules mods ?w1] =>
      destruct (free_modules_reclaims mods w1) as (rc & k' & tr & E & Hr)
    end.
    cbn [mem kern trace] in E, Hr. rewrite E.
    exists rc, rcl, mods, k1, k', tr. rewrite <- app_assoc.
    repeat split; intros; try lia; assumption.
Qed.

(** C7: the reclamation asks the kernel for the list of the modules and,
    when it gets it, is a reclamation on the kernel of the modules
    listed, whose answers are those of the services and whose last state
    is the state the kernel is left in.  So a module is given to
    [sceKernelStopUnloadModule] if and only if [sceKernelGetModuleInfo]
    has answered for it, without a failure, an information that shows
    one of its three segments at the reserved address; a module whose
    information cannot be fetched is skipped, the modules after it being
    visited all the same; and a failure of the unloading ends the
    reclamation with -1, which [uvl_load_elf] turns into the failure of
    the load. *)
Theorem uvl_elf_free_memory_reclaims prog_hdrs count (w : World K) :
  exists rc rcl mods k1 k' tr,
    sceKernelGetModuleList 0xFF MAX_LOADED_MODS (kern w) = (rcl, mods, k1) /\
    uvl_elf_free_memory prog_hdrs count w
    = Some (rc, mkWorld (mem w) k'
                  (trace w ++ EGetModuleList rcl mods :: tr)) /\
    (rcl < 0 ->
     rc = -1 /\ k' = k1 /\ tr = [ELog "Failed to get module list."]) /\
    (0 <= rcl -> reclaims k1 mods tr rc k') /\
    (forall uid,
        (exists rcu, In (EStopUnloadModule uid rcu) tr) <->
        (exists rci info,
            In (EGetModuleInfo uid rci info) tr /\ 0 <= rci
            /\ occupies info = true)) /\
    (0 <= rcl ->
     (forall uid rcu, In (EStopUnloadModule uid rcu) tr -> 0 <= rcu) ->
     rc = 0 /\
     forall uid, In uid mods ->
       exists ka rci info kb,
         sceKernelGetModuleInfo uid ka = (rci, info, kb) /\
         In (EGetModuleInfo uid rci info) tr /\
         (0 <= rci -> occupies info = true ->
          exists rcu kc,
            sceKernelStopUnloadModule uid kb = (rcu, kc) /\ 0 <= rcu /\
            In (EStopUnloadModule uid rcu) tr)) /\
    (forall uid rcu,
        In (EStopUnloadModule uid rcu) tr -> rcu < 0 ->
        rc = -1 /\
        exists tr0,
          tr = tr0 ++ [EStopUnloadModule uid rcu; ELog "Error unloading %s."]).
Proof.
  destruct (uvl_elf_free_memory_kernel prog_hdrs count w)
    as (rc & rcl & mods & k1 & k' & tr & Ek & E & Hneg & Hpos).
  exists rc, rcl, mods, k1, k', tr.
  split; [exact Ek |]. split; [exact E |]. split; [exact Hneg |].
  split; [exact Hpos |].
  destruct (Z.ltb_spec rcl 0) as [Hrcl | Hrcl].
  - destruct (Hneg Hrcl) as (-> & _ & ->). split; [| split].
    + intros uid. split; [intros [r Hin] | intros (a & b & Hin & _)]; in_cases.
    + lia.
    + intros uid rcu Hin. in_cases.
  - specialize (Hpos Hrcl).
    pose proof (reclaims_reclaim_run _ _ _ _ _ Hpos) as Hrun.
    split; [| split].
    + exact (reclaim_run_unloaded _ _ _ Hrun).
    + intros _ Hall.
      destruct (reclaim_run_complete _ _ _ Hrun Hall) as [Hrc _].
      split; [exact Hrc |]. exact (reclaims_visits _ _ _ _ _ Hpos Hrc).
    + exact (reclaim_run_aborts _ _ _ Hrun).
Qed.

(** *** The order of the reclamation and of the test on the count *)

Lemma uvl_elf_get_module_info_mem data hdr (w w' : World K) r :
  uvl_elf_get_module_info data hdr w = Some (r, w') ->
  mem w' = mem w /\ kern w' = kern w /\
  (r <> None -> w' = w).
Proof.
  unfold uvl_elf_get_module_info, bind, get_mem, LOG, emit, ret.
  destruct (_ <=? 0); intros E; injection E as <- <-; cbn; repeat split.
  intros Hn. congruence.
Qed.


(** *** The resolution of the imports *)





Lemma zrange_forallb (f : Z -> bool) (k : nat) :
  forall i, forallb f (zrange i k) = true ->
            forall j, i <= j < i + Z.of_nat k -> f j = true.
Proof.
  induction k as [| k IH]; intros i Hall j Hj; [lia |].
  cbn [zrange forallb] in Hall. apply andb_prop in Hall as [Hi Hrest].
  destruct (Z.eq_dec j i) as [-> | Hne]; [exact Hi |].
  apply (IH (i + 1) Hrest). lia.
Qed.



(** The failure of the resolution is the failure of the load. *)
Lemma uvl_load_elf_resolution_failure fuel data mod_info rc0 rc
  (w w1 w2 w3 : World K) :
  valid_header (mem w) data = true ->
  uvl_elf_get_module_info data data w = Some (Some mod_info, w) ->
  uvl_elf_free_memory (u32 (data + get (mem w) data e_phoff))
    (get (mem w) data e_phnum) w = Some (rc0, w1) ->
  0 <= rc0 ->
  load_program_sections fuel data data
    (u32 (data + get (mem w) data e_phoff)) w1 = Some (None, w2) ->
  resolve_nids fuel uvl_load_module_for_lib
    (u32 (data + get (mem w) data e_phoff)) mod_info w2 = Some (Some rc, w3) ->
  uvl_load_elf fuel data w = Some ((rc, NULL), w3).
Proof.
  intros Hv Hi Hfree Hrc0 Hseg Hres.
  unfold uvl_load_elf, bind at 1. rewrite (uvl_elf_check_header_valid _ _ Hv).
  change (0 <? 0) with false. cbv iota.
  unfold bind at 1, get_mem at 1. unfold bind at 1. rewrite Hi.
  unfold bind at 1, get_mem at 1. unfold bind at 1. rewrite Hfree.
  destruct (Z.ltb_spec rc0 0); [lia |].
  unfold bind at 1. rewrite Hseg. unfold bind at 1. rewrite Hres.
  reflexivity.
Qed.

(** *** The entry point *)

Lemma scan_nids_none (m : Mem) exp (n : nat) :
  forall j0,
    (forall j, j0 <= j < j0 + Z.of_nat n -> nid_at m exp j <> ENTRY_NID) ->
    scan_nids m exp n j0 = None.
Proof.
  induction n as [| n IH]; intros j0 Hno; [reflexivity |].
  cbn [scan_nids]. fold (nid_at m exp j0).
  destruct (Z.eqb_spec (nid_at m exp j0) ENTRY_NID) as [He | _].
  - exfalso. apply (Hno j0); [lia | exact He].
  - apply IH. intros j Hj. apply Hno. lia.
Qed.

Lemma scan_nids_found (m : Mem) exp (n : nat) :
  forall j0 j,
    j0 <= j < j0 + Z.of_nat n ->
    nid_at m exp j = ENTRY_NID ->
    (forall j', j0 <= j' < j -> nid_at m exp j' <> ENTRY_NID) ->
    scan_nids m exp n j0 = Some (entry_at m exp j).
Proof.
  induction n as [| n IH]; intros j0 j Hj He Hfirst; [lia |].
  cbn [scan_nids]. fold (nid_at m exp j0) (entry_at m exp j0).
  destruct (Z.eqb_spec (nid_at m exp j0) ENTRY_NID) as [He0 | Hne0].
  - destruct (Z.eq_dec j j0) as [-> | Hne]; [reflexivity |].
    exfalso. apply (Hfirst j0); [lia | exact He0].
  - destruct (Z.eq_dec j j0) as [-> | Hne]; [contradiction |].
    apply IH; [lia | exact He |]. intros j' Hj'. apply Hfirst. lia.
Qed.

(** A descriptor that does not hold the entry is passed over. *)
Lemma scan_nids_passed (m : Mem) exp :
  ~ holds_entry m exp ->
  get m exp attribute <> ATTR_MOD_INFO \/
  scan_nids m exp (Z.to_nat (get m exp exports_num_functions)) 0 = None.
Proof.
  intros Hno.
  destruct (Z.eq_dec (get m exp attribute) ATTR_MOD_INFO) as [Ha | Ha];
    [right | left; exact Ha].
  apply scan_nids_none. intros j Hj He. apply Hno. split; [exact Ha |].
  exists j. split; [lia | exact He].
Qed.

Lemma find_entry_passes (m : Mem) export end_ (k : nat) :
  forall (i : Z) fuel,
    0 <= i -> i + Z.of_nat k < 2 ^ 32 ->
    (forall i', i <= i' < i + Z.of_nat k ->
                export_at export i' < end_
                /\ ~ holds_entry m (export_at export i')) ->
    (k <= fuel)%nat ->
    find_entry fuel m export end_ i
    = find_entry (fuel - k) m export end_ (i + Z.of_nat k).
Proof.
  induction k as [| k IH]; intros i fuel Hi Hk Hpass Hf.
  - rewrite Z.add_0_r, Nat.sub_0_r. reflexivity.
  - destruct fuel as [| fuel]; [lia |]. cbn [find_entry].
    fold (export_at export i).
    destruct (Hpass i ltac:(lia)) as [Hlt Hno].
    destruct (Z.ltb_spec (export_at export i) end_); [| lia]. cbn [negb].
    assert (Hnext : u32 (i + 1) = i + 1) by (apply u32_small; lia).
    assert (Hrest : find_entry fuel m export end_ (u32 (i + 1))
                    = find_entry (S fuel - S k) m export end_
                        (i + Z.of_nat (S k))).
    { rewrite Hnext. replace (i + Z.of_nat (S k)) with (i + 1 + Z.of_nat k) by lia.
      apply IH; try lia. intros i' Hi'. apply Hpass. lia. }
    destruct (scan_nids_passed m _ Hno) as [Ha | Hs].
    + destruct (Z.eqb_spec (get m (export_at export i) attribute) ATTR_MOD_INFO);
        [contradiction |]. cbn [negb]. exact Hrest.
    + rewrite Hs.
      destruct (get m (export_at export i) attribute =? ATTR_MOD_INFO);
        cbn [negb]; exact Hrest.
Qed.


(** *** Memory *)

Lemma u32_add_l a b : u32 (u32 a + b) = u32 (a + b).
Proof. unfold u32. apply Z.add_mod_idemp_l. lia. Qed.

Lemma u32_add_r a b : u32 (a + u32 b) = u32 (a + b).
Proof. unfold u32. apply Z.add_mod_idemp_r. lia. Qed.

Lemma u32_sub_l a b : u32 (u32 a - b) = u32 (a - b).
Proof. unfold u32. apply Zminus_mod_idemp_l. Qed.

Lemma u32_neg y : - 2 ^ 32 <= y < 0 -> u32 y = y + 2 ^ 32.
Proof.
  intros Hy. unfold u32.
  replace y with ((y + 2 ^ 32) + (-1) * 2 ^ 32) at 1 by lia.
  rewrite Z.mod_add by lia. apply Z.mod_small. lia.
Qed.

Lemma load8_u32 (m : Mem) a : load8 m (u32 a) = load8 m a.
Proof. unfold load8. now rewrite u32_idem. Qed.

Lemma load8_range (m : Mem) a : 0 <= load8 m a < 256.
Proof. unfold load8. apply Z.mod_pos_bound. lia. Qed.

Lemma load_le_range n (m : Mem) :
  forall a, 0 <= load_le n m a < 256 ^ Z.of_nat n.
Proof.
  induction n as [| n IH]; intros a.
  - cbn. lia.
  - cbn [load_le]. rewrite Nat2Z.inj_succ, Z.pow_succ_r by lia.
    pose proof (load8_range m a). specialize (IH (a + 1)). nia.
Qed.

Lemma load_le_agree n (m m' : Mem) :
  forall a,
    (forall x, 0 <= x < Z.of_nat n -> m (u32 (a + x)) = m' (u32 (a + x))) ->
    load_le n m a = load_le n m' a.
Proof.
  induction n as [| n IH]; intros a Hag; [reflexivity |].
  cbn [load_le]. f_equal.
  - unfold load8. specialize (Hag 0 ltac:(lia)). rewrite Z.add_0_r in Hag.
    now rewrite Hag.
  - f_equal. apply IH. intros x Hx.
    specialize (Hag (1 + x) ltac:(lia)). now rewrite Z.add_assoc in Hag.
Qed.

(** A member that lies in a range where two memories agree reads the
    same in both. *)
Lemma get_agree (m m' : Mem) base f lo size :
  field_within base f lo size = true ->
  0 <= lo -> lo + size <= 2 ^ 32 ->
  (forall a, lo <= a < lo + size -> m a = m' a) ->
  get m base f = get m' base f.
Proof.
  unfold field_within, within. intros Hw Hlo Hhi Hag.
  apply andb_prop in Hw as [H1 H2].
  apply Z.leb_le in H1, H2.
  unfold get. apply load_le_agree. intros x Hx.
  rewrite u32_small by lia. apply Hag. lia.
Qed.

Lemma memcpy_out (m : Mem) dst src n a :
  0 <= dst -> dst + n <= 2 ^ 32 -> 0 <= a < 2 ^ 32 ->
  a < dst \/ dst + n <= a ->
  memcpy m dst src n a = m a.
Proof.
  intros Hd Hn Ha Hout. unfold memcpy.
  destruct (Z.ltb_spec (u32 (a - dst)) n) as [Hlt | _]; [| reflexivity].
  exfalso. pose proof (u32_range (a - dst)) as Hr.
  assert (0 < n) by lia. destruct Hout as [Hout | Hout].
  - rewrite u32_neg in Hlt; lia.
  - rewrite u32_small in Hlt; lia.
Qed.

Lemma memset_out (m : Mem) dst c n a :
  0 <= dst -> dst + n <= 2 ^ 32 -> 0 <= a < 2 ^ 32 ->
  a < dst \/ dst + n <= a ->
  memset m dst c n a = m a.
Proof.
  intros Hd Hn Ha Hout. unfold memset.
  destruct (Z.ltb_spec (u32 (a - dst)) n) as [Hlt | _]; [| reflexivity].
  exfalso. pose proof (u32_range (a - dst)) as Hr.
  assert (0 < n) by lia. destruct Hout as [Hout | Hout].
  - rewrite u32_neg in Hlt; lia.
  - rewrite u32_small in Hlt; lia.
Qed.

Lemma u32_offset dst x : 0 <= x < 2 ^ 32 -> u32 (u32 (dst + x) - dst) = x.
Proof.
  intros Hx. rewrite u32_sub_l.
  replace (dst + x - dst) with x by lia. now apply u32_small.
Qed.

Lemma load8_memcpy_in (m : Mem) dst src n x :
  0 <= x < n -> n <= 2 ^ 32 ->
  load8 (memcpy m dst src n) (dst + x) = load8 m (src + x).
Proof.
  intros Hx Hn. unfold load8 at 1, memcpy.
  rewrite u32_offset by lia.
  destruct (Z.ltb_spec x n); [| lia]. reflexivity.
Qed.

Lemma load8_memset_in (m : Mem) dst c n x :
  0 <= x < n -> n <= 2 ^ 32 ->
  load8 (memset m dst c n) (dst + x) = c mod 256.
Proof.
  intros Hx Hn. unfold load8, memset.
  rewrite u32_offset by lia.
  destruct (Z.ltb_spec x n); [| lia]. apply Z.mod_mod. lia.
Qed.

Lemma load8_agree (m m' : Mem) a :
  m (u32 a) = m' (u32 a) -> load8 m a = load8 m' a.
Proof. unfold load8. now intros ->. Qed.

(** *** The loop over the program headers, turn by turn *)

Lemma load_segments_end fuel data hdr ph i b (w : World K) :
  get (mem w) hdr e_phnum <= i ->
  load_segments (S fuel) data hdr ph i b w = Some (inr b, w).
Proof.
  intros Hi. cbn [load_segments]. unfold bind, get_mem.
  destruct (Z.ltb_spec i (get (mem w) hdr e_phnum)); [lia |]. reflexivity.
Qed.

Lemma load_segments_skip fuel data hdr ph i b (w : World K) :
  i < get (mem w) hdr e_phnum ->
  is_loadable (mem w) (phdr_at ph i) = false ->
  load_segments (S fuel) data hdr ph i b w
  = load_segments fuel data hdr ph (i + 1) b w.
Proof.
  intros Hi Hl. cbn [load_segments]. unfold bind at 1, get_mem at 1.
  destruct (Z.ltb_spec i (get (mem w) hdr e_phnum)); [| lia]. cbn [negb].
  unfold is_loadable, phdr_at in Hl.
  destruct (get (mem w) (ph + i * sizeof_Elf32_Phdr_t) p_type =? PT_LOAD);
    cbn [negb orb andb] in *; [| reflexivity].
  destruct (get (mem w) (ph + i * sizeof_Elf32_Phdr_t) p_vaddr =? 0);
    cbn [negb] in *; [reflexivity | discriminate].
Qed.

Lemma alloc_run (code : bool) length (w : World K) :
  exists blk k1 e,
    is_allocation e = true /\
    (if code
     then call (sceKernelAllocCodeMemBlock "UVLHomebrew" length)
               (EAllocCodeMemBlock "UVLHomebrew" length)
     else call (sceKernelAllocMemBlock "UVLHomebrew" 0xC20D060 length)
               (EAllocMemBlock "UVLHomebrew" 0xC20D060 length)) w
    = Some (blk, mkWorld (mem w) k1 (trace w ++ [e])).
Proof.
  unfold call. destruct code.
  - destruct (sceKernelAllocCodeMemBlock "UVLHomebrew" length (kern w))
      as [blk k1].
    exists blk, k1, (EAllocCodeMemBlock "UVLHomebrew" length blk).
    split; reflexivity.
  - destruct (sceKernelAllocMemBlock "UVLHomebrew" 0xC20D060 length (kern w))
      as [blk k1].
    exists blk, k1, (EAllocMemBlock "UVLHomebrew" 0xC20D060 length blk).
    split; reflexivity.
Qed.

(** A loadable entry: the allocation fails and the function returns -1,
    or a block is allocated, [sceKernelGetMemBlockBase] leaves a base in
    [blockaddr], the segment is copied there and the loop goes on. *)
Lemma load_segments_turn fuel data hdr ph i b (w : World K) :
  i < get (mem w) hdr e_phnum ->
  is_loadable (mem w) (phdr_at ph i) = true ->
  exists e blk b1 k0 k pre,
    is_allocation e = true /\
    granted_bases pre = [b1] /\
    load_segments (S fuel) data hdr ph i b w
    = if blk <? 0 then
        Some (inl (-1),
              mkWorld (mem w) k0
                (trace w ++ [e; ELog "Error allocating memory. 0x%08X"]))
      else
        load_segments fuel data hdr ph (i + 1) b1
          (mkWorld (copy_segment (mem w) data (phdr_at ph i) b1) k
                   (trace w ++ e :: pre)).
Proof.
  intros Hi Hl. cbn [load_segments]. unfold bind at 1, get_mem at 1.
  destruct (Z.ltb_spec i (get (mem w) hdr e_phnum)); [| lia]. cbn [negb].
  unfold is_loadable in Hl. fold (phdr_at ph i).
  apply andb_prop in Hl as [Ht Hv]. rewrite Ht.
  destruct (get (mem w) (phdr_at ph i) p_vaddr =? 0); [discriminate |].
  cbn [negb orb].
  set (length := align_1mb (get (mem w) (phdr_at ph i) p_memsz)).
  unfold bind at 1.
  destruct (alloc_run
              (negb (Z.land (get (mem w) (phdr_at ph i) p_flags)
                       (if PF_X =? PF_X then 1 else 0) =? 0)) length w)
    as (blk & k1 & e & He & ->).
  destruct (sceKernelGetMemBlockBase blk b k1) as [[rc b1] k2] eqn:Eb.
  set (c1 := rc <? 0).
  set (c2 := negb (u32 b1 =? u32 (get (mem w) (phdr_at ph i) p_vaddr))).
  set (log1 := if c1
               then [ELog "Error getting memory block address."] else []).
  set (log2 := if c2
               then [ELog "Error, section %u wants to be loaded to 0x%08X but we allocated 0x%08X"]
               else []).
  set (mc := memcpy (mem w) b1
               (u32 (data + get (mem w) (phdr_at ph i) p_offset))
               (get (mem w) (phdr_at ph i) p_filesz)).
  exists e, blk, b1, k1, (psvLockMem (psvUnlockMem k2)),
    (EGetMemBlockBase blk rc b1 :: log1 ++ log2
     ++ [EUnlockMem;
         EMemcpy b1 (u32 (data + get (mem w) (phdr_at ph i) p_offset))
           (get (mem w) (phdr_at ph i) p_filesz);
         EMemset (u32 (b1 + get mc (phdr_at ph i) p_filesz)) 0
           (u32 (get mc (phdr_at ph i) p_memsz
                 - get mc (phdr_at ph i) p_filesz));
         ELockMem]).
  split; [exact He |]. split.
  { unfold granted_bases, log1, log2. destruct c1; destruct c2; reflexivity. }
  red_world. destruct (blk <? 0).
  - unfold bind, LOG, emit, ret. red_world.
    rewrite <- app_assoc. reflexivity.
  - unfold bind at 1, get_mem_block_base at 1. red_world. rewrite Eb.
    red_world. fold c1 c2.
    unfold log1, log2, mc, bind, LOG, emit, ret, unlock_mem, do_memcpy,
      do_memset, lock_mem, get_mem, copy_segment.
    destruct c1; destruct c2; red_world; rewrite <- !app_assoc; reflexivity.
Qed.

Lemma load_segments_load fuel data hdr ph i b (w : World K) r w' :
  i < get (mem w) hdr e_phnum ->
  is_loadable (mem w) (phdr_at ph i) = true ->
  load_segments (S fuel) data hdr ph i b w = Some (r, w') ->
  (exists e, is_allocation e = true /\ r = inl (-1) /\
             trace w' = trace w ++ [e; ELog "Error allocating memory. 0x%08X"])
  \/
  (exists e b1 k pre,
      is_allocation e = true /\
      granted_bases pre = [b1] /\
      load_segments fuel data hdr ph (i + 1) b1
        (mkWorld (copy_segment (mem w) data (phdr_at ph i) b1) k
                 (trace w ++ e :: pre))
      = Some (r, w')).
Proof.
  intros Hi Hl E.
  destruct (load_segments_turn fuel data hdr ph i b w Hi Hl)
    as (e & blk & b1 & k0 & k & pre & He & Hpre & Eq).
  rewrite Eq in E. destruct (blk <? 0).
  - injection E as <- <-. left. exists e. auto.
  - right. exists e, b1, k, pre. auto.
Qed.

(** With fuel beyond the numbers that [e_phnum] can hold, the loop
    returns. *)
Lemma load_segments_returns data hdr ph (k : nat) :
  forall i fuel b (w : World K),
    256 ^ Z.of_nat (f_len e_phnum) <= i + Z.of_nat k ->
    (k < fuel)%nat ->
    exists r w', load_segments fuel data hdr ph i b w = Some (r, w').
Proof.
  induction k as [| k IH]; intros i fuel b w Hk Hf;
    (destruct fuel as [| fuel]; [lia |]);
    pose proof (load_le_range (f_len e_phnum) (mem w) (hdr + f_off e_phnum))
      as Hr; fold (get (mem w) hdr e_phnum) in Hr.
  - rewrite load_segments_end by lia. eauto.
  - destruct (Z.lt_ge_cases i (get (mem w) hdr e_phnum)) as [Hi | Hi];
      [| rewrite load_segments_end by lia; eauto].
    destruct (is_loadable (mem w) (phdr_at ph i)) eqn:Hl.
    + destruct (load_segments_turn fuel data hdr ph i b w Hi Hl)
        as (e & blk & b1 & k0 & k1 & pre & _ & _ & ->).
      destruct (blk <? 0); [eauto |]. apply IH; lia.
    + rewrite load_segments_skip by assumption. apply IH; lia.
Qed.

(** *** The segments in memory *)

Lemma memset_empty (m : Mem) dst c n a : n <= 0 -> memset m dst c n a = m a.
Proof.
  intros Hn. unfold memset. pose proof (u32_range (a - dst)).
  destruct (Z.ltb_spec (u32 (a - dst)) n); [lia | reflexivity].
Qed.

(** The zeroing of the rest of a segment leaves what is outside of the
    block. *)
Lemma memset_rest_out (m : Mem) b f ms a :
  0 <= b -> 0 <= f <= ms -> b + ms <= 2 ^ 32 -> 0 <= a < 2 ^ 32 ->
  a < b + f \/ b + ms <= a ->
  memset m (u32 (b + f)) 0 (u32 (ms - f)) a = m a.
Proof.
  intros Hb Hf Hs Ha Hout. rewrite (u32_small (ms - f)) by lia.
  destruct (Z.eq_dec f ms) as [-> | Hne].
  - apply memset_empty. lia.
  - rewrite (u32_small (b + f)) by lia. apply memset_out; lia.
Qed.

Lemma new_events_app (w w' : World K) tr :
  trace w' = trace w ++ tr -> new_events w w' = tr.
Proof.
  unfold new_events. intros ->. induction (trace w); [reflexivity | assumption].
Qed.

Lemma granted_bases_app tr1 tr2 :
  granted_bases (tr1 ++ tr2) = granted_bases tr1 ++ granted_bases tr2.
Proof. apply flat_map_app. Qed.

Lemma granted_base_allocation e : is_allocation e = true -> granted_base e = [].
Proof. destruct e; cbn; intros; congruence. Qed.

(** A run of the loop adds to the trace. *)
Lemma load_segments_extends fuel data hdr ph :
  forall i b (w : World K) r w',
    load_segments fuel data hdr ph i b w = Some (r, w') ->
    exists tr, trace w' = trace w ++ tr.
Proof.
  induction fuel as [| fuel IH]; intros i b w r w' E; [discriminate |].
  destruct (Z.lt_ge_cases i (get (mem w) hdr e_phnum)) as [Hi | Hi].
  - destruct (is_loadable (mem w) (phdr_at ph i)) eqn:Hl.
    + destruct (load_segments_load _ _ _ _ _ _ _ _ _ Hi Hl E)
        as [(e & _ & _ & Ht) | (e & b1 & k & pre & _ & _ & E1)].
      * eexists. exact Ht.
      * destruct (IH _ _ _ _ _ E1) as [tr Ht]. cbn [trace] in Ht.
        exists (e :: pre ++ tr). rewrite Ht, <- app_assoc. reflexivity.
    + rewrite load_segments_skip in E by assumption. exact (IH _ _ _ _ _ E).
  - rewrite load_segments_end in E by assumption. injection E as <- <-.
    exists []. now rewrite app_nil_r.
Qed.

Section SegmentLoading.

Variables (data size prog_hdrs : Z) (m0 : Mem) (n : nat).

Hypothesis Himage : image_within m0 data size prog_hdrs n = true.
Hypothesis Hcount : get m0 data e_phnum = Z.of_nat n.

(** A memory that holds the image as [m0] does. *)
Let agrees (m : Mem) : Prop :=
  forall a, data <= a < data + size -> m a = m0 a.

Let msz (i : Z) : Z := get m0 (phdr_at prog_hdrs i) p_memsz.

Lemma image_bounds : 0 <= data /\ data + size <= 2 ^ 32.
Proof.
  pose proof Himage as Hi. unfold image_within in Hi.
  apply andb_prop in Hi as [Hi _]. apply andb_prop in Hi as [Hi _].
  apply andb_prop in Hi as [H1 H2].
  apply Z.leb_le in H1, H2. lia.
Qed.

Lemma image_entry i :
  0 <= i < Z.of_nat n -> entry_within m0 data size prog_hdrs i = true.
Proof.
  intros Hi. pose proof Himage as Him. unfold image_within in Him.
  apply andb_prop in Him as [_ Hall].
  apply (zrange_forallb _ n 0 Hall). lia.
Qed.

Lemma agrees_count m : agrees m -> get m data e_phnum = Z.of_nat n.
Proof.
  intros Hag. rewrite <- Hcount.
  destruct image_bounds as [Hlo Hhi].
  apply (get_agree m m0 data e_phnum data size); try assumption.
  pose proof Himage as Him. unfold image_within in Him.
  apply andb_prop in Him as [Him _].
  apply andb_prop in Him as [_ Hf]. exact Hf.
Qed.

Lemma agrees_entry m i f :
  agrees m -> 0 <= i < Z.of_nat n ->
  In f [p_type; p_offset; p_vaddr; p_filesz; p_memsz; p_flags] ->
  get m (phdr_at prog_hdrs i) f = get m0 (phdr_at prog_hdrs i) f.
Proof.
  intros Hag Hi Hf. destruct image_bounds as [Hlo Hhi].
  apply (get_agree m m0 _ f data size); try assumption.
  pose proof (image_entry i Hi) as He. unfold entry_within in He.
  apply andb_prop in He as [He _].
  rewrite forallb_forall in He. exact (He f Hf).
Qed.

Lemma agrees_loadable m i :
  agrees m -> 0 <= i < Z.of_nat n ->
  is_loadable m (phdr_at prog_hdrs i) = is_loadable m0 (phdr_at prog_hdrs i).
Proof.
  intros Hag Hi. unfold is_loadable.
  rewrite !(agrees_entry m i) by (try assumption; cbn [In]; auto 10).
  reflexivity.
Qed.

(** What the image says of a loadable entry. *)
Lemma image_loadable i :
  0 <= i < Z.of_nat n ->
  is_loadable m0 (phdr_at prog_hdrs i) = true ->
  get m0 (phdr_at prog_hdrs i) p_filesz <= msz i < 2 ^ 32 /\
  data <= data + get m0 (phdr_at prog_hdrs i) p_offset /\
  data + get m0 (phdr_at prog_hdrs i) p_offset
  + get m0 (phdr_at prog_hdrs i) p_filesz <= data + size.
Proof.
  intros Hi Hl. pose proof (image_entry i Hi) as He.
  unfold entry_within in He. apply andb_prop in He as [_ He].
  rewrite Hl in He. cbn [negb orb] in He.
  apply andb_prop in He as [H1 H2]. apply andb_prop in H1 as [H1 H4].
  unfold within in H2. apply andb_prop in H2 as [H2 H3].
  apply Z.leb_le in H1, H2, H3. apply Z.ltb_lt in H4. unfold msz. lia.
Qed.

Lemma get_nonneg (m : Mem) base f : 0 <= get m base f.
Proof. unfold get. apply load_le_range. Qed.

(** The copy of a segment to a block that lies apart from the image. *)
Lemma copy_segment_frame m i b a :
  agrees m -> 0 <= i < Z.of_nat n ->
  is_loadable m0 (phdr_at prog_hdrs i) = true ->
  0 <= b -> b + msz i <= 2 ^ 32 -> apart b (msz i) data size = true ->
  0 <= a < 2 ^ 32 -> a < b \/ b + msz i <= a ->
  copy_segment m data (phdr_at prog_hdrs i) b a = m a.
Proof.
  intros Hag Hi Hl Hb Hspace Hap Ha Hout.
  destruct image_bounds as [Hlo Hhi].
  destruct (image_loadable i Hi Hl) as (Hfm & Hs1 & Hs2).
  pose proof (get_nonneg m0 (phdr_at prog_hdrs i) p_filesz) as Hf0.
  unfold apart in Hap. apply orb_prop in Hap.
  rewrite !Z.leb_le in Hap.
  unfold copy_segment.
  rewrite (agrees_entry m i p_filesz), (agrees_entry m i p_offset)
    by (try assumption; cbn [In]; auto 10).
  set (f := get m0 (phdr_at prog_hdrs i) p_filesz) in *.
  set (mc := memcpy m b _ f).
  assert (Hmc : agrees mc).
  { intros x Hx. unfold mc. rewrite memcpy_out by lia. apply Hag, Hx. }
  rewrite (agrees_entry mc i p_filesz), (agrees_entry mc i p_memsz)
    by (try assumption; cbn [In]; auto 10).
  fold f. fold (msz i).
  rewrite memset_rest_out by lia. unfold mc. apply memcpy_out; lia.
Qed.

Lemma copy_segment_agrees m i b :
  agrees m -> 0 <= i < Z.of_nat n ->
  is_loadable m0 (phdr_at prog_hdrs i) = true ->
  0 <= b -> b + msz i <= 2 ^ 32 -> apart b (msz i) data size = true ->
  agrees (copy_segment m data (phdr_at prog_hdrs i) b).
Proof.
  intros Hag Hi Hl Hb Hspace Hap a Ha.
  destruct image_bounds as [Hlo Hhi].
  rewrite (copy_segment_frame m i b a); try assumption.
  - apply Hag, Ha.
  - lia.
  - unfold apart in Hap. apply orb_prop in Hap.
    rewrite !Z.leb_le in Hap. lia.
Qed.

Lemma copy_segment_loaded m i b :
  agrees m -> 0 <= i < Z.of_nat n ->
  is_loadable m0 (phdr_at prog_hdrs i) = true ->
  0 <= b -> b + msz i <= 2 ^ 32 -> apart b (msz i) data size = true ->
  segment_loaded (copy_segment m data (phdr_at prog_hdrs i) b) m0
    data (phdr_at prog_hdrs i) b.
Proof.
  intros Hag Hi Hl Hb Hspace Hap.
  destruct image_bounds as [Hlo Hhi].
  destruct (image_loadable i Hi Hl) as (Hfm & Hs1 & Hs2).
  pose proof (get_nonneg m0 (phdr_at prog_hdrs i) p_filesz) as Hf0.
  unfold apart in Hap. apply orb_prop in Hap.
  rewrite !Z.leb_le in Hap.
  unfold copy_segment, segment_loaded.
  rewrite (agrees_entry m i p_filesz), (agrees_entry m i p_offset)
    by (try assumption; cbn [In]; auto 10).
  set (f := get m0 (phdr_at prog_hdrs i) p_filesz) in *.
  set (off := get m0 (phdr_at prog_hdrs i) p_offset) in *.
  set (mc := memcpy m b _ f).
  assert (Hmc : agrees mc).
  { intros x Hx. unfold mc. rewrite memcpy_out by lia. apply Hag, Hx. }
  rewrite (agrees_entry mc i p_filesz), (agrees_entry mc i p_memsz)
    by (try assumption; cbn [In]; auto 10).
  fold f. fold (msz i).
  split; intros x Hx; fold f in Hx; fold (msz i) in Hx.
  - transitivity (load8 mc (b + x)).
    { apply load8_agree. apply memset_rest_out; try lia.
      - apply u32_range.
      - rewrite u32_small by lia. lia. }
    unfold mc. rewrite load8_memcpy_in by lia.
    rewrite <- load8_u32, u32_add_l, load8_u32.
    apply load8_agree. rewrite u32_small by lia. apply Hag. lia.
  - rewrite (u32_small (b + f)), (u32_small (msz i - f)) by lia.
    replace (b + x) with (b + f + (x - f)) by lia.
    rewrite load8_memset_in by lia. reflexivity.
Qed.

Let loadable0 (i : Z) : bool := is_loadable m0 (phdr_at prog_hdrs i).

(** The loop from the entry [i] on, [k] entries being left, in a memory
    that holds the image: when it ends, and the blocks granted lie apart,
    every loadable entry has its block, memory has changed in the blocks
    only, and every block holds its segment. *)
Lemma load_segments_placed (k : nat) :
  forall i fuel b (w w' : World K) b',
    0 <= i -> i + Z.of_nat k = Z.of_nat n -> agrees (mem w) ->
    load_segments fuel data data prog_hdrs i b w = Some (inr b', w') ->
    let placed := combine (filter loadable0 (zrange i k))
                          (granted_bases (new_events w w')) in
    separate m0 data size prog_hdrs placed = true ->
    List.length (granted_bases (new_events w w'))
    = List.length (filter loadable0 (zrange i k)) /\
    (forall a, 0 <= a < 2 ^ 32 ->
               (forall p, In p placed ->
                          a < snd p \/ snd p + msz (fst p) <= a) ->
               mem w' a = mem w a) /\
    (forall p, In p placed ->
               segment_loaded (mem w') m0 data (phdr_at prog_hdrs (fst p))
                 (snd p)).
Proof.
  induction k as [| k IH]; intros i fuel b w w' b' Hi Hk Hag E;
    (destruct fuel as [| fuel]; [discriminate |]).
  - rewrite load_segments_end in E by (rewrite agrees_count by assumption; lia).
    injection E as _ <-.
    rewrite (new_events_app w w []) by now rewrite app_nil_r.
    cbn. repeat split; intros; try contradiction.
  - assert (Hlt : i < get (mem w) data e_phnum)
      by (rewrite agrees_count by assumption; lia).
    assert (Hin : 0 <= i < Z.of_nat n) by lia.
    cbn [zrange filter]. fold (loadable0 i).
    destruct (loadable0 i) eqn:Hl0.
    + assert (Hl : is_loadable (mem w) (phdr_at prog_hdrs i) = true)
        by (rewrite agrees_loadable by assumption; exact Hl0).
      destruct (load_segments_load _ _ _ _ _ _ _ _ _ Hlt Hl E)
        as [(e & _ & Hr & _) | (e & b1 & k1 & pre & He & Hpre & E1)];
        [discriminate |].
      destruct (load_segments_extends _ _ _ _ _ _ _ _ _ E1) as [tr Ht].
      cbn [trace] in Ht.
      rewrite (new_events_app w w' (e :: pre ++ tr))
        by (rewrite Ht, <- app_assoc; reflexivity).
      change (e :: pre ++ tr) with ([e] ++ pre ++ tr).
      rewrite !granted_bases_app, Hpre.
      change (granted_bases [e]) with (granted_base e ++ []).
      rewrite (granted_base_allocation e He). cbn [app combine].
      intros Hsep. cbn [separate fst snd] in Hsep.
      apply andb_prop in Hsep as [Hsep Hrest].
      apply andb_prop in Hsep as [Hsep Hothers].
      apply andb_prop in Hsep as [Hsep Hap].
      apply andb_prop in Hsep as [Hb1 Hspace].
      apply Z.leb_le in Hb1, Hspace. fold (msz i) in Hap, Hspace, Hothers.
      set (w1 := mkWorld (copy_segment (mem w) data (phdr_at prog_hdrs i) b1)
                   k1 (trace w ++ e :: pre)) in *.
      assert (Hag1 : agrees (mem w1))
        by (apply copy_segment_agrees; assumption).
      assert (Hev : new_events w1 w' = tr)
        by (apply new_events_app; cbn [trace]; exact Ht).
      specialize (IH (i + 1) fuel b1 w1 w' b' ltac:(lia) ltac:(lia) Hag1 E1).
      rewrite Hev in IH. destruct (IH Hrest) as (Hlen & Hframe & Hseg).
      destruct (image_loadable i Hin Hl0) as (Hfm & _).
      rewrite forallb_forall in Hothers.
      split; [cbn [List.length]; now rewrite Hlen |]. split.
      * intros a Ha Hout. rewrite Hframe.
        -- cbn [mem w1]. apply copy_segment_frame; try assumption.
           exact (Hout (i, b1) (or_introl eq_refl)).
        -- assumption.
        -- intros p Hp. apply Hout. right. exact Hp.
      * intros p [<- | Hp]; [| exact (Hseg p Hp)]. cbn [fst snd].
        pose proof (copy_segment_loaded (mem w) i b1 Hag Hin Hl0 Hb1 Hspace Hap)
          as [Hfile Hzero].
        assert (Hkeep : forall x, 0 <= x < msz i ->
                  load8 (mem w') (b1 + x) = load8 (mem w1) (b1 + x)).
        { intros x Hx. apply load8_agree. rewrite u32_small by lia.
          apply Hframe; [lia |]. intros p Hp.
          specialize (Hothers p Hp). unfold apart in Hothers.
          apply orb_prop in Hothers. rewrite !Z.leb_le in Hothers.
          fold (msz (fst p)) in Hothers. lia. }
        pose proof (get_nonneg m0 (phdr_at prog_hdrs i) p_filesz).
        split; intros x Hx.
        -- rewrite Hkeep by lia. apply Hfile, Hx.
        -- rewrite Hkeep by (fold (msz i) in Hx; lia). apply Hzero, Hx.
    + assert (Hl : is_loadable (mem w) (phdr_at prog_hdrs i) = false)
        by (rewrite agrees_loadable by assumption; exact Hl0).
      rewrite load_segments_skip in E by assumption.
      exact (IH (i + 1) fuel b w w' b' ltac:(lia) ltac:(lia) Hag E).
Qed.

End SegmentLoading.


Lemma load_program_sections_done fuel data hdr ph (w w' : World K) :
  load_program_sections fuel data hdr ph w = Some (None, w') ->
  exists b', load_segments fuel data hdr ph 0 indeterminate w
             = Some (inr b', w').
Proof.
  unfold load_program_sections, bind, get_mem, LOG, emit, ret.
  destruct (get (mem w) hdr e_phnum <? 1); [discriminate |].
  destruct (load_segments fuel data hdr ph 0 indeterminate w)
    as [[[rc | b'] w1] |]; try discriminate.
  intros E. injection E as <-. eauto.
Qed.


(** *** Stores *)

Lemma store8_out (m : Mem) p v a :
  0 <= a < 2 ^ 32 -> a <> u32 p -> store8 m p v a = m a.
Proof.
  intros Ha Hne. unfold store8.
  destruct (Z.eqb_spec a (u32 p)); [contradiction | reflexivity].
Qed.

Lemma store_le_out n :
  forall (m : Mem) p v a,
    0 <= p -> p + Z.of_nat n <= 2 ^ 32 -> 0 <= a < 2 ^ 32 ->
    a < p \/ p + Z.of_nat n <= a ->
    store_le n m p v a = m a.
Proof.
  induction n as [| n IH]; intros m p v a Hp Hn Ha Hout; [reflexivity |].
  cbn [store_le]. rewrite IH by lia.
  apply store8_out; [assumption |]. rewrite u32_small by lia. lia.
Qed.

Lemma load8_store8_same (m : Mem) p v : load8 (store8 m p v) p = v mod 256.
Proof.
  unfold load8, store8. rewrite Z.eqb_refl. apply Z.mod_mod. lia.
Qed.

Lemma load_store_le n :
  forall (m : Mem) p v,
    0 <= p -> p + Z.of_nat n <= 2 ^ 32 ->
    load_le n (store_le n m p v) p = v mod 256 ^ Z.of_nat n.
Proof.
  induction n as [| n IH]; intros m p v Hp Hn.
  - cbn. now rewrite Z.mod_1_r.
  - cbn [load_le store_le]. rewrite IH by lia.
    assert (E : load8 (store_le n (store8 m p v) (p + 1) (v / 256)) p
                = v mod 256).
    { rewrite <- (load8_store8_same m p v). apply load8_agree.
      apply store_le_out; try lia.
      - apply u32_range.
      - rewrite u32_small by lia. lia. }
    rewrite E. rewrite Nat2Z.inj_succ, Z.pow_succ_r by lia.
    rewrite Z.rem_mul_r by lia. lia.
Qed.

(** A 32-bit store, read back. *)
Lemma load32_store32 (m : Mem) p v :
  0 <= p -> p + 4 <= 2 ^ 32 -> load32 (store32 m p v) p = u32 v.
Proof. intros Hp Hn. unfold load32, store32, u32. now apply load_store_le. Qed.

Lemma store32_out (m : Mem) p v a :
  0 <= p -> p + 4 <= 2 ^ 32 -> 0 <= a < 2 ^ 32 -> a < p \/ p + 4 <= a ->
  store32 m p v a = m a.
Proof. intros. unfold store32. apply store_le_out; assumption. Qed.

(** Two 32-bit words at places where two memories agree. *)
Lemma load32_agree (m m' : Mem) p :
  0 <= p -> p + 4 <= 2 ^ 32 ->
  (forall a, p <= a < p + 4 -> m a = m' a) ->
  load32 m p = load32 m' p.
Proof.
  intros Hp Hn Hag. unfold load32. apply load_le_agree. intros x Hx.
  rewrite u32_small by lia. apply Hag. lia.
Qed.

(** *** The relocator *)

Lemma set_out (m : Mem) base f v a :
  0 <= base + f_off f -> base + f_off f + Z.of_nat (f_len f) <= 2 ^ 32 ->
  0 <= a < 2 ^ 32 ->
  a < base + f_off f \/ base + f_off f + Z.of_nat (f_len f) <= a ->
  set m base f v a = m a.
Proof. intros. unfold set. apply store_le_out; assumption. Qed.

Lemma get_set_same (m : Mem) base f v :
  f_len f = 4%nat ->
  0 <= base + f_off f -> base + f_off f + 4 <= 2 ^ 32 ->
  get (set m base f v) base f = u32 v.
Proof.
  intros Hl H0 H1. unfold get, set. rewrite Hl.
  apply (load_store_le 4); lia.
Qed.

Lemma get_set_other (m : Mem) base f g v :
  0 <= base + f_off f -> base + f_off f + Z.of_nat (f_len f) <= 2 ^ 32 ->
  0 <= base + f_off g -> base + f_off g + Z.of_nat (f_len g) <= 2 ^ 32 ->
  fields_apart f g = true ->
  get (set m base f v) base g = get m base g.
Proof.
  intros Hf0 Hf1 Hg0 Hg1 Hap. unfold fields_apart, apart in Hap.
  apply orb_prop in Hap. rewrite !Z.leb_le in Hap.
  apply (get_agree _ _ base g (base + f_off g) (Z.of_nat (f_len g)));
    try lia.
  - unfold field_within, within. apply andb_true_intro.
    split; apply Z.leb_le; lia.
  - intros a Ha. apply set_out; lia.
Qed.

Lemma fields_apart_sym f g : fields_apart f g = fields_apart g f.
Proof. unfold fields_apart, apart. apply orb_comm. Qed.

Section Relocation.

Variables (import addend : Z).

Let S := sizeof_module_imports_t.

Hypothesis Himport : 0 <= import /\ import + S <= 2 ^ 32.

(** A member that lies in the descriptor. *)
Let inside (f : field) : Prop :=
  0 <= f_off f /\ f_off f + Z.of_nat (f_len f) <= S.

Lemma offset_pointers_spec fs :
  forall m : Mem,
    pairwise_apart fs = true ->
    (forall f, In f fs -> f_len f = 4%nat /\ inside f) ->
    (forall f, In f fs ->
               get (offset_pointers import addend fs m) import f
               = u32 (get m import f + addend)) /\
    (forall g, inside g ->
               (forall f, In f fs -> fields_apart f g = true) ->
               get (offset_pointers import addend fs m) import g
               = get m import g) /\
    (forall a, 0 <= a < 2 ^ 32 -> a < import \/ import + S <= a ->
               offset_pointers import addend fs m a = m a).
Proof.
  induction fs as [| f fs IH]; intros m Hpw Hin.
  - cbn. repeat split; intros; try contradiction; reflexivity.
  - cbn [pairwise_apart] in Hpw. apply andb_prop in Hpw as [Hf Hpw].
    rewrite forallb_forall in Hf.
    destruct (Hin f (or_introl eq_refl)) as [Hlen [Hf0 Hf1]].
    rewrite Hlen in Hf1.
    cbn [offset_pointers].
    set (m1 := set m import f (u32 (get m import f + addend))).
    destruct (IH m1 Hpw (fun g Hg => Hin g (or_intror Hg)))
      as (Hptr & Hother & Hframe).
    split; [| split].
    + intros g [<- | Hg].
      * rewrite Hother.
        -- unfold m1. rewrite get_set_same by lia. apply u32_idem.
        -- split; lia.
        -- intros f' Hf'. rewrite fields_apart_sym. exact (Hf f' Hf').
      * rewrite (Hptr g Hg). unfold m1.
        destruct (Hin g (or_intror Hg)) as [Hgl [Hg0 Hg1]].
        rewrite get_set_other by (rewrite ?Hlen; try lia; exact (Hf g Hg)).
        reflexivity.
    + intros g [Hg0 Hg1] Hap.
      rewrite Hother by (try (split; assumption);
                         intros f' Hf'; apply Hap; right; exact Hf').
      unfold m1.
      apply get_set_other; rewrite ?Hlen; try lia.
      apply Hap. left. reflexivity.
    + intros a Ha Hout. rewrite Hframe by assumption.
      unfold m1. apply set_out; rewrite ?Hlen; lia.
Qed.

(** The loop over a table that lies apart from the descriptor adds the
    addend to each of its entries and leaves the rest of the memory. *)
Lemma offset_entries_spec count table (m : Mem) :
  inside count -> inside table ->
  let n := get m import count in
  let T := get m import table in
  T + 4 * n <= 2 ^ 32 ->
  apart import S T (4 * n) = true ->
  forall fuel i (m1 : Mem),
    (forall a, import <= a < import + S -> m1 a = m a) ->
    0 <= i <= n -> n - i <= Z.of_nat fuel ->
    let m' := offset_entries fuel import addend count table i m1 in
    (forall a, 0 <= a < 2 ^ 32 -> a < T + 4 * i \/ T + 4 * n <= a ->
               m' a = m1 a) /\
    (forall j, i <= j < n ->
               load32 m' (T + 4 * j) = u32 (load32 m1 (T + 4 * j) + addend)).
Proof.
  intros [Hc0 Hc1] [Ht0 Ht1] n T Hspace Hap.
  unfold apart in Hap. apply orb_prop in Hap. rewrite !Z.leb_le in Hap.
  pose proof (get_nonneg m import table) as HT. fold T in HT.
  assert (Hread : forall m1 : Mem,
    (forall a, import <= a < import + S -> m1 a = m a) ->
    get m1 import count = n /\ get m1 import table = T).
  { intros m1 Hag. split.
    - apply (get_agree m1 m import count import S); try lia; [| exact Hag].
      unfold field_within, within. apply andb_true_intro.
      split; apply Z.leb_le; lia.
    - apply (get_agree m1 m import table import S); try lia; [| exact Hag].
      unfold field_within, within. apply andb_true_intro.
      split; apply Z.leb_le; lia. }
  induction fuel as [| fuel IH]; intros i m1 Hag Hi Hfuel m'.
  - subst m'. cbn [offset_entries]. split; [reflexivity | intros j Hj; lia].
  - subst m'. cbn [offset_entries].
    destruct (Hread m1 Hag) as [-> ->].
    destruct (Z.ltb_spec i n) as [Hlt | Hge];
      [| split; [reflexivity | intros j Hj; lia]].
    set (p := T + 4 * i).
    set (m2 := store32 m1 p (u32 (load32 m1 p + addend))).
    assert (Hout2 : forall a, 0 <= a < 2 ^ 32 -> a < p \/ p + 4 <= a ->
                              m2 a = m1 a).
    { intros a Ha Hout. unfold m2. apply store32_out; unfold p; lia. }
    assert (Hag2 : forall a, import <= a < import + S -> m2 a = m a).
    { intros a Ha. rewrite Hout2 by (unfold p; lia). apply Hag, Ha. }
    destruct (IH (i + 1) m2 Hag2 ltac:(lia) ltac:(lia)) as [Hframe Hval].
    split.
    + intros a Ha Hout. rewrite Hframe by lia. apply Hout2; unfold p; lia.
    + intros j Hj. destruct (Z.eq_dec j i) as [-> | Hne].
      * fold p.
        rewrite (load32_agree _ m2 p) by (unfold p; try lia;
          intros a Ha; apply Hframe; unfold p in *; lia).
        unfold m2. rewrite load32_store32 by (unfold p; lia).
        apply u32_idem.
      * rewrite Hval by lia. f_equal. f_equal.
        apply load32_agree; try lia.
        intros a Ha. apply Hout2; unfold p; lia.
Qed.

End Relocation.

Lemma pairwise_apart_app fs gs :
  pairwise_apart (fs ++ gs) = true ->
  pairwise_apart fs = true /\
  forall f g, In f fs -> In g gs -> fields_apart f g = true.
Proof.
  induction fs as [| f fs IH]; intros Hpw.
  - split; [reflexivity | intros f g []].
  - cbn [app pairwise_apart] in Hpw. apply andb_prop in Hpw as [Hf Hpw].
    rewrite forallb_app in Hf. apply andb_prop in Hf as [Hf1 Hf2].
    destruct (IH Hpw) as [Hfs Hcross]. split.
    + cbn [pairwise_apart]. now rewrite Hf1, Hfs.
    + intros f' g [<- | Hf'] Hg.
      * rewrite forallb_forall in Hf2. exact (Hf2 g Hg).
      * exact (Hcross f' g Hf' Hg).
Qed.

(** What the layout tells of the members of the descriptor. *)
Lemma imports_layout_members :
  imports_layout_ok = true ->
  pairwise_apart import_pointers = true /\
  (forall f, In f import_pointers ->
             f_len f = 4%nat /\
             0 <= f_off f /\
             f_off f + Z.of_nat (f_len f) <= sizeof_module_imports_t) /\
  (forall g, In g import_counts ->
             (0 <= f_off g /\
              f_off g + Z.of_nat (f_len g) <= sizeof_module_imports_t) /\
             forall f, In f import_pointers -> fields_apart f g = true).
Proof.
  unfold imports_layout_ok. intros Hl.
  apply andb_prop in Hl as [Hl Hpw]. apply andb_prop in Hl as [Hlen Hin].
  rewrite forallb_forall in Hlen, Hin.
  destruct (pairwise_apart_app _ _ Hpw) as [Hp Hcross].
  assert (Hins : forall f, In f (import_pointers ++ import_counts) ->
                           0 <= f_off f /\
                           f_off f + Z.of_nat (f_len f)
                           <= sizeof_module_imports_t).
  { intros f Hf. specialize (Hin f Hf). unfold within in Hin.
    apply andb_prop in Hin as [H0 H1]. apply Z.leb_le in H0, H1. lia. }
  split; [exact Hp |]. split.
  - intros f Hf. split.
    + apply Nat.eqb_eq. exact (Hlen f Hf).
    + apply Hins, in_or_app. left. exact Hf.
  - intros g Hg. split.
    + apply Hins, in_or_app. right. exact Hg.
    + intros f Hf. exact (Hcross f g Hf Hg).
Qed.

Lemma loop_bound_enough (m : Mem) base count :
  get m base count - 0 <= Z.of_nat (loop_bound count).
Proof.
  unfold loop_bound, get.
  pose proof (load_le_range (f_len count) m (base + f_off count)).
  rewrite Z2Nat.id; lia.
Qed.

Lemma uvl_offset_import_unfold import addend (m : Mem) :
  uvl_offset_import import addend m
  = offset_entries (loop_bound num_tls_vars) import addend
      num_tls_vars tls_entry_table 0
      (offset_entries (loop_bound num_vars) import addend
         num_vars var_entry_table 0
         (offset_entries (loop_bound imports_num_functions) import addend
            imports_num_functions func_entry_table 0
            (offset_pointers import addend import_pointers m))).
Proof. reflexivity. Qed.

Lemma in_space_bounds r : in_space r = true -> 0 <= fst r /\ fst r + snd r <= 2 ^ 32.
Proof.
  unfold in_space. intros Hs. apply andb_prop in Hs as [H0 H1].
  apply Z.leb_le in H0, H1. lia.
Qed.

Lemma apart_outside a la b lb x :
  apart a la b lb = true -> a <= x < a + la -> outside (b, lb) x.
Proof.
  unfold apart, outside. intros Hap Hx. apply orb_prop in Hap.
  rewrite !Z.leb_le in Hap. cbn [fst snd]. lia.
Qed.

Lemma apart_sym a la b lb : apart a la b lb = apart b lb a la.
Proof. unfold apart. apply orb_comm. Qed.

(** One pass of the relocator over a descriptor whose tables, at the
    shifted bases, lie apart from it. *)
Section Pass.

Variables (import k : Z) (m : Mem).

Let S := sizeof_module_imports_t.
Let region (ct : field * field) : Z * Z := table_region m import ct k.
Let m' : Mem := uvl_offset_import import k m.

Hypothesis Hlayout : imports_layout_ok = true.
Hypothesis Hheader :
  header_apart ((import, S) :: map region import_tables) = true.

Lemma pass_header : 0 <= import /\ import + S <= 2 ^ 32.
Proof.
  pose proof Hheader as Hh. cbn [header_apart] in Hh.
  apply andb_prop in Hh as [Hh _]. exact (in_space_bounds _ Hh).
Qed.

Lemma pass_table ct :
  In ct import_tables ->
  0 <= fst (region ct) /\ fst (region ct) + snd (region ct) <= 2 ^ 32 /\
  apart import S (fst (region ct)) (snd (region ct)) = true.
Proof.
  intros Hct. pose proof Hheader as Hh. cbn [header_apart] in Hh.
  apply andb_prop in Hh as [_ Hh]. rewrite forallb_forall in Hh.
  specialize (Hh (region ct) (in_map region _ _ Hct)).
  apply andb_prop in Hh as [Hs Hap].
  destruct (in_space_bounds _ Hs). auto.
Qed.

Let mh : Mem := offset_pointers import k import_pointers m.

Lemma pass_pointers :
  (forall f, In f import_pointers ->
             get mh import f = u32 (get m import f + k)) /\
  (forall g, In g import_counts -> get mh import g = get m import g) /\
  (forall a, 0 <= a < 2 ^ 32 -> outside (import, S) a -> mh a = m a).
Proof.
  destruct (imports_layout_members Hlayout) as (Hpw & Hptrs & Hcounts).
  destruct (offset_pointers_spec import k pass_header import_pointers m Hpw)
    as (Hp & Ho & Hf).
  { intros f Hf. destruct (Hptrs f Hf) as (Hl & H0 & H1). auto. }
  split; [exact Hp |]. split.
  - intros g Hg. destruct (Hcounts g Hg) as [Hin Hap]. now apply Ho.
  - intros a Ha Hout. apply Hf; [assumption | exact Hout].
Qed.

(** What a loop of the pass does, in a memory [m1] that holds the
    descriptor as it is after the pointers have been shifted. *)
Lemma pass_loop ct (m1 : Mem) :
  In ct import_tables ->
  (forall a, import <= a < import + S -> m1 a = mh a) ->
  let m2 := offset_entries (loop_bound (fst ct)) import k (fst ct) (snd ct)
              0 m1 in
  (forall a, 0 <= a < 2 ^ 32 -> outside (region ct) a -> m2 a = m1 a) /\
  (forall a, import <= a < import + S -> m2 a = mh a) /\
  (forall j, 0 <= j < get m import (fst ct) ->
             load32 m2 (fst (region ct) + 4 * j)
             = u32 (load32 m1 (fst (region ct) + 4 * j) + k)).
Proof.
  intros Hct Hag m2.
  destruct (imports_layout_members Hlayout) as (_ & Hptrs & Hcounts).
  destruct pass_pointers as (Hp & Hc & _).
  destruct (pass_table ct Hct) as (Hr0 & Hr1 & Hap).
  destruct pass_header as [Hi0 Hi1].
  assert (Hf : In (snd ct) import_pointers /\ In (fst ct) import_counts).
  { destruct Hct as [<- | [<- | [<- | []]]]; cbn; auto 10. }
  destruct Hf as [Hfp Hfc].
  assert (HT : get mh import (snd ct) = fst (region ct))
    by (rewrite (Hp _ Hfp); reflexivity).
  assert (Hn : 4 * get mh import (fst ct) = snd (region ct))
    by (rewrite (Hc _ Hfc); reflexivity).
  destruct (Hptrs _ Hfp) as (_ & Ht0 & Ht1).
  destruct (Hcounts _ Hfc) as ((Hc0 & Hc1) & _).
  destruct (offset_entries_spec import k pass_header (fst ct) (snd ct) mh
              (conj Hc0 Hc1) (conj Ht0 Ht1)
              ltac:(rewrite HT, Hn; exact Hr1)
              ltac:(rewrite HT, Hn; exact Hap)
              (loop_bound (fst ct)) 0 m1 Hag
              ltac:(pose proof (get_nonneg mh import (fst ct)); lia)
              (loop_bound_enough mh import (fst ct)))
    as [Hframe Hval].
  fold m2 in Hframe, Hval. rewrite HT in Hframe, Hval.
  assert (Hout : forall a, 0 <= a < 2 ^ 32 -> outside (region ct) a ->
                           m2 a = m1 a).
  { intros a Ha Ho. apply Hframe; [assumption |].
    unfold outside in Ho. rewrite <- Hn in Ho. lia. }
  split; [exact Hout |]. split.
  - intros a Ha. rewrite Hout; [apply Hag, Ha | lia |].
    exact (apart_outside _ _ _ _ _ Hap Ha).
  - intros j Hj. apply Hval. rewrite (Hc _ Hfc). exact Hj.
Qed.

(** Two memories that agree on a table hold the same entries there. *)
Lemma pass_word (ma mb : Mem) ct j :
  In ct import_tables -> 0 <= j < get m import (fst ct) ->
  (forall a, fst (region ct) <= a < fst (region ct) + snd (region ct) ->
             ma a = mb a) ->
  load32 ma (fst (region ct) + 4 * j) = load32 mb (fst (region ct) + 4 * j).
Proof.
  intros Hct Hj Hag. destruct (pass_table ct Hct) as (Hr0 & Hr1 & _).
  assert (Hs : snd (region ct) = 4 * get m import (fst ct)) by reflexivity.
  apply load32_agree; try lia. intros a Ha. apply Hag. lia.
Qed.

Lemma pass_spec :
  (forall f, In f import_pointers ->
             get m' import f = u32 (get m import f + k)) /\
  (forall g, In g import_counts -> get m' import g = get m import g) /\
  (forall a, 0 <= a < 2 ^ 32 -> outside (import, S) a ->
             (forall ct, In ct import_tables -> outside (region ct) a) ->
             m' a = m a) /\
  (regions_apart (map region import_tables) = true ->
   forall ct, In ct import_tables ->
   forall j, 0 <= j < get m import (fst ct) ->
             load32 m' (fst (region ct) + 4 * j)
             = u32 (load32 m (fst (region ct) + 4 * j) + k)).
Proof.
  destruct (imports_layout_members Hlayout) as (_ & Hptrs & Hcounts).
  destruct pass_pointers as (Hp & Hc & Hfh).
  destruct pass_header as [Hi0 Hi1].
  set (ctf := (imports_num_functions, func_entry_table)).
  set (ctv := (num_vars, var_entry_table)).
  set (ctt := (num_tls_vars, tls_entry_table)).
  assert (Hinf : In ctf import_tables) by (cbn; auto).
  assert (Hinv : In ctv import_tables) by (cbn; auto).
  assert (Hint : In ctt import_tables) by (cbn; auto).
  set (m1 := offset_entries (loop_bound (fst ctf)) import k (fst ctf)
               (snd ctf) 0 mh).
  set (m2 := offset_entries (loop_bound (fst ctv)) import k (fst ctv)
               (snd ctv) 0 m1).
  set (m3 := offset_entries (loop_bound (fst ctt)) import k (fst ctt)
               (snd ctt) 0 m2).
  assert (Em : m' = m3) by reflexivity.
  destruct (pass_loop ctf mh Hinf (fun a _ => eq_refl)) as (F1 & A1 & V1).
  fold m1 in F1, A1, V1.
  destruct (pass_loop ctv m1 Hinv A1) as (F2 & A2 & V2).
  fold m2 in F2, A2, V2.
  destruct (pass_loop ctt m2 Hint A2) as (F3 & A3 & V3).
  fold m3 in F3, A3, V3.
  assert (Hget : forall f, 0 <= f_off f ->
                           f_off f + Z.of_nat (f_len f) <= S ->
                           get m' import f = get mh import f).
  { intros f H0 H1. rewrite Em.
    apply (get_agree m3 mh import f import S); try lia; [| exact A3].
    unfold field_within, within. apply andb_true_intro.
    split; apply Z.leb_le; lia. }
  split; [| split; [| split]].
  - intros f Hf. destruct (Hptrs f Hf) as (_ & H0 & H1).
    rewrite Hget by assumption. exact (Hp f Hf).
  - intros g Hg. destruct (Hcounts g Hg) as ((H0 & H1) & _).
    rewrite Hget by assumption. exact (Hc g Hg).
  - intros a Ha Hout Htabs. rewrite Em.
    rewrite F3, F2, F1 by (try assumption; apply Htabs; assumption).
    apply Hfh; assumption.
  - intros Hreg ct Hct j Hj.
    assert (Hreg' : apart (fst (region ctf)) (snd (region ctf))
                      (fst (region ctv)) (snd (region ctv)) = true /\
                    apart (fst (region ctf)) (snd (region ctf))
                      (fst (region ctt)) (snd (region ctt)) = true /\
                    apart (fst (region ctv)) (snd (region ctv))
                      (fst (region ctt)) (snd (region ctt)) = true).
    { unfold import_tables in Hreg. cbn [map regions_apart forallb] in Hreg.
      fold ctf ctv ctt in Hreg.
      repeat match goal with
             | Hb : _ && _ = true |- _ => apply andb_prop in Hb as [? ?]
             end.
      auto. }
    destruct Hreg' as (Hfv & Hft & Hvt).
    destruct (pass_table ctf Hinf) as (Hf0 & Hf1 & Hfa).
    destruct (pass_table ctv Hinv) as (Hv0 & Hv1 & Hva).
    destruct (pass_table ctt Hint) as (Ht0 & Ht1 & Hta).
    assert (Hmh : forall c, In c import_tables ->
              forall a, fst (region c) <= a < fst (region c) + snd (region c) ->
                        mh a = m a).
    { intros c Hc' a Ha. destruct (pass_table c Hc') as (Hc0 & Hc1 & Hca).
      apply Hfh; [lia |]. rewrite apart_sym in Hca.
      exact (apart_outside _ _ _ _ _ Hca Ha). }
    assert (Hcases : ct = ctf \/ ct = ctv \/ ct = ctt).
    { destruct Hct as [<- | [<- | [<- | []]]]; auto. }
    rewrite Em. destruct Hcases as [-> | [-> | ->]].
    + rewrite (pass_word m3 m1 ctf j Hinf Hj).
      * rewrite (V1 j Hj). f_equal. f_equal.
        apply (pass_word mh m ctf j Hinf Hj), Hmh, Hinf.
      * intros a Ha. rewrite F3, F2; try lia; try reflexivity.
        -- exact (apart_outside _ _ _ _ _ Hfv Ha).
        -- exact (apart_outside _ _ _ _ _ Hft Ha).
    + rewrite (pass_word m3 m2 ctv j Hinv Hj).
      * rewrite (V2 j Hj). f_equal. f_equal.
        rewrite (pass_word m1 mh ctv j Hinv Hj).
        -- apply (pass_word mh m ctv j Hinv Hj), Hmh, Hinv.
        -- intros a Ha. apply F1; [lia |]. rewrite apart_sym in Hfv.
           exact (apart_outside _ _ _ _ _ Hfv Ha).
      * intros a Ha. apply F3; [lia |].
        exact (apart_outside _ _ _ _ _ Hvt Ha).
    + rewrite (V3 j Hj). f_equal. f_equal.
      rewrite (pass_word m2 mh ctt j Hint Hj).
      * apply (pass_word mh m ctt j Hint Hj), Hmh, Hint.
      * intros a Ha. rewrite F2, F1; try lia; try reflexivity.
        -- rewrite apart_sym in Hft. exact (apart_outside _ _ _ _ _ Hft Ha).
        -- rewrite apart_sym in Hvt. exact (apart_outside _ _ _ _ _ Hvt Ha).
Qed.

End Pass.

Lemma regions_apart_app rs ts :
  regions_apart (rs ++ ts) = true ->
  regions_apart rs = true /\ regions_apart ts = true /\
  forall r t, In r rs -> In t ts ->
              apart (fst r) (snd r) (fst t) (snd t) = true.
Proof.
  induction rs as [| r rs IH]; intros Hr.
  - repeat split; [exact Hr | intros r t []].
  - cbn [app regions_apart] in Hr. apply andb_prop in Hr as [Hh Hr].
    rewrite forallb_app in Hh. apply andb_prop in Hh as [H1 H2].
    destruct (IH Hr) as (Hrs & Hts & Hcross). split; [| split].
    + cbn [regions_apart]. now rewrite H1, Hrs.
    + exact Hts.
    + intros r' t [<- | Hr'] Ht.
      * rewrite forallb_forall in H2. exact (H2 t Ht).
      * exact (Hcross r' t Hr' Ht).
Qed.

Lemma header_apart_app h rs ts :
  header_apart (h :: rs ++ ts) = true ->
  header_apart (h :: rs) = true /\ header_apart (h :: ts) = true.
Proof.
  cbn [header_apart]. intros Hh. apply andb_prop in Hh as [Hs Hh].
  rewrite forallb_app in Hh. apply andb_prop in Hh as [H1 H2].
  now rewrite Hs, H1, H2.
Qed.

Lemma pointer_range (m : Mem) base f :
  f_len f = 4%nat -> 0 <= get m base f < 2 ^ 32.
Proof.
  intros Hl. unfold get. rewrite Hl.
  exact (load_le_range 4 m (base + f_off f)).
Qed.

Lemma u32_shift_back p k : 0 <= p < 2 ^ 32 -> u32 (u32 (p + k) + - k) = p.
Proof.
  intros Hp. rewrite u32_add_l. replace (p + k + - k) with p by lia.
  now apply u32_small.
Qed.

(** C2, as the code has it: a pass of the relocator shifts the pointers of
    the descriptor and then walks the entry tables through the pointers
    it has shifted.  On a descriptor that lies apart from the tables at
    its bases and at its shifted bases, the pass by [k] and the pass by
    [-k] restore the seven pointers of the descriptor.  The entries are
    not restored: when no two of these tables meet either, the entries
    at the bases of the descriptor have lost [k] and the entries at the
    shifted bases have gained [k]. *)
Theorem uvl_offset_import_round_trip import k (m : Mem) :
  let m' := uvl_offset_import import k m in
  let m'' := uvl_offset_import import (- k) m' in
  imports_layout_ok = true ->
  header_apart (relocation_regions m import k) = true ->
  (forall f, In f import_pointers -> get m'' import f = get m import f) /\
  (regions_apart (relocation_regions m import k) = true ->
   forall ct, In ct import_tables ->
   forall j, 0 <= j < get m import (fst ct) ->
     load32 m'' (get m import (snd ct) + 4 * j)
     = u32 (load32 m (get m import (snd ct) + 4 * j) - k) /\
     load32 m'' (u32 (get m import (snd ct) + k) + 4 * j)
     = u32 (load32 m (u32 (get m import (snd ct) + k) + 4 * j) + k)).
Proof.
  intros m' m'' Hlayout Hheader.
  destruct (imports_layout_members Hlayout) as (_ & Hptrs & Hcounts).
  unfold relocation_regions in Hheader.
  destruct (header_apart_app _ _ _ Hheader) as [Hh1 Hh0].
  destruct (pass_spec import k m Hlayout Hh1) as (P1a & P1b & P1d & P1c).
  fold m' in P1a, P1b, P1d, P1c.
  assert (Htab : forall ct, In ct import_tables ->
                   In (snd ct) import_pointers /\ In (fst ct) import_counts).
  { intros ct [<- | [<- | [<- | []]]]; cbn; auto 10. }
  assert (Hback : forall ct, In ct import_tables ->
                    table_region m' import ct (- k)
                    = table_region m import ct 0).
  { intros ct Hct. destruct (Htab ct Hct) as [Hp Hc].
    destruct (Hptrs _ Hp) as (Hl & _).
    pose proof (pointer_range m import (snd ct) Hl) as Hr.
    unfold table_region. rewrite (P1a _ Hp), (P1b _ Hc).
    rewrite u32_shift_back by assumption.
    rewrite Z.add_0_r, u32_small by assumption. reflexivity. }
  assert (Hmap : map (fun ct => table_region m' import ct (- k)) import_tables
                 = map (fun ct => table_region m import ct 0) import_tables)
    by (apply map_ext_in; exact Hback).
  assert (Hh2 : header_apart
                  ((import, sizeof_module_imports_t)
                   :: map (fun ct => table_region m' import ct (- k))
                        import_tables) = true)
    by (rewrite Hmap; exact Hh0).
  destruct (pass_spec import (- k) m' Hlayout Hh2) as (P2a & P2b & P2d & P2c).
  fold m'' in P2a, P2b, P2d, P2c.
  split.
  - intros f Hf. destruct (Hptrs f Hf) as (Hl & _).
    rewrite (P2a f Hf), (P1a f Hf).
    apply u32_shift_back, pointer_range, Hl.
  - intros Hreg ct Hct j Hj. unfold relocation_regions in Hreg.
    cbn [regions_apart] in Hreg. apply andb_prop in Hreg as [_ Hreg].
    destruct (regions_apart_app _ _ Hreg) as (Hr1 & Hr0 & Hcross).
    destruct (Htab ct Hct) as [Hp Hc].
    destruct (Hptrs _ Hp) as (Hl & _).
    pose proof (pointer_range m import (snd ct) Hl) as Hr.
    assert (Hbase : fst (table_region m import ct 0) = get m import (snd ct))
      by (cbn [table_region fst]; rewrite Z.add_0_r; now apply u32_small).
    destruct (pass_table import k m Hh1 ct Hct) as (Hk0 & Hk1 & Hka).
    destruct (pass_table import (- k) m' Hh2 ct Hct) as (H00 & H01 & H0a).
    rewrite (Hback ct Hct) in H00, H01, H0a.
    assert (Hs0 : snd (table_region m import ct 0) = 4 * get m import (fst ct))
      by reflexivity.
    assert (Hsk : snd (table_region m import ct k) = 4 * get m import (fst ct))
      by reflexivity.
    split.
    + rewrite <- Hbase, <- (Hback ct Hct).
      rewrite (P2c ltac:(rewrite Hmap; exact Hr0) ct Hct j
                 ltac:(rewrite (P1b _ Hc); exact Hj)).
      rewrite (Hback ct Hct). f_equal. rewrite <- Z.add_opp_r. f_equal.
      apply load32_agree; try lia. intros a Ha.
      apply P1d; [lia | |].
      * rewrite apart_sym in H0a.
        apply (apart_outside _ _ _ _ _ H0a). lia.
      * intros ct' Hct'.
        pose proof (Hcross _ _ (in_map (fun c => table_region m import c k)
                                  _ _ Hct')
                      (in_map (fun c => table_region m import c 0) _ _ Hct))
          as Hap.
        rewrite apart_sym in Hap. apply (apart_outside _ _ _ _ _ Hap). lia.
    + change (u32 (get m import (snd ct) + k))
        with (fst (table_region m import ct k)).
      rewrite <- (P1c Hr1 ct Hct j Hj).
      apply load32_agree; try lia. intros a Ha.
      apply P2d; [lia | |].
      * rewrite apart_sym in Hka.
        apply (apart_outside _ _ _ _ _ Hka). lia.
      * intros ct' Hct'. rewrite (Hback ct' Hct').
        pose proof (Hcross _ _ (in_map (fun c => table_region m import c k)
                                  _ _ Hct)
                      (in_map (fun c => table_region m import c 0) _ _ Hct'))
          as Hap.
        apply (apart_outside _ _ _ _ _ Hap). lia.
Qed.

(** The fuel of the loops of the relocator is enough: more of it changes
    nothing. *)
Lemma offset_entries_fuel import addend count table (extra : nat) :
  forall fuel i (m : Mem),
    256 ^ Z.of_nat (f_len count) - i <= Z.of_nat fuel ->
    offset_entries (fuel + extra) import addend count table i m
    = offset_entries fuel import addend count table i m.
Proof.
  induction fuel as [| fuel IH]; intros i m Hf.
  - pose proof (load_le_range (f_len count) m (import + f_off count)) as Hr.
    fold (get m import count) in Hr.
    destruct extra as [| extra]; [reflexivity |]. cbn [Nat.add offset_entries].
    destruct (Z.ltb_spec i (get m import count)); [lia | reflexivity].
  - cbn [Nat.add offset_entries].
    destruct (i <? get m import count); [| reflexivity].
    apply IH. lia.
Qed.

(** *** Failures of the stages, seen from the callers *)

(** The failure of the reclamation is the failure of the load. *)
Lemma uvl_load_elf_reclamation_failure fuel data mod_info rc
  (w w1 : World K) :
  valid_header (mem w) data = true ->
  uvl_elf_get_module_info data data w = Some (Some mod_info, w) ->
  uvl_elf_free_memory (u32 (data + get (mem w) data e_phoff))
    (get (mem w) data e_phnum) w = Some (rc, w1) ->
  rc < 0 ->
  uvl_load_elf fuel data w
  = Some ((-1, NULL), logged w1 [ELog "Error freeing memory."]).
Proof.
  intros Hv Hi Hfree Hrc.
  unfold uvl_load_elf, bind at 1. rewrite (uvl_elf_check_header_valid _ _ Hv).
  change (0 <? 0) with false. cbv iota.
  unfold bind at 1, get_mem at 1. unfold bind at 1. rewrite Hi.
  unfold bind at 1, get_mem at 1. unfold bind at 1. rewrite Hfree.
  destruct (Z.ltb_spec rc 0); [reflexivity | lia].
Qed.

(** An image with the magic of an ELF and a header that fails a check:
    after the image has been acquired, [uvl_load_exe] only logs. *)
Lemma uvl_load_exe_invalid_header fuel filename (w w1 : World K) data size :
  uvl_load_file filename w = Some ((0, Some data, size), w1) ->
  load8 (mem w1) data = ELFMAG0 ->
  (load8 (mem w1) (data + 1) =? ELFMAG1)
  && (load8 (mem w1) (data + 2) =? ELFMAG2)
  && (load8 (mem w1) (data + 3) =? ELFMAG3) = true ->
  valid_header (mem w1) data = false ->
  exists reason,
    uvl_load_exe fuel filename w
    = Some ((-1, NULL),
            logged w1 [ELog reason; ELog "Check header failed.";
                       ELog "Cannot load ELF."]).
Proof.
  intros E H0 H1 Hv. unfold uvl_load_exe, bind at 1. rewrite E.
  change (0 <? 0) with false. cbv iota.
  unfold bind at 1, get_mem at 1.
  rewrite Z.add_0_r, H0, Z.eqb_refl, H1.
  destruct (uvl_elf_check_header_invalid data w1 Hv) as [reason Er].
  exists reason. unfold bind at 1, uvl_load_elf, bind at 1. rewrite Er.
  change (-1 <? 0) with true. cbv iota.
  unfold bind, LOG, emit, ret, logged. red_world.
  change (-1 <? 0) with true. cbv iota. red_world.
  rewrite <- !app_assoc. reflexivity.
Qed.

(** *** More on the header validator, the acquirer and the release of the
    data *)

(** X8: The header validator makes its nine checks in order and stops at
    the first that fails: it returns -1 after it has logged the message
    of that check, and nothing else; when no check fails it returns zero
    and the world is as it was.  It calls no service and writes
    nothing.  No check fails exactly when the header is valid. *)
Theorem uvl_elf_check_header_decides hdr (w : World K) :
  uvl_elf_check_header hdr w
  = match first_failure (header_checks (mem w) hdr) header_reasons with
    | None => Some (0, w)
    | Some reason => Some (-1, logged w [ELog reason])
    end /\
  (first_failure (header_checks (mem w) hdr) header_reasons = None
   <-> valid_header (mem w) hdr = true).
Proof.
  unfold valid_header, header_checks, header_reasons, ident.
  unfold uvl_elf_check_header, bind, get_mem, LOG, emit, ret, logged.
  cbn [first_failure forallb].
  repeat match goal with
         | |- context [if negb ?b then _ else _] =>
           destruct b; cbn [negb andb];
           [ | split; [reflexivity | split; discriminate] ]
         end.
  split; [reflexivity | split; reflexivity].
Qed.


(** X1: Whatever the services answer, [uvl_load_file] returns 0 or -1, and
    stores the buffer in [*data] exactly when it returns 0, the size read
    being then in [*size] and not negative.  It never frees the block it
    has allocated, and it closes the file only after a successful read:
    when the allocation, the location of the block or the read fails, the
    file stays open and the block allocated. *)
Theorem uvl_load_file_outcomes filename (w : World K) :
  exists rc data size w' tr,
    uvl_load_file filename w = Some ((rc, data, size), w') /\
    trace w' = trace w ++ tr /\
    (rc = 0 \/ rc = -1) /\
    (rc = 0 <-> data <> None) /\
    (rc = 0 -> exists sz, size = Some sz /\ 0 <= sz) /\
    (forall blk rcf, ~ In (EFreeMemBlock blk rcf) tr) /\
    (forall fd rcc,
        In (EIoClose fd rcc) tr ->
        exists base sz,
          In (EIoRead fd base UVL_BIN_MAX_SIZE sz) tr /\ 0 <= sz).
Proof.
  unfold uvl_load_file, bind, call, call_mem, get_mem_block_base, LOG, emit, ret.
  destruct (sceIoOpen filename PSP2_O_RDONLY 0 (kern w)) as [fd k1].
  red_world.
  destruct (Z.ltb_spec fd 0) as [Hfd | Hfd]; red_world.
  { eexists _, _, _, _, _. split; [reflexivity |]. cbn [trace].
    rewrite <- app_assoc. split; [reflexivity |].
    cbn [app]. repeat split; try (intros ? ? Hin); intros;
      try congruence; try lia; auto; in_cases. }
  destruct (sceKernelAllocMemBlock "UVLTemp" 0xC20D060 UVL_BIN_MAX_SIZE k1)
    as [blk k2].
  red_world.
  destruct (Z.ltb_spec blk 0) as [Hblk | Hblk]; red_world.
  { eexists _, _, _, _, _. split; [reflexivity |]. cbn [trace].
    rewrite <- !app_assoc. split; [reflexivity |].
    cbn [app]. repeat split; try (intros ? ? Hin); intros;
      try congruence; try lia; auto; in_cases. }
  destruct (sceKernelGetMemBlockBase blk indeterminate k2) as [[rcb base] k3].
  red_world.
  destruct (Z.ltb_spec rcb 0) as [Hrcb | Hrcb]; red_world.
  { eexists _, _, _, _, _. split; [reflexivity |]. cbn [trace].
    rewrite <- !app_assoc. split; [reflexivity |].
    cbn [app]. repeat split; try (intros ? ? Hin); intros;
      try congruence; try lia; auto; in_cases. }
  destruct (sceIoRead fd base UVL_BIN_MAX_SIZE k3 (mem w)) as [[size k4] m4].
  red_world.
  destruct (Z.ltb_spec size 0) as [Hsize | Hsize]; red_world.
  { eexists _, _, _, _, _. split; [reflexivity |]. cbn [trace].
    rewrite <- !app_assoc. split; [reflexivity |].
    cbn [app]. repeat split; try (intros ? ? Hin); intros;
      try congruence; try lia; auto; in_cases. }
  destruct (size >=? UVL_BIN_MAX_SIZE); red_world;
    destruct (sceIoClose fd k4) as [rcc k5]; red_world;
    destruct (Z.ltb_spec rcc 0) as [Hrcc | Hrcc]; red_world;
    (eexists _, _, _, _, _; split; [reflexivity |]; cbn [trace];
     rewrite <- !app_assoc; split; [reflexivity |]; cbn [app];
     repeat split; try (intros ? ? Hin); intros;
     try congruence; try lia; auto;
     try (eexists; split; [reflexivity | assumption]);
     in_cases;
     try (eexists _, _; split; [cbn [In app]; eauto 10 | assumption])).
Qed.

(** X2: A read that fills the buffer is not a failure: the warning that the
    file could be truncated is logged exactly when the size read, not
    negative, reaches [UVL_BIN_MAX_SIZE], and after any successful read
    the file is closed and the return code is decided by the closing
    alone.  The descriptor closed is the one [sceIoOpen] has answered,
    the size is the answer of [sceIoRead] on that descriptor, which
    leaves the memory, and the code of the closing is the answer of
    [sceIoClose] in the state the read has left, which leaves the
    kernel. *)
Theorem uvl_load_file_truncation_warning filename (w : World K) :
  exists rc data size w' tr,
    uvl_load_file filename w = Some ((rc, data, size), w') /\
    trace w' = trace w ++ tr /\
    (In (ELog "Warning. Max homebrew size of %u bytes reached. File could be truncated.") tr
     <-> exists sz, size = Some sz /\ 0 <= sz /\ UVL_BIN_MAX_SIZE <= sz) /\
    (forall sz, size = Some sz -> 0 <= sz ->
       exists fd rcc,
         In (EIoClose fd rcc) tr /\ (rc = 0 <-> 0 <= rcc) /\
         exists k1 base k3 k4,
           sceIoOpen filename PSP2_O_RDONLY 0 (kern w) = (fd, k1) /\
           sceIoRead fd base UVL_BIN_MAX_SIZE k3 (mem w)
           = (sz, k4, mem w') /\
           sceIoClose fd k4 = (rcc, kern w')).
Proof.
  unfold uvl_load_file, bind, call, call_mem, get_mem_block_base, LOG, emit, ret.
  destruct (sceIoOpen filename PSP2_O_RDONLY 0 (kern w)) as [fd k1] eqn:Eo.
  red_world.
  destruct (Z.ltb_spec fd 0) as [Hfd | Hfd]; red_world.
  { eexists _, _, _, _, _. split; [reflexivity |]. cbn [trace].
    rewrite <- app_assoc. split; [reflexivity |]. cbn [app].
    split; [split; [intros Hin; in_cases | intros (sz & E & _); discriminate]
           | intros sz E; discriminate]. }
  destruct (sceKernelAllocMemBlock "UVLTemp" 0xC20D060 UVL_BIN_MAX_SIZE k1)
    as [blk k2].
  red_world.
  destruct (Z.ltb_spec blk 0) as [Hblk | Hblk]; red_world.
  { eexists _, _, _, _, _. split; [reflexivity |]. cbn [trace].
    rewrite <- !app_assoc. split; [reflexivity |]. cbn [app].
    split; [split; [intros Hin; in_cases | intros (sz & E & _); discriminate]
           | intros sz E; discriminate]. }
  destruct (sceKernelGetMemBlockBase blk indeterminate k2) as [[rcb base] k3].
  red_world.
  destruct (Z.ltb_spec rcb 0) as [Hrcb | Hrcb]; red_world.
  { eexists _, _, _, _, _. split; [reflexivity |]. cbn [trace].
    rewrite <- !app_assoc. split; [reflexivity |]. cbn [app].
    split; [split; [intros Hin; in_cases | intros (sz & E & _); discriminate]
           | intros sz E; discriminate]. }
  destruct (sceIoRead fd base UVL_BIN_MAX_SIZE k3 (mem w)) as [[size k4] m4]
    eqn:Er.
  red_world.
  destruct (Z.ltb_spec size 0) as [Hsize | Hsize]; red_world.
  { eexists _, _, _, _, _. split; [reflexivity |]. cbn [trace].
    rewrite <- !app_assoc. split; [reflexivity |]. cbn [app].
    split; [split; [intros Hin; in_cases
                   | intros (sz & E & Hsz & _); injection E as <-; lia]
           | intros sz E Hsz; injection E as <-; lia]. }
  rewrite Z.geb_leb.
  destruct (Z.leb_spec UVL_BIN_MAX_SIZE size) as [Hmax | Hmax]; red_world;
    destruct (sceIoClose fd k4) as [rcc k5] eqn:Ec; red_world;
    destruct (Z.ltb_spec rcc 0) as [Hrcc | Hrcc]; red_world;
    (eexists _, _, _, _, _; split; [reflexivity |]; cbn [trace mem kern];
     rewrite <- !app_assoc; split; [reflexivity |]; cbn [app];
     split;
     [ split;
       [ intros Hin; in_cases; try (exists size; repeat split; assumption)
       | intros (sz & E & Hsz & Hm); injection E as <-;
         first [ lia | cbn [In]; auto 10 ] ]
     | intros sz E Hsz; injection E as <-; exists fd, rcc; split;
       [ cbn [In]; auto 10
       | split;
         [ split; intros; first [ lia | congruence ]
         | exists k1, base, k3, k4; repeat split; assumption ] ] ]).
Qed.

(** X3: The release of the data: the block is looked up, and whatever the
    lookup answers, a negative answer included, that answer is given to
    [sceKernelFreeMemBlock], in the state of the kernel the lookup has
    left; the return code is decided by the freeing alone, and the
    kernel is left as the freeing has left it.  A failed lookup is
    logged and nothing more. *)
Theorem uvl_free_data_result data (w : World K) :
  exists rc w' blk rcf tr,
    uvl_free_data data w = Some (rc, w') /\
    mem w' = mem w /\
    trace w' = trace w ++ tr /\
    calls tr = [EFindMemBlockByAddr data blk; EFreeMemBlock blk rcf] /\
    (rc = 0 <-> 0 <= rcf) /\ (rc = -1 <-> rcf < 0) /\
    (In (ELog "Cannot find block id: 0x%08X") tr <-> blk < 0) /\
    exists k1,
      sceKernelFindMemBlockByAddr data 0 (kern w) = (blk, k1) /\
      sceKernelFreeMemBlock blk k1 = (rcf, kern w').
Proof.
  unfold uvl_free_data, bind, call, LOG, emit, ret.
  destruct (sceKernelFindMemBlockByAddr data 0 (kern w)) as [blk k1].
  red_world.
  destruct (Z.ltb_spec blk 0) as [Hblk | Hblk]; red_world;
    destruct (sceKernelFreeMemBlock blk k1) as [rcf k2] eqn:Ef; red_world;
    destruct (Z.ltb_spec rcf 0) as [Hrcf | Hrcf]; red_world;
    (eexists _, _, blk, rcf, _; split; [reflexivity |]; cbn [trace mem kern];
     split; [reflexivity |]; rewrite <- !app_assoc;
     split; [reflexivity |]; cbn [app];
     split; [reflexivity |];
     split; [split; intros; lia |];
     split; [split; intros; lia |];
     split;
     [ split; [intros Hin; in_cases; lia | intros; first [lia | cbn [In]; now auto]]
     | exists k1; split; [reflexivity | exact Ef] ]).
Qed.

(** *** More on the reclamation *)

(** A turn of the loop over the modules. *)
Lemma free_modules_cons uid mods (w : World K) :
  free_modules (uid :: mods) w
  = let '(rci, info, k) := sceKernelGetModuleInfo uid (kern w) in
    if rci <? 0 then
      free_modules mods
        (mkWorld (mem w) k
           (trace w ++ [EGetModuleInfo uid rci info;
                        ELog "Error getting info for mod 0x%08X, continuing"]))
    else if occupies info then
      let '(rcu, k') := sceKernelStopUnloadModule uid k in
      if rcu <? 0 then
        Some (-1, mkWorld (mem w) k'
                    (trace w ++ [EGetModuleInfo uid rci info;
                                 EStopUnloadModule uid rcu;
                                 ELog "Error unloading %s."]))
      else
        free_modules mods
          (mkWorld (mem w) k'
             (trace w ++ [EGetModuleInfo uid rci info;
                          EStopUnloadModule uid rcu]))
    else
      free_modules mods
        (mkWorld (mem w) k (trace w ++ [EGetModuleInfo uid rci info])).
Proof.
  cbn [free_modules]. unfold bind at 1.
  destruct (sceKernelGetModuleInfo uid (kern w)) as [[rci info] k].
  red_world. destruct (rci <? 0).
  - unfold bind, LOG, emit. red_world. rewrite <- app_assoc. reflexivity.
  - unfold bind. rewrite free_segments_run. red_world.
    destruct (occupies info); [| reflexivity].
    destruct (sceKernelStopUnloadModule uid k) as [rcu k'].
    destruct (rcu <? 0); unfold ret; rewrite <- app_assoc; reflexivity.
Qed.

(** The loop over the modules reads the kernel only: two worlds with
    the same kernel state give the same run. *)
Lemma free_modules_kernel mods :
  forall (m m2 : Mem) (k : K) (t t2 : list Event),
    exists rc k' tr,
      free_modules mods (mkWorld m k t) = Some (rc, mkWorld m k' (t ++ tr)) /\
      free_modules mods (mkWorld m2 k t2) = Some (rc, mkWorld m2 k' (t2 ++ tr)).
Proof.
  induction mods as [| uid mods IH]; intros m m2 k t t2.
  - exists 0, k, []. cbn [free_modules]. unfold ret.
    rewrite !app_nil_r. split; reflexivity.
  - rewrite !free_modules_cons. cbn [mem kern trace].
    destruct (sceKernelGetModuleInfo uid k) as [[rci info] k1].
    destruct (rci <? 0); [| destruct (occupies info)].
    + destruct (IH m m2 k1
                  (t ++ [EGetModuleInfo uid rci info;
                         ELog "Error getting info for mod 0x%08X, continuing"])
                  (t2 ++ [EGetModuleInfo uid rci info;
                          ELog "Error getting info for mod 0x%08X, continuing"]))
        as (rc & k' & tr & -> & ->).
      eexists rc, k', (_ :: _ :: tr). rewrite <- !app_assoc.
      split; reflexivity.
    + destruct (sceKernelStopUnloadModule uid k1) as [rcu k2].
      destruct (rcu <? 0).
      * eexists _, _, _. split; reflexivity.
      * destruct (IH m m2 k2
                    (t ++ [EGetModuleInfo uid rci info;
                           EStopUnloadModule uid rcu])
                    (t2 ++ [EGetModuleInfo uid rci info;
                            EStopUnloadModule uid rcu]))
          as (rc & k' & tr & -> & ->).
        eexists rc, k', (_ :: _ :: tr). rewrite <- !app_assoc.
        split; reflexivity.
    + destruct (IH m m2 k1 (t ++ [EGetModuleInfo uid rci info])
                  (t2 ++ [EGetModuleInfo uid rci info]))
        as (rc & k' & tr & -> & ->).
      eexists rc, k', (_ :: tr). rewrite <- !app_assoc.
      split; reflexivity.
Qed.

(** X12: The reclamation does not look at the image it makes room for: its
    return code, the state it leaves the kernel in and the calls it makes
    are the same whatever the program headers and their number are, and
    whatever the memory holds.  The lowest and the highest address of the
    program headers, which the function computes first, decide nothing;
    the only address compared with the segments of the modules is the
    reserved one. *)
Theorem uvl_elf_free_memory_ignores_image prog_hdrs count prog_hdrs' count'
  (m m' : Mem) (k : K) (tr tr' : list Event) :
  outcome (mkWorld m k tr)
    (uvl_elf_free_memory prog_hdrs count (mkWorld m k tr))
  = outcome (mkWorld m' k tr')
      (uvl_elf_free_memory prog_hdrs' count' (mkWorld m' k tr')).
Proof.
  unfold uvl_elf_free_memory, bind, get_mem. red_world.
  destruct (sceKernelGetModuleList 0xFF MAX_LOADED_MODS k) as [[rcl mods] k1].
  red_world.
  destruct (rcl <? 0).
  - unfold LOG, emit, ret, outcome. cbn [option_map fst snd kern trace].
    rewrite !(new_events_app _ _ [EGetModuleList rcl mods;
                                  ELog "Failed to get module list."])
      by (cbn [trace]; rewrite <- app_assoc; reflexivity).
    reflexivity.
  - match goal with
    | |- outcome _ (free_modules mods (mkWorld _ _ ?t1))
         = outcome _ (free_modules mods (mkWorld _ _ ?t3)) =>
      destruct (free_modules_kernel mods m m' k1 t1 t3)
        as (rc & k' & t & E1 & E2)
    end.
    rewrite E1, E2. unfold outcome. cbn [option_map fst snd kern trace mem].
    rewrite !(new_events_app _ _ (EGetModuleList rcl mods :: t))
      by (cbn [trace]; rewrite <- app_assoc; reflexivity).
    reflexivity.
Qed.

(** What a run of the reclamation tells of the order of its calls. *)
Lemma reclaim_run_order mods tr rc :
  reclaim_run mods tr rc ->
  (exists rest, mods = map visited_uid (visits tr) ++ rest
                /\ (rc = 0 -> rest = [])) /\
  unloads tr = map visited_uid (filter to_unload (visits tr)).
Proof.
  induction 1 as [| u mods rci info tr rc Hrci Hr IH
                  | u mods rci info tr rc Hrci Hocc Hr IH
                  | u mods rci info rcu tr rc Hrci Hocc Hrcu Hr IH
                  | u mods rci info rcu Hrci Hocc Hrcu ].
  - split; [exists []; split; reflexivity | reflexivity].
  - destruct IH as [(rest & -> & Hrest) IH]. split.
    + exists rest. split; [reflexivity | exact Hrest].
    + cbn [visits unloads flat_map visit unload app filter].
      unfold to_unload at 1. cbn [fst snd]. fold (visits tr) (unloads tr).
      destruct (Z.leb_spec 0 rci); [lia |]. cbn [andb]. exact IH.
  - destruct IH as [(rest & -> & Hrest) IH]. split.
    + exists rest. split; [reflexivity | exact Hrest].
    + cbn [visits unloads flat_map visit unload app filter].
      unfold to_unload at 1. cbn [fst snd]. fold (visits tr) (unloads tr).
      rewrite Hocc, andb_false_r. exact IH.
  - destruct IH as [(rest & -> & Hrest) IH]. split.
    + exists rest. split; [reflexivity | exact Hrest].
    + cbn [visits unloads flat_map visit unload app filter].
      unfold to_unload at 1. cbn [fst snd]. fold (visits tr) (unloads tr).
      rewrite Hocc, andb_true_r.
      destruct (Z.leb_spec 0 rci); [| lia].
      cbn [map visited_uid fst]. f_equal. exact IH.
  - split.
    + exists mods. split; [reflexivity | intros; lia].
    + cbn [visits unloads flat_map visit unload app filter].
      unfold to_unload at 1. cbn [fst snd].
      rewrite Hocc, andb_true_r.
      destruct (Z.leb_spec 0 rci); [| lia]. reflexivity.
Qed.

(** X13: The reclamation asks the kernel for the list of the modules.
    When the list cannot be obtained it returns -1 without a visit.
    Otherwise it is a reclamation on the kernel of the modules listed,
    whose answers are those of the services: it visits the modules in
    the order of the list the kernel has given, each one once, and stops
    at the first failure of an unloading, so that the modules visited
    are a prefix of the list, the whole of it when the function returns
    zero.  The modules unloaded are, in that order, the modules visited
    whose information has been fetched and shows a segment at the
    reserved address: a module is unloaded once for a visit, however
    many of its segments are there. *)
Theorem uvl_elf_free_memory_in_order prog_hdrs count (w : World K) :
  exists rc rcl mods k1 k' tr,
    sceKernelGetModuleList 0xFF MAX_LOADED_MODS (kern w) = (rcl, mods, k1) /\
    uvl_elf_free_memory prog_hdrs count w
    = Some (rc, mkWorld (mem w) k'
                  (trace w ++ EGetModuleList rcl mods :: tr)) /\
    (rcl < 0 ->
     rc = -1 /\ k' = k1 /\ tr = [ELog "Failed to get module list."]) /\
    (0 <= rcl -> reclaims k1 mods tr rc k') /\
    (exists rest, mods = map visited_uid (visits tr) ++ rest
                  /\ (rc = 0 -> rest = [])) /\
    unloads tr = map visited_uid (filter to_unload (visits tr)).
Proof.
  destruct (uvl_elf_free_memory_kernel prog_hdrs count w)
    as (rc & rcl & mods & k1 & k' & tr & Ek & E & Hneg & Hpos).
  exists rc, rcl, mods, k1, k', tr.
  split; [exact Ek |]. split; [exact E |]. split; [exact Hneg |].
  split; [exact Hpos |].
  destruct (Z.ltb_spec rcl 0) as [Hrcl | Hrcl].
  - destruct (Hneg Hrcl) as (-> & _ & ->). split; [| reflexivity].
    exists mods. split; [reflexivity | intros; lia].
  - exact (reclaim_run_order _ _ _
             (reclaims_reclaim_run _ _ _ _ _ (Hpos Hrcl))).
Qed.

(** *** More on the loop over the program headers *)

(** [p_flags & PF_X == PF_X] is [p_flags & (PF_X == PF_X)], that is
    [p_flags & 1]. *)
Lemma flags_test (x c : Z) :
  negb (Z.land x (if c =? c then 1 else 0) =? 0) = Z.odd x.
Proof.
  rewrite Z.eqb_refl. change 1 with (Z.ones 1) at 1.
  rewrite Z.land_ones by lia. change (2 ^ 1) with 2.
  pose proof (Z.bit0_mod x) as Hb. rewrite Z.bit0_odd in Hb.
  rewrite <- Hb. destruct (Z.odd x); reflexivity.
Qed.

Lemma load_segments_step fuel data hdr ph i b (w : World K) blk k0 rc b1 k1 :
  i < get (mem w) hdr e_phnum ->
  is_loadable (mem w) (phdr_at ph i) = true ->
  allocate (mem w) (phdr_at ph i) (kern w) = (blk, k0) ->
  sceKernelGetMemBlockBase blk b k0 = (rc, b1, k1) ->
  load_segments (S fuel) data hdr ph i b w
  = if blk <? 0 then
      Some (inl (-1),
            mkWorld (mem w) k0
              (trace w ++ [allocation_of (mem w) (phdr_at ph i) blk;
                           ELog "Error allocating memory. 0x%08X"]))
    else
      load_segments fuel data hdr ph (i + 1) b1
        (mkWorld (copy_segment (mem w) data (phdr_at ph i) b1)
           (psvLockMem (psvUnlockMem k1))
           (trace w ++ allocation_of (mem w) (phdr_at ph i) blk
              :: EGetMemBlockBase blk rc b1
              :: base_messages (mem w) (phdr_at ph i) rc b1
              ++ segment_copy (mem w) data (phdr_at ph i) b1)).
Proof.
  intros Hi Hl Ea Eb. cbn [load_segments]. unfold bind at 1, get_mem at 1.
  destruct (Z.ltb_spec i (get (mem w) hdr e_phnum)); [| lia]. cbn [negb].
  unfold is_loadable in Hl. fold (phdr_at ph i).
  apply andb_prop in Hl as [Ht Hv]. rewrite Ht.
  destruct (get (mem w) (phdr_at ph i) p_vaddr =? 0); [discriminate |].
  cbn [negb orb]. rewrite flags_test.
  unfold allocate in Ea. unfold allocation_of, base_messages, segment_copy.
  unfold bind at 1.
  destruct (Z.odd (get (mem w) (phdr_at ph i) p_flags));
    unfold call at 1; rewrite Ea; red_world;
    (destruct (blk <? 0);
     [ unfold bind, LOG, emit, ret; red_world;
       rewrite <- app_assoc; reflexivity
     | unfold bind at 1, get_mem_block_base at 1; red_world; rewrite Eb;
       red_world;
       unfold bind, LOG, emit, ret, unlock_mem, do_memcpy, do_memset,
         lock_mem, get_mem, copy_segment;
       destruct (rc <? 0);
       destruct (negb (u32 b1 =? u32 (get (mem w) (phdr_at ph i) p_vaddr)));
       red_world; rewrite <- !app_assoc; reflexivity ]).
Qed.

(** X14: A turn of the loop over the program headers on a loadable entry.  The
    block asked for is one of code when the lowest bit of [p_flags] is
    set, whatever the value of [PF_X], and one of data otherwise, its
    length being the size in memory rounded to 2^20.  When the allocation
    fails the function returns -1 at once, the blocks of the entries
    before staying allocated.  Otherwise the segment is copied to the
    address that [sceKernelGetMemBlockBase] has left in [blockaddr] and
    the loop goes on: the failure of that call and an address that is not
    the one the entry asks for are logged and nothing more. *)
Theorem load_segments_turn_calls fuel data hdr ph i b (w : World K)
  blk k0 rc b1 k1 :
  let m := mem w in
  let e := phdr_at ph i in
  i < get m hdr e_phnum ->
  is_loadable m e = true ->
  allocate m e (kern w) = (blk, k0) ->
  sceKernelGetMemBlockBase blk b k0 = (rc, b1, k1) ->
  load_segments (S fuel) data hdr ph i b w
  = if blk <? 0 then
      Some (inl (-1),
            mkWorld m k0
              (trace w ++ [allocation_of m e blk;
                           ELog "Error allocating memory. 0x%08X"]))
    else
      load_segments fuel data hdr ph (i + 1) b1
        (mkWorld (copy_segment m data e b1) (psvLockMem (psvUnlockMem k1))
           (trace w ++ allocation_of m e blk :: EGetMemBlockBase blk rc b1
              :: base_messages m e rc b1 ++ segment_copy m data e b1)).
Proof. intros m e. apply load_segments_step. Qed.

(** The entries that are not loadable are passed over without a call. *)
Lemma load_segments_idle data hdr ph (k : nat) :
  forall i fuel b (w : World K),
    0 <= i -> i + Z.of_nat k = get (mem w) hdr e_phnum ->
    forallb (fun j => negb (is_loadable (mem w) (phdr_at ph j))) (zrange i k)
    = true ->
    (k < fuel)%nat ->
    load_segments fuel data hdr ph i b w = Some (inr b, w).
Proof.
  induction k as [| k IH]; intros i fuel b w Hi Hk Hall Hf;
    (destruct fuel as [| fuel]; [lia |]).
  - apply load_segments_end. lia.
  - cbn [zrange forallb] in Hall. apply andb_prop in Hall as [Hl Hall].
    apply negb_true_iff in Hl.
    rewrite load_segments_skip by (try assumption; lia).
    apply IH; try lia. exact Hall.
Qed.

(** X15: An image whose program headers are all of another type than
    [PT_LOAD], or have a null address: the block that loads the program
    sections calls no service, writes nothing and lets the load go on,
    though nothing has been loaded. *)
Theorem load_program_sections_nothing_loadable fuel data hdr prog_hdrs
  (w : World K) :
  let n := Z.to_nat (get (mem w) hdr e_phnum) in
  1 <= get (mem w) hdr e_phnum ->
  forallb (fun j => negb (is_loadable (mem w) (phdr_at prog_hdrs j)))
          (zrange 0 n) = true ->
  (n < fuel)%nat ->
  load_program_sections fuel data hdr prog_hdrs w = Some (None, w).
Proof.
  intros n Hn Hall Hf. unfold load_program_sections, bind, get_mem.
  destruct (Z.ltb_spec (get (mem w) hdr e_phnum) 1); [lia |].
  rewrite (load_segments_idle data hdr prog_hdrs n 0 fuel indeterminate w);
    try assumption; try lia.
  reflexivity.
Qed.

(** X17: The block that loads the program sections writes to the blocks
    granted only: in a run as that of C3, on an image that holds what the
    loop reads, the blocks granted lying apart from the image and from
    each other, every byte of memory outside of the blocks is as it was,
    the image included. *)
Theorem load_program_sections_frame fuel data size prog_hdrs
  (w w' : World K) :
  let m := mem w in
  let n := Z.to_nat (get m data e_phnum) in
  let placed := combine (loadable_entries m prog_hdrs n)
                        (granted_bases (new_events w w')) in
  image_within m data size prog_hdrs n = true ->
  load_program_sections fuel data data prog_hdrs w = Some (None, w') ->
  separate m data size prog_hdrs placed = true ->
  forall a, 0 <= a < 2 ^ 32 ->
    (forall i b, In (i, b) placed ->
                 a < b \/ b + get m (phdr_at prog_hdrs i) p_memsz <= a) ->
    mem w' a = m a.
Proof.
  intros m n placed Himage Hrun Hsep a Ha Hout.
  destruct (load_program_sections_done _ _ _ _ _ _ Hrun) as [b' E].
  assert (Hcount : get m data e_phnum = Z.of_nat n).
  { unfold n. rewrite Z2Nat.id; [reflexivity |]. apply get_nonneg. }
  destruct (load_segments_placed data size prog_hdrs m n Himage Hcount
              n 0 fuel indeterminate w w' b'
              ltac:(lia) ltac:(lia) ltac:(intros x _; reflexivity) E Hsep)
    as (_ & Hframe & _).
  apply Hframe; [exact Ha |]. intros [i b] Hp. exact (Hout i b Hp).
Qed.

(** *** The trace of the ELF loader *)

Lemma bind_some {A B : Type} (c : M K A) (f : A -> M K B) (w : World K) r :
  bind c f w = Some r ->
  exists a w1, c w = Some (a, w1) /\ f a w1 = Some r.
Proof.
  unfold bind. destruct (c w) as [[a w1] |]; [| discriminate].
  intros E. exists a, w1. auto.
Qed.

Lemma protection_app tr1 :
  forall u tr2,
    protection u (tr1 ++ tr2)
    = match protection u tr1 with
      | Some u' => protection u' tr2
      | None => None
      end.
Proof.
  induction tr1 as [| e tr1 IH]; intros u tr2; [reflexivity |].
  cbn [app protection]. destruct e, u; try reflexivity; apply IH.
Qed.

(** The stages other than the loading of the segments leave the
    protection of memory alone. *)
Lemma protection_stage (s : nat) tr :
  s <> 2%nat ->
  Forall (fun e => stage_in s e = true) tr ->
  protection false tr = Some false.
Proof.
  intros Hs Hall. induction Hall as [| e tr He _ IH]; [reflexivity |].
  destruct e; cbn [protection]; try exact IH;
    cbn in He; rewrite andb_true_r in He; apply Nat.eqb_eq in He; lia.
Qed.

Lemma stages_stage_in (s : nat) tr :
  Forall (fun e => stage_in s e = true) tr ->
  forall x, In x (stages tr) -> x = s.
Proof.
  intros Hall. induction Hall as [| e tr He _ IH]; intros x Hx; [destruct Hx |].
  unfold stages in Hx. cbn [flat_map] in Hx. apply in_app_or in Hx as [Hx | Hx].
  - unfold stage_in in He. rewrite forallb_forall in He.
    symmetry. apply Nat.eqb_eq, He, Hx.
  - exact (IH x Hx).
Qed.

Lemma stages_app tr1 tr2 : stages (tr1 ++ tr2) = stages tr1 ++ stages tr2.
Proof. apply flat_map_app. Qed.

Lemma ascending_cons a l :
  ascending l = true -> (forall y, In y l -> (a <= y)%nat) ->
  ascending (a :: l) = true.
Proof.
  intros Hl Ha. destruct l as [| b l]; [reflexivity |].
  cbn [ascending] in *. apply andb_true_intro. split; [| exact Hl].
  apply Nat.leb_le, Ha. left. reflexivity.
Qed.

Lemma ascending_tail a l : ascending (a :: l) = true -> ascending l = true.
Proof.
  destruct l as [| b l]; [reflexivity |]. cbn [ascending].
  intros Hl. apply andb_prop in Hl as [_ Hl]. exact Hl.
Qed.

Lemma ascending_app l1 :
  forall l2,
    ascending l1 = true -> ascending l2 = true ->
    (forall x y, In x l1 -> In y l2 -> (x <= y)%nat) ->
    ascending (l1 ++ l2) = true.
Proof.
  induction l1 as [| a l1 IH]; intros l2 H1 H2 Hle; [exact H2 |].
  cbn [app]. apply ascending_cons.
  - apply IH; [exact (ascending_tail _ _ H1) | exact H2 |].
    intros x y Hx Hy. apply Hle; [right; exact Hx | exact Hy].
  - intros y Hy. apply in_app_or in Hy as [Hy | Hy].
    + clear IH Hle H2. revert a H1 Hy.
      induction l1 as [| b l1 IH1]; intros a H1 Hy; [destruct Hy |].
      cbn [ascending] in H1. apply andb_prop in H1 as [Hab H1].
      apply Nat.leb_le in Hab. destruct Hy as [<- | Hy]; [exact Hab |].
      specialize (IH1 b H1 Hy). lia.
    + apply Hle; [left; reflexivity | exact Hy].
Qed.

Lemma ascending_constant (s : nat) l :
  (forall x, In x l -> x = s) -> ascending l = true.
Proof.
  induction l as [| a l IH]; intros Hl; [reflexivity |].
  apply ascending_cons.
  - apply IH. intros x Hx. apply Hl. right. exact Hx.
  - intros y Hy. rewrite (Hl a (or_introl eq_refl)), (Hl y (or_intror Hy)). lia.
Qed.

Lemma allocation_of_stage (m : Mem) ph blk :
  stage_in 2 (allocation_of m ph blk) = true.
Proof. unfold allocation_of. destruct (Z.odd _); reflexivity. Qed.

(** A run of the loop over the program headers: its events are those of
    the loading of the segments, the protection of memory is lifted for
    the copy of a segment only and restored when the loop is left, and a
    return from inside the loop is one of -1. *)
Lemma load_segments_trace data hdr ph fuel :
  forall i b (w : World K) r w',
    load_segments fuel data hdr ph i b w = Some (r, w') ->
    exists tr,
      trace w' = trace w ++ tr /\
      Forall (fun e => stage_in 2 e = true) tr /\
      protection false tr = Some false /\
      (forall rc, r = inl rc -> rc = -1).
Proof.
  induction fuel as [| fuel IH]; intros i b w r w' E; [discriminate |].
  destruct (Z.lt_ge_cases i (get (mem w) hdr e_phnum)) as [Hi | Hi].
  - destruct (is_loadable (mem w) (phdr_at ph i)) eqn:Hl.
    + destruct (allocate (mem w) (phdr_at ph i) (kern w)) as [blk k0] eqn:Ea.
      destruct (sceKernelGetMemBlockBase blk b k0) as [[rc b1] k1] eqn:Eb.
      rewrite (load_segments_step fuel data hdr ph i b w blk k0 rc b1 k1
                 Hi Hl Ea Eb) in E.
      destruct (blk <? 0).
      * injection E as <- <-. eexists. split; [reflexivity |].
        split; [| split].
        -- repeat constructor. apply allocation_of_stage.
        -- unfold allocation_of. destruct (Z.odd _); reflexivity.
        -- intros rc0 Hr. injection Hr as <-. reflexivity.
      * destruct (IH _ _ _ _ _ E) as (tr & Ht & Hs & Hp & Hr).
        cbn [trace] in Ht.
        exists (allocation_of (mem w) (phdr_at ph i) blk
                :: EGetMemBlockBase blk rc b1
                :: (base_messages (mem w) (phdr_at ph i) rc b1
                    ++ segment_copy (mem w) data (phdr_at ph i) b1) ++ tr).
        split; [rewrite Ht, <- app_assoc; reflexivity |].
        split; [| split; [| exact Hr]].
        -- constructor; [apply allocation_of_stage |].
           constructor; [reflexivity |].
           apply Forall_app. split; [| exact Hs].
           apply Forall_app. split.
           ++ unfold base_messages.
              destruct (rc <? 0); destruct (negb _); repeat constructor.
           ++ unfold segment_copy. repeat constructor.
        -- change (protection false (?a :: ?g :: ?l))
             with (protection false ([a; g] ++ l)).
           rewrite !protection_app.
           unfold allocation_of, base_messages, segment_copy.
           destruct (Z.odd _); destruct (rc <? 0); destruct (negb _);
             cbn [protection app]; exact Hp.
    + rewrite load_segments_skip in E by assumption. exact (IH _ _ _ _ _ E).
  - rewrite load_segments_end in E by assumption. injection E as <- <-.
    exists []. rewrite app_nil_r. repeat split; [constructor | discriminate].
Qed.

Lemma load_program_sections_trace fuel data hdr ph (w : World K) r w' :
  load_program_sections fuel data hdr ph w = Some (r, w') ->
  exists tr,
    trace w' = trace w ++ tr /\
    Forall (fun e => stage_in 2 e = true) tr /\
    protection false tr = Some false /\
    (forall rc, r = Some rc -> rc = -1).
Proof.
  unfold load_program_sections. unfold bind at 1, get_mem at 1.
  destruct (get (mem w) hdr e_phnum <? 1).
  - unfold bind, LOG, emit, ret. red_world. intros E. injection E as <- <-.
    eexists. split; [reflexivity |]. repeat split.
    + repeat constructor.
    + intros rc Hr. injection Hr as <-. reflexivity.
  - intros E. apply bind_some in E as (r0 & w1 & E0 & E1).
    destruct (load_segments_trace _ _ _ _ _ _ _ _ _ E0) as (tr & Ht & Hs & Hp & Hr).
    exists tr. destruct r0 as [rc | b']; unfold ret in E1;
      injection E1 as <- <-; repeat split; try assumption.
    + intros rc0 E. injection E as <-. apply Hr. reflexivity.
    + discriminate.
Qed.

(** A run of the loop over the import descriptors, with any function
    that loads the module of a library. *)
Lemma resolve_imports_trace load_module import end_ fuel :
  forall i (w : World K) r w',
    resolve_imports fuel load_module import end_ i w = Some (r, w') ->
    exists tr,
      trace w' = trace w ++ tr /\
      Forall (fun e => stage_in 3 e = true) tr /\
      (forall rc, r = Some rc -> rc = -1).
Proof.
  induction fuel as [| fuel IH]; intros i w r w' E; [discriminate |].
  cbn [resolve_imports] in E.
  destruct (negb (u32 (import + i * sizeof_module_imports_t) <? end_)).
  - unfold ret in E. injection E as <- <-. exists []. rewrite app_nil_r.
    repeat split; [constructor | discriminate].
  - unfold bind at 1, get_mem at 1 in E. unfold bind at 1, call_mem at 1 in E.
    destruct (load_module _ (kern w) (mem w)) as [[rcl k1] m1].
    red_world. cbv beta iota zeta in E. cbn [mem kern trace] in E.
    destruct (rcl <? 0).
    + unfold bind at 1, LOG, emit in E. cbv beta iota zeta in E.
      cbn [mem kern trace] in E.
      destruct (IH _ _ _ _ E) as (tr & Ht & Hs & Hr). cbn [trace] in Ht.
      eexists (_ :: _ :: tr). split; [rewrite Ht, <- !app_assoc; reflexivity |].
      split; [repeat constructor; exact Hs | exact Hr].
    + unfold bind at 1, call_mem at 1 in E. cbv beta iota zeta in E.
      cbn [mem kern trace] in E.
      destruct (uvl_resolve_imports _ k1 m1) as [[rcr k2] m2].
      cbv beta iota zeta in E. cbn [mem kern trace] in E.
      destruct (rcr <? 0).
      * unfold bind, LOG, emit, ret in E. cbv beta iota zeta in E.
        cbn [mem kern trace] in E. injection E as <- <-.
        eexists [_; _; _]. cbn [trace].
        split; [rewrite <- !app_assoc; reflexivity |].
        split; [repeat constructor |].
        intros rc Hr. injection Hr as <-. reflexivity.
      * destruct (IH _ _ _ _ E) as (tr & Ht & Hs & Hr). cbn [trace] in Ht.
        eexists (_ :: _ :: tr).
        split; [rewrite Ht, <- !app_assoc; reflexivity |].
        split; [repeat constructor; exact Hs | exact Hr].
Qed.

Lemma reclaim_run_stage mods tr rc :
  reclaim_run mods tr rc ->
  Forall (fun e => stage_in 1 e = true) tr /\ (rc = 0 \/ rc = -1).
Proof.
  induction 1 as [| u mods rci info tr rc Hrci Hr [IH1 IH2]
                  | u mods rci info tr rc Hrci Hocc Hr [IH1 IH2]
                  | u mods rci info rcu tr rc Hrci Hocc Hrcu Hr [IH1 IH2]
                  | u mods rci info rcu Hrci Hocc Hrcu ];
    (split; [repeat constructor; assumption | auto]).
Qed.

Lemma uvl_elf_free_memory_trace prog_hdrs count (w : World K) rc w' :
  uvl_elf_free_memory prog_hdrs count w = Some (rc, w') ->
  exists tr,
    trace w' = trace w ++ tr /\
    Forall (fun e => stage_in 1 e = true) tr /\ (rc = 0 \/ rc = -1).
Proof.
  intros E.
  destruct (uvl_elf_free_memory_run prog_hdrs count w)
    as (rc0 & w0 & rcl & mods & tr & E0 & Ht & _ & Hneg & Hpos).
  rewrite E0 in E. injection E as <- <-.
  exists (EGetModuleList rcl mods :: tr). split; [exact Ht |].
  destruct (Z.ltb_spec rcl 0) as [Hrcl | Hrcl].
  - destruct (Hneg Hrcl) as [-> ->]. split; [repeat constructor | auto].
  - destruct (reclaim_run_stage _ _ _ (Hpos Hrcl)) as [Hs Hr].
    split; [constructor; [reflexivity | exact Hs] | exact Hr].
Qed.

Lemma uvl_elf_get_module_info_trace data hdr (w : World K) r w' :
  uvl_elf_get_module_info data hdr w = Some (r, w') ->
  w' = w \/
  (r = None /\
   w' = logged w [ELog "Cannot find section %s in string table."]).
Proof.
  unfold uvl_elf_get_module_info, bind, get_mem, LOG, emit, ret, logged.
  destruct (_ <=? 0); intros E; injection E as <- <-; auto.
Qed.

Lemma find_entry_point_result fuel prog_hdrs mod_info (w : World K) rc e w' :
  find_entry_point fuel prog_hdrs mod_info w = Some ((rc, e), w') ->
  (rc = 0 /\ w' = w) \/
  (rc = -1 /\ e = NULL /\
   w' = logged w [ELog "Cannot find application entry."]).
Proof.
  unfold find_entry_point, bind, get_mem, LOG, emit, ret, diverge, logged.
  destruct (find_entry _ _ _ _ _) as [[e0 |] |]; intros E;
    [injection E as <- <- <-; auto | injection E as <- <- <-; auto 10
     | discriminate].
Qed.

(** The trace of a run of the ELF loader, stage by stage. *)
Lemma uvl_load_elf_trace fuel data (w w' : World K) rc e :
  uvl_load_elf fuel data w = Some ((rc, e), w') ->
  exists t1 t2 t3,
    trace w' = trace w ++ t1 ++ t2 ++ t3 /\
    Forall (fun e => stage_in 1 e = true) t1 /\
    Forall (fun e => stage_in 2 e = true) t2 /\
    protection false t2 = Some false /\
    Forall (fun e => stage_in 3 e = true) t3 /\
    (rc = 0 \/ rc = -1) /\ (rc = -1 -> e = NULL).
Proof.
  intros E. unfold uvl_load_elf in E.
  apply bind_some in E as (rc0 & w0 & E0 & E).
  destruct (valid_header (mem w) data) eqn:Hv.
  2: { destruct (uvl_elf_check_header_invalid _ _ Hv) as [reason Er].
       rewrite Er in E0. injection E0 as <- <-.
       change (-1 <? 0) with true in E. cbv iota in E.
       unfold bind, LOG, emit, ret, logged in E. cbn [mem kern trace] in E.
       injection E as <- <- <-. cbn [trace].
       exists [ELog reason; ELog "Check header failed."], [], [].
       rewrite <- app_assoc.
       repeat split; auto; repeat constructor. }
  rewrite (uvl_elf_check_header_valid _ _ Hv) in E0. injection E0 as <- <-.
  change (0 <? 0) with false in E. cbv iota in E.
  unfold bind at 1, get_mem at 1 in E.
  apply bind_some in E as (r1 & w1 & E1 & E).
  apply uvl_elf_get_module_info_trace in E1 as [-> | [-> ->]].
  2: { unfold bind, LOG, emit, ret, logged in E. cbn [mem kern trace] in E.
       injection E as <- <- <-. cbn [trace].
       exists [ELog "Cannot find section %s in string table.";
               ELog "Cannot find module info section."], [], [].
       rewrite <- app_assoc.
       repeat split; auto; repeat constructor. }
  destruct r1 as [mod_info |].
  2: { unfold bind, LOG, emit, ret in E. cbn [mem kern trace] in E.
       injection E as <- <- <-. cbn [trace].
       exists [ELog "Cannot find module info section."], [], [].
       repeat split; auto; repeat constructor. }
  unfold bind at 1, get_mem at 1 in E.
  apply bind_some in E as (rc2 & w2 & E2 & E).
  apply uvl_elf_free_memory_trace in E2 as (t1 & Ht1 & Hs1 & Hrc2).
  destruct (Z.ltb_spec rc2 0) as [Hneg | Hpos].
  { unfold bind, LOG, emit, ret in E. cbn [mem kern trace] in E.
    injection E as <- <- <-. cbn [trace].
    exists (t1 ++ [ELog "Error freeing memory."]), [], [].
    rewrite Ht1, !app_nil_r, <- app_assoc.
    repeat split; auto; try constructor.
    apply Forall_app. split; [exact Hs1 | repeat constructor]. }
  apply bind_some in E as (r3 & w3 & E3 & E).
  apply load_program_sections_trace in E3 as (t2 & Ht2 & Hs2 & Hp2 & Hr3).
  destruct r3 as [rc3 |].
  { unfold ret in E. injection E as <- <- <-.
    exists t1, t2, []. rewrite Ht2, Ht1, app_nil_r, <- app_assoc.
    rewrite (Hr3 rc3 eq_refl).
    repeat split; auto; constructor. }
  apply bind_some in E as (r4 & w4 & E4 & E).
  unfold resolve_nids, bind, get_mem in E4.
  apply resolve_imports_trace in E4 as (t3 & Ht3 & Hs3 & Hr4).
  destruct r4 as [rc4 |].
  { unfold ret in E. injection E as <- <- <-.
    exists t1, t2, t3. rewrite Ht3, Ht2, Ht1, <- !app_assoc.
    rewrite (Hr4 rc4 eq_refl).
    repeat split; auto. }
  apply find_entry_point_result in E as [[-> ->] | (-> & -> & ->)].
  - exists t1, t2, t3. rewrite Ht3, Ht2, Ht1, <- !app_assoc.
    repeat split; auto. intros; lia.
  - exists t1, t2, (t3 ++ [ELog "Cannot find application entry."]).
    cbn [logged trace]. rewrite Ht3, Ht2, Ht1, <- !app_assoc.
    repeat split; auto.
    apply Forall_app. split; [exact Hs3 | repeat constructor].
Qed.

(** X22: The ELF loader returns 0 or -1, and when it returns -1 what it has
    left in [*entry] is null: the entry is stored only by the return of
    zero. *)
Theorem uvl_load_elf_result fuel data (w w' : World K) rc e :
  uvl_load_elf fuel data w = Some ((rc, e), w') ->
  (rc = 0 \/ rc = -1) /\ (rc = -1 -> e = NULL).
Proof.
  intros E.
  destruct (uvl_load_elf_trace _ _ _ _ _ _ E)
    as (t1 & t2 & t3 & _ & _ & _ & _ & _ & Hrc & He).
  auto.
Qed.

(** X23: The calls of a run of the ELF loader come in the order of its
    stages, however the run ends: every call of the reclamation of the
    address space comes before every allocation and every copy of a
    segment, and these come before every call of the loader of modules
    and of the resolver.  The ELF loader does no I/O and frees no block,
    those of a load that fails included. *)
Theorem uvl_load_elf_stages fuel data (w w' : World K) r :
  uvl_load_elf fuel data w = Some (r, w') ->
  ascending (stages (new_events w w')) = true /\
  ~ In 0%nat (stages (new_events w w')).
Proof.
  destruct r as [rc e]. intros E.
  destruct (uvl_load_elf_trace _ _ _ _ _ _ E)
    as (t1 & t2 & t3 & Ht & H1 & H2 & _ & H3 & _).
  rewrite (new_events_app w w' _ Ht), !stages_app.
  pose proof (stages_stage_in _ _ H1) as S1.
  pose proof (stages_stage_in _ _ H2) as S2.
  pose proof (stages_stage_in _ _ H3) as S3.
  split.
  - apply ascending_app; [exact (ascending_constant _ _ S1) | |].
    + apply ascending_app;
        [exact (ascending_constant _ _ S2) | exact (ascending_constant _ _ S3) |].
      intros x y Hx Hy. rewrite (S2 x Hx), (S3 y Hy). lia.
    + intros x y Hx Hy. rewrite (S1 x Hx).
      apply in_app_or in Hy as [Hy | Hy];
        [rewrite (S2 y Hy) | rewrite (S3 y Hy)]; lia.
  - intros Hin. apply in_app_or in Hin as [Hin | Hin];
      [specialize (S1 _ Hin); discriminate |].
    apply in_app_or in Hin as [Hin | Hin];
      [specialize (S2 _ Hin) | specialize (S3 _ Hin)]; discriminate.
Qed.

(** X24: The ELF loader never returns with the protection of memory lifted:
    in every run, the failures of an allocation included, the protection
    is lifted and restored in turn, memory is copied and filled only while
    it is lifted, and no service is called and nothing is returned
    then. *)
Theorem uvl_load_elf_protection fuel data (w w' : World K) r :
  uvl_load_elf fuel data w = Some (r, w') ->
  protection false (new_events w w') = Some false.
Proof.
  destruct r as [rc e]. intros E.
  destruct (uvl_load_elf_trace _ _ _ _ _ _ E)
    as (t1 & t2 & t3 & Ht & H1 & H2 & Hp & H3 & _).
  rewrite (new_events_app w w' _ Ht), protection_app.
  rewrite (protection_stage 1 t1) by (try assumption; lia).
  rewrite protection_app, Hp. apply (protection_stage 3); [lia | exact H3].
Qed.

(** *** More on the dispatcher *)



(** X5: The dispatch on the container.  The ELF loader is given the image
    itself when it is an ELF and the image past the SCE header when it is
    a SELF.  When the ELF loader fails, the dispatcher logs it and returns
    -1 at once, with [*entry] null: the data are not freed, and no block
    has been freed since the image was acquired.  When the ELF loader
    succeeds the data are freed, by the address of the image in both
    cases, and the result is that of the freeing. *)
Theorem uvl_load_exe_dispatch fuel filename (w w1 w2 : World K)
  data size hdr msg rc e :
  uvl_load_file filename w = Some ((0, Some data, size), w1) ->
  container (mem w1) data = Some (hdr, msg) ->
  uvl_load_elf fuel hdr w1 = Some ((rc, e), w2) ->
  (rc < 0 ->
   uvl_load_exe fuel filename w
   = Some ((-1, NULL), logged w2 [ELog msg]) /\
   forall blk rcf,
     ~ In (EFreeMemBlock blk rcf) (new_events w1 (logged w2 [ELog msg]))) /\
  (0 <= rc ->
   uvl_load_exe fuel filename w = free_and_return data e w2).
Proof.
  intros E0 Hc E1.
  destruct (uvl_load_elf_trace _ _ _ _ _ _ E1)
    as (t1 & t2 & t3 & Ht & H1 & H2 & _ & H3 & Hrc & He).
  assert (Erun : uvl_load_exe fuel filename w
                 = if rc <? 0 then Some ((-1, e), logged w2 [ELog msg])
                   else free_and_return data e w2).
  { unfold uvl_load_exe, bind at 1. rewrite E0.
    change (0 <? 0) with false. cbv iota.
    unfold bind at 1, get_mem at 1. rewrite Z.add_0_r.
    unfold container in Hc.
    destruct (load8 (mem w1) data =? ELFMAG0).
    - destruct (_ && _); [| discriminate]. injection Hc as <- <-.
      unfold bind at 1. rewrite E1. destruct (rc <? 0); reflexivity.
    - destruct (load8 (mem w1) data =? SCEMAG0); [| discriminate].
      destruct (_ && _); [| discriminate]. injection Hc as <- <-.
      unfold bind at 1. rewrite E1. destruct (rc <? 0); reflexivity. }
  rewrite Erun. split; intros Hr.
  - destruct (Z.ltb_spec rc 0); [| lia]. rewrite He by lia.
    split; [reflexivity |]. intros blk rcf Hin.
    rewrite (new_events_app w1 _ (t1 ++ t2 ++ t3 ++ [ELog msg])) in Hin
      by (cbn [logged trace]; rewrite Ht, <- !app_assoc; reflexivity).
    rewrite Forall_forall in H1, H2, H3.
    repeat (apply in_app_or in Hin as [Hin | Hin]);
      [ specialize (H1 _ Hin) | specialize (H2 _ Hin) | specialize (H3 _ Hin)
      | destruct Hin as [Hin | []] ]; discriminate.
  - destruct (Z.ltb_spec rc 0); [lia | reflexivity].
Qed.

(** *** More on the module information *)

Lemma s32_range x : - 2 ^ 31 <= s32 x < 2 ^ 31.
Proof.
  unfold s32. pose proof (u32_range x).
  destruct (Z.ltb_spec (u32 x) (2 ^ 31)); lia.
Qed.

Lemma find_section_first (m : Mem) data hdr idx (n : nat) :
  forall i0 i,
    i0 <= i < i0 + Z.of_nat n ->
    get m (section_at m data hdr i) sh_name = u32 idx ->
    (forall i', i0 <= i' < i ->
                get m (section_at m data hdr i') sh_name <> u32 idx) ->
    find_section m data hdr idx n i0
    = Some (u32 (data + get m (section_at m data hdr i) sh_offset)).
Proof.
  induction n as [| n IH]; intros i0 i Hi He Hfirst; [lia |].
  cbn [find_section]. fold (section_at m data hdr i0).
  destruct (Z.eqb_spec (get m (section_at m data hdr i0) sh_name) (u32 idx))
    as [He0 | Hne0].
  - destruct (Z.eq_dec i i0) as [-> | Hne]; [reflexivity |].
    exfalso. apply (Hfirst i0); [lia | exact He0].
  - destruct (Z.eq_dec i i0) as [-> | Hne]; [contradiction |].
    apply IH; [lia | exact He |]. intros i' Hi'. apply Hfirst. lia.
Qed.

Lemma find_section_none (m : Mem) data hdr idx (n : nat) :
  forall i0,
    (forall i, i0 <= i < i0 + Z.of_nat n ->
               get m (section_at m data hdr i) sh_name <> u32 idx) ->
    find_section m data hdr idx n i0 = None.
Proof.
  induction n as [| n IH]; intros i0 Hno; [reflexivity |].
  cbn [find_section]. fold (section_at m data hdr i0).
  destruct (Z.eqb_spec (get m (section_at m data hdr i0) sh_name) (u32 idx))
    as [He | _].
  - exfalso. apply (Hno i0); [lia | exact He].
  - apply IH. intros i Hi. apply Hno. lia.
Qed.

Lemma uvl_elf_get_module_info_unfold data elf_hdr (w : World K) :
  uvl_elf_get_module_info data elf_hdr w
  = if name_index (mem w) data elf_hdr <=? 0 then
      Some (None, logged w [ELog "Cannot find section %s in string table."])
    else
      Some (find_section (mem w) data elf_hdr (name_index (mem w) data elf_hdr)
              (Z.to_nat (get (mem w) elf_hdr e_shnum)) 0, w).
Proof.
  unfold uvl_elf_get_module_info, bind, get_mem, LOG, emit, ret, logged.
  fold (names_header (mem w) data elf_hdr).
  fold (names_table (mem w) data elf_hdr).
  fold (name_found (mem w) data elf_hdr).
  fold (name_index (mem w) data elf_hdr).
  destruct (_ <=? 0); reflexivity.
Qed.

(** X9: The search for the section of the module information, the name of
    the section being at a positive index of the table of names: the
    function returns zero with the start of the first of the [e_shnum]
    sections whose name is at that index, and -1, without a message, when
    no section has it.  Nothing is written and no service is called. *)
Theorem uvl_elf_get_module_info_search data elf_hdr (w : World K) :
  let m := mem w in
  let idx := name_index m data elf_hdr in
  let section := section_at m data elf_hdr in
  0 < idx ->
  (forall i,
      0 <= i < get m elf_hdr e_shnum ->
      get m (section i) sh_name = idx ->
      (forall i', 0 <= i' < i -> get m (section i') sh_name <> idx) ->
      uvl_elf_get_module_info data elf_hdr w
      = Some (Some (u32 (data + get m (section i) sh_offset)), w)) /\
  ((forall i, 0 <= i < get m elf_hdr e_shnum ->
              get m (section i) sh_name <> idx) ->
   uvl_elf_get_module_info data elf_hdr w = Some (None, w)).
Proof.
  intros m idx section Hidx.
  assert (Hu : u32 idx = idx).
  { apply u32_small. pose proof (s32_range
      (name_found m data elf_hdr - names_table m data elf_hdr)).
    unfold idx, name_index in *. lia. }
  rewrite uvl_elf_get_module_info_unfold. fold m idx.
  destruct (Z.leb_spec idx 0); [lia |].
  pose proof (get_nonneg m elf_hdr e_shnum) as Hn.
  split.
  - intros i Hi He Hfirst. f_equal. f_equal.
    apply find_section_first; rewrite ?Hu; try assumption.
    rewrite Z2Nat.id by assumption. lia.
  - intros Hno. f_equal. f_equal. apply find_section_none.
    intros i Hi. rewrite Hu. apply Hno. rewrite Z2Nat.id in Hi by assumption.
    lia.
Qed.

(** X10: The index of the name is the difference of two pointers taken as an
    [int], and the name counts as missing when it is not positive.  So a
    name that [memstr] finds at the very start of the table is reported
    as missing.  And when [memstr] answers a null pointer for a table
    that lies above 2^31, the difference is positive: nothing is
    reported, and the sections are searched for the name at the index
    2^32 minus the address of the table. *)
Theorem uvl_elf_get_module_info_index data elf_hdr (w : World K) :
  let m := mem w in
  let strings := names_table m data elf_hdr in
  (name_found m data elf_hdr = strings ->
   uvl_elf_get_module_info data elf_hdr w
   = Some (None, logged w [ELog "Cannot find section %s in string table."])) /\
  (name_found m data elf_hdr = NULL -> 2 ^ 31 < strings ->
   uvl_elf_get_module_info data elf_hdr w
   = Some (find_section m data elf_hdr (2 ^ 32 - strings)
             (Z.to_nat (get m elf_hdr e_shnum)) 0, w)).
Proof.
  intros m strings. rewrite uvl_elf_get_module_info_unfold. fold m.
  unfold name_index. fold strings. split.
  - intros ->. rewrite Z.sub_diag. reflexivity.
  - intros -> Hs. unfold NULL.
    assert (Hr : 0 <= strings < 2 ^ 32) by apply u32_range.
    assert (E : s32 (0 - strings) = 2 ^ 32 - strings).
    { unfold s32. rewrite u32_neg by lia.
      destruct (Z.ltb_spec (0 - strings + 2 ^ 32) (2 ^ 31)); lia. }
    rewrite E. destruct (Z.leb_spec (2 ^ 32 - strings) 0); [lia | reflexivity].
Qed.

(** X11: An image without the section of the module information is refused
    before anything is done for it: the ELF loader returns -1, with
    [*entry] null, without having called a service, so no module has been
    unloaded and nothing allocated. *)
Theorem uvl_load_elf_no_module_info fuel data (w w1 : World K) :
  valid_header (mem w) data = true ->
  uvl_elf_get_module_info data data w = Some (None, w1) ->
  uvl_load_elf fuel data w
  = Some ((-1, NULL), logged w1 [ELog "Cannot find module info section."]) /\
  mem w1 = mem w /\ kern w1 = kern w /\
  calls (new_events w (logged w1 [ELog "Cannot find module info section."]))
  = [].
Proof.
  intros Hv Hi. split.
  - unfold uvl_load_elf, bind at 1. rewrite (uvl_elf_check_header_valid _ _ Hv).
    change (0 <? 0) with false. cbv iota.
    unfold bind at 1, get_mem at 1. unfold bind at 1. rewrite Hi. reflexivity.
  - destruct (uvl_elf_get_module_info_mem _ _ _ _ _ Hi) as (Hm & Hk & _).
    split; [exact Hm |]. split; [exact Hk |].
    apply uvl_elf_get_module_info_trace in Hi as [-> | [_ ->]].
    + rewrite (new_events_app w _ [ELog "Cannot find module info section."])
        by reflexivity.
      reflexivity.
    + rewrite (new_events_app w _
                 [ELog "Cannot find section %s in string table.";
                  ELog "Cannot find module info section."])
        by (cbn [logged trace]; rewrite <- app_assoc; reflexivity).
      reflexivity.
Qed.

(** *** More on the relocator, the resolution and the entry point *)

(** X7: One pass of the relocator by [k], on a descriptor that lies apart
    from its entry tables at the shifted bases.  The seven pointers of
    the descriptor have gained [k], modulo 2^32, and its counts are as
    they were.  The tables walked are those at the shifted bases, since
    the loops read the pointers after they have been shifted: when they
    do not meet, each of their entries has gained [k].  Nothing else in
    memory has changed: the NID tables and the name of the library are
    not touched, nor are the tables at the bases the descriptor had. *)
Theorem uvl_offset_import_pass import k (m : Mem) :
  let m' := uvl_offset_import import k m in
  let region ct := table_region m import ct k in
  imports_layout_ok = true ->
  header_apart ((import, sizeof_module_imports_t) :: map region import_tables)
  = true ->
  (forall f, In f import_pointers ->
             get m' import f = u32 (get m import f + k)) /\
  (forall g, In g import_counts -> get m' import g = get m import g) /\
  (forall a, 0 <= a < 2 ^ 32 ->
             outside (import, sizeof_module_imports_t) a ->
             (forall ct, In ct import_tables -> outside (region ct) a) ->
             m' a = m a) /\
  (regions_apart (map region import_tables) = true ->
   forall ct, In ct import_tables ->
   forall j, 0 <= j < get m import (fst ct) ->
             load32 m' (fst (region ct) + 4 * j)
             = u32 (load32 m (fst (region ct) + 4 * j) + k)).
Proof.
  intros m' region Hlayout Hheader.
  exact (pass_spec import k m Hlayout Hheader).
Qed.

(** The loop over the import descriptors with the function of [load.c]
    that loads the module of a library, which does nothing and returns
    zero. *)
Lemma resolve_imports_stub import end_ fuel :
  forall i (w : World K) r w',
    resolve_imports fuel uvl_load_module_for_lib import end_ i w
    = Some (r, w') ->
    exists tr,
      trace w' = trace w ++ tr /\
      (forall name rcl, In (ELoadModuleForLib name rcl) tr -> rcl = 0) /\
      List.length (filter is_resolve tr)
      = List.length (filter is_load_module tr) /\
      (forall msg, In (ELog msg) tr ->
                   msg = "Failed to resolve imports for %s" /\ r = Some (-1)) /\
      (forall d rcr, In (EResolveImports d rcr) tr -> rcr < 0 -> r = Some (-1)).
Proof.
  induction fuel as [| fuel IH]; intros i w r w' E; [discriminate |].
  cbn [resolve_imports] in E.
  destruct (negb (u32 (import + i * sizeof_module_imports_t) <? end_)).
  - unfold ret in E. injection E as <- <-. exists []. rewrite app_nil_r.
    repeat split; intros; try contradiction.
  - unfold bind at 1, get_mem at 1 in E. unfold bind at 1, call_mem at 1 in E.
    unfold uvl_load_module_for_lib at 1 in E.
    cbv beta iota zeta in E. cbn [mem kern trace] in E.
    change (0 <? 0) with false in E. cbv iota in E.
    unfold bind at 1, call_mem at 1 in E. cbv beta iota zeta in E.
    cbn [mem kern trace] in E.
    destruct (uvl_resolve_imports _ (kern w) (mem w)) as [[rcr k2] m2].
    cbv beta iota zeta in E. cbn [mem kern trace] in E.
    destruct (Z.ltb_spec rcr 0) as [Hrcr | Hrcr].
    + unfold bind, LOG, emit, ret in E. cbv beta iota zeta in E.
      cbn [mem kern trace] in E. injection E as <- <-.
      eexists [_; _; _]. cbn [trace].
      split; [rewrite <- !app_assoc; reflexivity |].
      repeat split; try (intros ? ? Hin); try (intros ? Hin); intros;
        in_cases; auto.
    + destruct (IH _ _ _ _ E) as (tr & Ht & Hl & Hn & Hm & Hf).
      cbn [trace] in Ht.
      eexists (_ :: _ :: tr).
      split; [rewrite Ht, <- !app_assoc; reflexivity |].
      split; [| split; [| split]].
      * intros name rcl [Hin | [Hin | Hin]]; try discriminate;
          [injection Hin as _ <-; reflexivity | exact (Hl _ _ Hin)].
      * cbn [filter is_resolve is_load_module List.length]. now rewrite Hn.
      * intros msg [Hin | [Hin | Hin]]; try discriminate. exact (Hm _ Hin).
      * intros d rc [Hin | [Hin | Hin]] Hneg; try discriminate;
          [injection Hin as _ <-; lia | exact (Hf _ _ Hin Hneg)].
Qed.

(** X20: In the ELF loader the function that loads the module of a library
    is the one of [load.c], which does nothing and returns zero.  So no
    import descriptor is ever skipped: in every run of the block that
    resolves the NIDs each call of that function answers zero and is
    followed by the call of the resolver on the descriptor, the message
    that a module cannot be loaded is never logged, and the first failure
    of the resolver ends the load with -1. *)
Theorem resolve_nids_never_skips fuel prog_hdrs mod_info (w w' : World K) r :
  resolve_nids fuel uvl_load_module_for_lib prog_hdrs mod_info w
  = Some (r, w') ->
  let tr := new_events w w' in
  (forall name rcl, In (ELoadModuleForLib name rcl) tr -> rcl = 0) /\
  List.length (filter is_resolve tr) = List.length (filter is_load_module tr) /\
  (forall msg, In (ELog msg) tr ->
               msg = "Failed to resolve imports for %s" /\ r = Some (-1)) /\
  (forall d rcr, In (EResolveImports d rcr) tr -> rcr < 0 -> r = Some (-1)).
Proof.
  unfold resolve_nids, bind, get_mem. intros E.
  destruct (resolve_imports_stub _ _ _ _ _ _ _ E) as (tr & Ht & Hrest).
  cbv zeta. rewrite (new_events_app w w' tr Ht). exact Hrest.
Qed.

Lemma find_entry_never_ends (m : Mem) export end_ :
  (forall i, export_at export i < end_
             /\ ~ holds_entry m (export_at export i)) ->
  forall fuel i, find_entry fuel m export end_ i = None.
Proof.
  intros Hall. induction fuel as [| fuel IH]; intros i; [reflexivity |].
  cbn [find_entry]. fold (export_at export i).
  destruct (Hall i) as [Hlt Hno].
  destruct (Z.ltb_spec (export_at export i) end_); [| lia]. cbn [negb].
  destruct (scan_nids_passed m _ Hno) as [Ha | Hs].
  - destruct (Z.eqb_spec (get m (export_at export i) attribute) ATTR_MOD_INFO);
      [contradiction |]. cbn [negb]. apply IH.
  - rewrite Hs.
    destruct (get m (export_at export i) attribute =? ATTR_MOD_INFO);
      cbn [negb]; apply IH.
Qed.

(** X21: The loop that looks for the entry point ends only on a descriptor
    that holds the entry or on one that is not below the end of the
    table.  When the counter, which wraps at 2^32, never reaches either,
    the block does not return, whatever the number of turns it is
    given: the load hangs instead of failing. *)
Theorem find_entry_point_never_ends prog_hdrs mod_info (w : World K) :
  let m := mem w in
  let export := u32 (get m prog_hdrs p_vaddr + get m mod_info ent_top) in
  let end_ := u32 (get m prog_hdrs p_vaddr + get m mod_info ent_end) in
  (forall i, export_at export i < end_
             /\ ~ holds_entry m (export_at export i)) ->
  forall fuel, find_entry_point fuel prog_hdrs mod_info w = None.
Proof.
  intros m export end_ Hall fuel.
  unfold find_entry_point, bind, get_mem. fold m export end_.
  rewrite (find_entry_never_ends m export end_ Hall). reflexivity.
Qed.

(** X18: The loop over the program headers ends, whatever the services
    answer and whatever the copies overwrite, the header of the image
    included: the counter grows at every turn and the count of the
    program headers, read anew at every turn, stays below
    [256 ^ f_len e_phnum]. *)
Theorem load_program_sections_returns fuel data hdr prog_hdrs (w : World K) :
  (Z.to_nat (256 ^ Z.of_nat (f_len e_phnum)) < fuel)%nat ->
  exists r w', load_program_sections fuel data hdr prog_hdrs w = Some (r, w').
Proof.
  intros Hf. unfold load_program_sections, bind, get_mem.
  destruct (get (mem w) hdr e_phnum <? 1).
  - unfold LOG, emit, ret. eauto.
  - destruct (load_segments_returns data hdr prog_hdrs
                (Z.to_nat (256 ^ Z.of_nat (f_len e_phnum)))
                0 fuel indeterminate w) as (r & w' & ->).
    + rewrite Z2Nat.id; [lia |]. apply Z.pow_nonneg. lia.
    + exact Hf.
    + destruct r; unfold ret; eauto.
Qed.

(** *** The blocks asked for an image *)

Lemma requests_app tr1 tr2 : requests (tr1 ++ tr2) = requests tr1 ++ requests tr2.
Proof. apply flat_map_app. Qed.

Lemma turn_requests (m : Mem) data ph blk rc b1 :
  requests (allocation_of m ph blk :: EGetMemBlockBase blk rc b1
            :: base_messages m ph rc b1 ++ segment_copy m data ph b1)
  = [requested m ph].
Proof.
  unfold allocation_of, base_messages, segment_copy, requested.
  destruct (Z.odd _); destruct (rc <? 0); destruct (negb _); reflexivity.
Qed.

Lemma turn_granted_bases (m : Mem) data ph blk rc b1 :
  granted_bases (allocation_of m ph blk :: EGetMemBlockBase blk rc b1
                 :: base_messages m ph rc b1 ++ segment_copy m data ph b1)
  = [b1].
Proof.
  unfold allocation_of, base_messages, segment_copy.
  destruct (Z.odd _); destruct (rc <? 0); destruct (negb _); reflexivity.
Qed.

Section SegmentRequests.

Variables (data size prog_hdrs : Z) (m0 : Mem) (n : nat).

Hypothesis Himage : image_within m0 data size prog_hdrs n = true.
Hypothesis Hcount : get m0 data e_phnum = Z.of_nat n.

Lemma load_segments_requests (k : nat) :
  forall i fuel b (w w' : World K) b',
    0 <= i -> i + Z.of_nat k = Z.of_nat n ->
    (forall a, data <= a < data + size -> mem w a = m0 a) ->
    load_segments fuel data data prog_hdrs i b w = Some (inr b', w') ->
    separate m0 data size prog_hdrs
      (combine (filter (fun j => is_loadable m0 (phdr_at prog_hdrs j))
                       (zrange i k))
               (granted_bases (new_events w w'))) = true ->
    requests (new_events w w')
    = map (fun j => requested m0 (phdr_at prog_hdrs j))
          (filter (fun j => is_loadable m0 (phdr_at prog_hdrs j)) (zrange i k)).
Proof.
  induction k as [| k IH]; intros i fuel b w w' b' Hi Hk Hag E;
    (destruct fuel as [| fuel]; [discriminate |]).
  - rewrite load_segments_end in E
      by (rewrite (agrees_count data size prog_hdrs m0 n Himage Hcount)
            by assumption; lia).
    injection E as _ <-.
    rewrite (new_events_app w w []) by now rewrite app_nil_r.
    reflexivity.
  - assert (Hlt : i < get (mem w) data e_phnum)
      by (rewrite (agrees_count data size prog_hdrs m0 n Himage Hcount)
            by assumption; lia).
    assert (Hin : 0 <= i < Z.of_nat n) by lia.
    cbn [zrange filter].
    destruct (is_loadable m0 (phdr_at prog_hdrs i)) eqn:Hl0.
    + assert (Hl : is_loadable (mem w) (phdr_at prog_hdrs i) = true)
        by (rewrite (agrees_loadable data size prog_hdrs m0 n Himage)
              by assumption; exact Hl0).
      destruct (allocate (mem w) (phdr_at prog_hdrs i) (kern w))
        as [blk k0] eqn:Ea.
      destruct (sceKernelGetMemBlockBase blk b k0) as [[rc b1] k1] eqn:Eb.
      rewrite (load_segments_step fuel data data prog_hdrs i b w
                 blk k0 rc b1 k1 Hlt Hl Ea Eb) in E.
      destruct (blk <? 0); [discriminate |].
      destruct (load_segments_extends _ _ _ _ _ _ _ _ _ E) as [tr Ht].
      cbn [trace] in Ht.
      set (turn := allocation_of (mem w) (phdr_at prog_hdrs i) blk
                   :: EGetMemBlockBase blk rc b1
                   :: base_messages (mem w) (phdr_at prog_hdrs i) rc b1
                   ++ segment_copy (mem w) data (phdr_at prog_hdrs i) b1) in *.
      rewrite (new_events_app w w' (turn ++ tr))
        by (rewrite Ht, <- app_assoc; reflexivity).
      rewrite granted_bases_app, requests_app.
      unfold turn. rewrite turn_granted_bases, turn_requests.
      cbn [app combine map]. intros Hsep. cbn [separate fst snd] in Hsep.
      apply andb_prop in Hsep as [Hsep Hrest].
      apply andb_prop in Hsep as [Hsep _].
      apply andb_prop in Hsep as [Hsep Hap].
      apply andb_prop in Hsep as [Hb1 Hspace].
      apply Z.leb_le in Hb1, Hspace.
      f_equal.
      * unfold requested.
        rewrite !(agrees_entry data size prog_hdrs m0 n Himage (mem w) i)
          by (try assumption; cbn [In]; auto 10).
        reflexivity.
      * match type of E with
        | load_segments _ _ _ _ _ _ ?w1 = _ =>
          rewrite <- (new_events_app w1 w' tr) by (cbn [trace]; exact Ht);
          apply (IH (i + 1) fuel b1 w1 w' b'); try lia; try exact E
        end.
        -- cbn [mem].
           apply (copy_segment_agrees data size prog_hdrs m0 n Himage);
             assumption.
        -- rewrite (new_events_app _ w' tr) by (cbn [trace]; exact Ht).
           exact Hrest.
    + assert (Hl : is_loadable (mem w) (phdr_at prog_hdrs i) = false)
        by (rewrite (agrees_loadable data size prog_hdrs m0 n Himage)
              by assumption; exact Hl0).
      rewrite load_segments_skip in E by assumption.
      exact (IH (i + 1) fuel b w w' b' ltac:(lia) ltac:(lia) Hag E).
Qed.

End SegmentRequests.

(** X16: The blocks that the block of [uvl_load_elf] that loads the program
    sections asks of the kernel, in a run as that of C3: one block for
    each loadable entry of the image, in the order of the program
    headers, a block of code when the lowest bit of the flags of the
    entry is set and a block of data otherwise, of the size in memory of
    the entry rounded to 2^20; nothing is asked for the entries that are
    not loadable. *)
Theorem load_program_sections_requests fuel data size prog_hdrs
  (w w' : World K) :
  let m := mem w in
  let n := Z.to_nat (get m data e_phnum) in
  let placed := combine (loadable_entries m prog_hdrs n)
                        (granted_bases (new_events w w')) in
  image_within m data size prog_hdrs n = true ->
  load_program_sections fuel data data prog_hdrs w = Some (None, w') ->
  separate m data size prog_hdrs placed = true ->
  requests (new_events w w')
  = map (fun i => requested m (phdr_at prog_hdrs i))
        (loadable_entries m prog_hdrs n).
Proof.
  intros m n placed Himage Hrun Hsep.
  destruct (load_program_sections_done _ _ _ _ _ _ Hrun) as [b' E].
  assert (Hcount : get m data e_phnum = Z.of_nat n).
  { unfold n. rewrite Z2Nat.id; [reflexivity |]. apply get_nonneg. }
  exact (load_segments_requests data size prog_hdrs m n Himage Hcount
           n 0 fuel indeterminate w w' b'
           ltac:(lia) ltac:(lia) ltac:(intros a _; reflexivity) E Hsep).
Qed.

(** X6: The dispatch on an image that is no container: its first four bytes
    are neither the magic of an ELF nor that of a SELF.  When the first
    byte starts neither magic the dispatcher logs [Invalid magic.] and
    returns -1, the block of the image staying allocated.  When the first
    byte is that of one of the magics and the following three are not,
    the image is given to no loader and nothing is logged: the data are
    freed, and the dispatcher returns what the freeing returns, zero when
    it succeeds, with [*entry] null. *)
Theorem uvl_load_exe_no_container fuel filename (w w1 : World K) data size :
  uvl_load_file filename w = Some ((0, Some data, size), w1) ->
  container (mem w1) data = None ->
  (load8 (mem w1) data <> ELFMAG0 -> load8 (mem w1) data <> SCEMAG0 ->
   uvl_load_exe fuel filename w
   = Some ((-1, NULL), logged w1 [ELog "Invalid magic."])) /\
  (load8 (mem w1) data = ELFMAG0 \/ load8 (mem w1) data = SCEMAG0 ->
   uvl_load_exe fuel filename w = free_and_return data NULL w1).
Proof.
  intros E0 Hc.
  assert (Erun : uvl_load_exe fuel filename w
                 = if (load8 (mem w1) data =? ELFMAG0)
                      || (load8 (mem w1) data =? SCEMAG0)
                   then free_and_return data NULL w1
                   else Some ((-1, NULL), logged w1 [ELog "Invalid magic."])).
  { unfold uvl_load_exe, bind at 1. rewrite E0.
    change (0 <? 0) with false. cbv iota.
    unfold bind at 1, get_mem at 1. rewrite Z.add_0_r.
    unfold container in Hc.
    destruct (load8 (mem w1) data =? ELFMAG0).
    - destruct (_ && _); [discriminate | reflexivity].
    - destruct (load8 (mem w1) data =? SCEMAG0); [| reflexivity].
      destruct (_ && _); [discriminate | reflexivity]. }
  rewrite Erun.
  destruct (Z.eqb_spec (load8 (mem w1) data) ELFMAG0) as [He | He];
    destruct (Z.eqb_spec (load8 (mem w1) data) SCEMAG0) as [Hs | Hs];
    cbn [orb]; split; intros; try reflexivity; try contradiction.
  match goal with Hor : _ \/ _ |- _ => destruct Hor; contradiction end.
Qed.

(** *** A load that succeeds *)

(** X25: The ELF loader from its stages: on an image with a valid header
    whose module information is found, when the reclamation succeeds, the
    program sections are loaded and the imports resolved, the loader
    returns zero with the entry of the export table of the image as it
    lies in memory after the loading: the entry [j] of the parallel table
    of the first descriptor [i] that has the tag of the module
    information and holds the identifier of the entry point, [j] being
    the first index where it does. *)
Theorem uvl_load_elf_success fuel data mod_info rc0 (w w1 w2 w3 : World K)
  (i : nat) (j : Z) :
  let prog_hdrs := u32 (data + get (mem w) data e_phoff) in
  let m := mem w3 in
  let export := u32 (get m prog_hdrs p_vaddr + get m mod_info ent_top) in
  let end_ := u32 (get m prog_hdrs p_vaddr + get m mod_info ent_end) in
  valid_header (mem w) data = true ->
  uvl_elf_get_module_info data data w = Some (Some mod_info, w) ->
  uvl_elf_free_memory prog_hdrs (get (mem w) data e_phnum) w
  = Some (rc0, w1) ->
  0 <= rc0 ->
  load_program_sections fuel data data prog_hdrs w1 = Some (None, w2) ->
  resolve_nids fuel uvl_load_module_for_lib prog_hdrs mod_info w2
  = Some (None, w3) ->
  Z.of_nat i < 2 ^ 32 - 1 ->
  (forall i', 0 <= i' < Z.of_nat i ->
              export_at export i' < end_
              /\ ~ holds_entry m (export_at export i')) ->
  export_at export (Z.of_nat i) < end_ ->
  get m (export_at export (Z.of_nat i)) attribute = ATTR_MOD_INFO ->
  0 <= j < get m (export_at export (Z.of_nat i)) exports_num_functions ->
  nid_at m (export_at export (Z.of_nat i)) j = ENTRY_NID ->
  (forall j', 0 <= j' < j ->
              nid_at m (export_at export (Z.of_nat i)) j' <> ENTRY_NID) ->
  (i < fuel)%nat ->
  uvl_load_elf fuel data w
  = Some ((0, entry_at m (export_at export (Z.of_nat i)) j), w3).
Proof.
  intros prog_hdrs m export end_ Hv Hi Hfree Hrc0 Hseg Hres
    Hn Hpass Hlt Ha Hj He Hfirst Hf.
  unfold uvl_load_elf, bind at 1. rewrite (uvl_elf_check_header_valid _ _ Hv).
  change (0 <? 0) with false. cbv iota.
  unfold bind at 1, get_mem at 1. unfold bind at 1. rewrite Hi.
  unfold bind at 1, get_mem at 1. unfold bind at 1. fold prog_hdrs.
  rewrite Hfree.
  destruct (Z.ltb_spec rc0 0); [lia |].
  unfold bind at 1. rewrite Hseg. unfold bind at 1. rewrite Hres.
  unfold find_entry_point, bind, get_mem. fold m export end_.
  rewrite (find_entry_passes m export end_ i 0 fuel) by (try lia; exact Hpass).
  rewrite Z.add_0_l.
  destruct (fuel - i)%nat as [| fuel'] eqn:Ef; [lia |]. cbn [find_entry].
  fold (export_at export (Z.of_nat i)).
  destruct (Z.ltb_spec (export_at export (Z.of_nat i)) end_); [| lia].
  rewrite Ha, Z.eqb_refl. cbn [negb].
  rewrite (scan_nids_found m _ _ 0 j); try assumption; [reflexivity | lia].
Qed.

End Properties.

(** ** Examples on the scripted platform *)

(** C1 fails on the code: an image that starts with the first byte of the
    magic of an ELF and does not go on with the rest is not given to the
    ELF loader, and [uvl_load_exe] returns zero, with [*entry] null, after
    it has freed the data. *)
Theorem uvl_load_exe_accepts_partial_magic :
  observe (uvl_load_exe 1 "app"
             (world_of zero_mem
                (script partial_magic_file 0 [0x1000] []
                   (fun _ => 0) (fun _ => 0))))
  = Some ((0, NULL),
          [EIoOpen "app" 3; EAllocMemBlock "UVLTemp" 0xC20D060 0x2000000 1;
           EGetMemBlockBase 1 0 0x1000; EIoRead 3 0x1000 0x2000000 4;
           EIoClose 3 0; EFindMemBlockByAddr 0x1000 1; EFreeMemBlock 1 0]).
Proof. vm_compute. reflexivity. Qed.

(** C4, as stated, fails: the file is opened, the block allocated and
    located, seven bytes are read, the closing fails, and [uvl_load_file]
    returns -1 without the buffer. *)
Lemma uvl_load_file_close_failure_is_fatal :
  observe (uvl_load_file "app"
             (world_of zero_mem
                (script wrong_class_file (-1) [0x1000] []
                   (fun _ => 0) (fun _ => 0))))
  = Some ((-1, None, Some 7),
          [EIoOpen "app" 3; EAllocMemBlock "UVLTemp" 0xC20D060 0x2000000 1;
           EGetMemBlockBase 1 0 0x1000; EIoRead 3 0x1000 0x2000000 7;
           EIoClose 3 (-1); ELog "Failed to close file."]).
Proof. vm_compute. reflexivity. Qed.

Lemma uvl_load_file_close_witness :
  let k := script wrong_class_file (-1) [0x1000] [] (fun _ => 0) (fun _ => 0) in
  let k' := script wrong_class_file (-1) [] [] (fun _ => 0) (fun _ => 0) in
  exists tr,
    uvl_load_file "app" (world_of zero_mem k)
    = Some (if -1 <? 0 then (-1, None, Some 7) else (0, Some 0x1000, Some 7),
            mkWorld (write_bytes zero_mem 0x1000 wrong_class_file) k' ([] ++ tr))
    /\ (-1 < 0 ->
        exists tr', tr = tr' ++ [EIoClose 3 (-1); ELog "Failed to close file."]).
Proof.
  intros k k'.
  apply (uvl_load_file_close "app" (world_of zero_mem k)
           3 k 1 k 0 0x1000 k' 7 k'
           (write_bytes zero_mem 0x1000 wrong_class_file) (-1) k');
    first [reflexivity | lia].
Defined.

(** C5, as stated, fails: on an image whose header has the class of a
    64-bit ELF, [uvl_load_exe] fails on the header after it has allocated
    the block of the image. *)
Lemma uvl_load_exe_invalid_header_allocates :
  let w := world_of zero_mem
             (script wrong_class_file 0 [0x1000] [] (fun _ => 0) (fun _ => 0)) in
  valid_header (write_bytes zero_mem 0x1000 wrong_class_file) 0x1000 = false /\
  exists w',
    uvl_load_exe 1 "app" w = Some ((-1, NULL), w') /\
    In (ELog "Check header failed.") (trace w') /\
    ~ no_allocation (trace w').
Proof.
  split; [vm_compute; reflexivity |].
  eexists. split; [vm_compute; reflexivity |]. split.
  - cbn. auto 10.
  - intros Hn.
    specialize (Hn (EAllocMemBlock "UVLTemp" 0xC20D060 0x2000000 1)).
    cbn in Hn. discriminate Hn. auto.
Qed.

Lemma uvl_load_elf_invalid_header_witness :
  let w := world_of (write_bytes zero_mem 0x1000 wrong_class_file)
             (script [] 0 [] [] (fun _ => 0) (fun _ => 0)) in
  exists reason,
    uvl_load_elf 1 0x1000 w
    = Some ((-1, NULL), logged w [ELog reason; ELog "Check header failed."])
    /\ no_allocation [ELog reason; ELog "Check header failed."].
Proof.
  intros w. apply (uvl_load_elf_invalid_header 1 0x1000 w).
  vm_compute. reflexivity.
Defined.


(** The run of that witness: the occupant is unloaded before the load
    fails for the lack of program headers. *)
Example uvl_load_elf_no_segment_run :
  observe (uvl_load_elf 1 0x1000
             (world_of no_segment_image
                (script [] 0 [] three_modules (fun _ => 0) (fun _ => 0))))
  = Some ((-1, NULL),
          [EGetModuleList 0 [10; 11; 12];
           EGetModuleInfo 10 0 (module_at "occupant" 0x81000000);
           EStopUnloadModule 10 0;
           EGetModuleInfo 11 (-1) (module_at "unknown" 0x81000000);
           ELog "Error getting info for mod 0x%08X, continuing";
           EGetModuleInfo 12 0 (module_at "elsewhere" 0x82000000);
           ELog "No program sections to load!"]).
Proof. vm_compute. reflexivity. Qed.

(** The run of the block that loads the program sections on the image
    with two segments. *)
Example load_program_sections_run :
  observe (load_program_sections 4 0x1000 0x1000 0x1034 two_segment_world)
  = Some (None,
          [EAllocCodeMemBlock "UVLHomebrew" 0x100000 1;
           EGetMemBlockBase 1 0 0x81000000;
           EUnlockMem; EMemcpy 0x81000000 0x1380 4;
           EMemset 0x81000004 0 4; ELockMem;
           EAllocMemBlock "UVLHomebrew" 0xC20D060 0x100000 1;
           EGetMemBlockBase 1 0 0x81100000;
           EUnlockMem; EMemcpy 0x81100000 0x1384 2;
           EMemset 0x81100002 0 0; ELockMem]).
Proof. vm_compute. reflexivity. Qed.


(** The entries placed in that run, and their blocks. *)
Example load_program_sections_placed :
  let w := two_segment_world in
  let w' := final_world
              (load_program_sections 4 0x1000 0x1000 0x1034 w) w in
  combine (loadable_entries (mem w) 0x1034 3)
          (granted_bases (new_events w w'))
  = [(0, 0x81000000); (2, 0x81100000)].
Proof. vm_compute. reflexivity. Qed.

(** The bytes of the first block after the run: the four bytes of the
    file, then four zeros, in a memory that held 0xAA. *)
Example load_program_sections_bytes :
  let w' := final_world
              (load_program_sections 4 0x1000 0x1000 0x1034 two_segment_world)
              two_segment_world in
  map (load8 (mem w')) (map (Z.add 0x81000000) [0; 1; 2; 3; 4; 5; 6; 7; 8])
  = [0xDE; 0xAD; 0xBE; 0xEF; 0; 0; 0; 0; 0xAA].
Proof. vm_compute. reflexivity. Qed.

(** C2, as stated, fails: the descriptor has two functions, the first
    entry of their table is 0x81001000, and after the pass by 0x100000 and
    the pass back it is 0x80F01000. *)
Lemma uvl_offset_import_entries_not_restored :
  let m := relocation_example in
  let m'' := uvl_offset_import 0x2000 (- 0x100000)
               (uvl_offset_import 0x2000 0x100000 m) in
  get m 0x2000 imports_num_functions = 2 /\
  get m 0x2000 func_entry_table = 0x3000 /\
  load32 m 0x3000 = 0x81001000 /\
  load32 m'' 0x3000 = 0x80F01000.
Proof. vm_compute. repeat split; reflexivity. Qed.

Lemma uvl_offset_import_round_trip_witness :
  let m := relocation_example in
  let m' := uvl_offset_import 0x2000 0x100000 m in
  let m'' := uvl_offset_import 0x2000 (- 0x100000) m' in
  (forall f, In f import_pointers -> get m'' 0x2000 f = get m 0x2000 f) /\
  (regions_apart (relocation_regions m 0x2000 0x100000) = true ->
   forall ct, In ct import_tables ->
   forall j, 0 <= j < get m 0x2000 (fst ct) ->
     load32 m'' (get m 0x2000 (snd ct) + 4 * j)
     = u32 (load32 m (get m 0x2000 (snd ct) + 4 * j) - 0x100000) /\
     load32 m'' (u32 (get m 0x2000 (snd ct) + 0x100000) + 4 * j)
     = u32 (load32 m (u32 (get m 0x2000 (snd ct) + 0x100000) + 4 * j)
            + 0x100000)).
Proof.
  intros m.
  apply (uvl_offset_import_round_trip 0x2000 0x100000 m);
    vm_compute; reflexivity.
Defined.

(** The tables of that descriptor do not meet, and its pointers and
    entries after the two passes. *)
Example uvl_offset_import_round_trip_run :
  let m := relocation_example in
  let m'' := uvl_offset_import 0x2000 (- 0x100000)
               (uvl_offset_import 0x2000 0x100000 m) in
  regions_apart (relocation_regions m 0x2000 0x100000) = true /\
  map (get m'' 0x2000) import_pointers
  = [0x9000; 0x9100; 0x3000; 0x9200; 0x4000; 0x9300; 0x5000] /\
  map (load32 m'') [0x3000; 0x3004; 0x4000; 0x103000; 0x103004; 0x104000]
  = [0x80F01000; 0x80F01010; 0x80F02000; 0x100000; 0x100000; 0x100000].
Proof. vm_compute. repeat split; reflexivity. Qed.

(** The run of the block that resolves the NIDs on the three import
    descriptors: the first is skipped, the second resolved, and the
    failure of the resolver on the third ends the block with -1. *)
Example resolve_nids_example :
  observe (resolve_nids 4 load_module_but_one 0x1034 0x1300 resident_world)
  = Some (Some (-1),
          [ELoadModuleForLib 0xA0 (-1);
           ELog "Cannot load required module for %s. May still be possible to resolve with cached entries. Continuing.";
           ELoadModuleForLib 0xA1 0; EResolveImports 0x81000134 0;
           ELoadModuleForLib 0xA2 0; EResolveImports 0x81000168 (-1);
           ELog "Failed to resolve imports for %s"]).
Proof. vm_compute. reflexivity. Qed.


(** The run of the block that finds the entry point: the first export
    descriptor is passed over, and the entry is that of the index 2 of
    the second. *)
Example find_entry_point_example :
  observe (find_entry_point 3 0x1034 0x1300 resident_world)
  = Some ((0, 0x81000031), []) /\
  observe (find_entry_point 3 0x1034 0x1340 resident_world)
  = Some ((-1, NULL), [ELog "Cannot find application entry."]).
Proof. split; vm_compute; reflexivity. Qed.



(** A run of the reclamation in which the unloading fails: the modules
    after the occupant are not visited. *)
Example uvl_elf_free_memory_example :
  observe (uvl_elf_free_memory 0x1034 0
             (world_of no_segment_image
                (script [] 0 [] three_modules (fun _ => -1) (fun _ => 0))))
  = Some (-1,
          [EGetModuleList 0 [10; 11; 12];
           EGetModuleInfo 10 0 (module_at "occupant" 0x81000000);
           EStopUnloadModule 10 (-1);
           ELog "Error unloading %s."]).
Proof. vm_compute. reflexivity. Qed.

(** The load of a whole executable: the file is read, no module is
    loaded, the segment is copied to its block, the import descriptor is
    resolved, the entry point is found in the resident copy of the export
    table, and the data are freed. *)
Example uvl_load_exe_example :
  observe (uvl_load_exe 3 "app" app_world)
  = Some ((0, 0x81000101),
          [EIoOpen "app" 3; EAllocMemBlock "UVLTemp" 0xC20D060 0x2000000 1;
           EGetMemBlockBase 1 0 0x1000; EIoRead 3 0x1000 0x2000000 0x500;
           EIoClose 3 0; EGetModuleList 0 [];
           EAllocCodeMemBlock "UVLHomebrew" 0x100000 1;
           EGetMemBlockBase 1 0 0x81000000; EUnlockMem;
           EMemcpy 0x81000000 0x1400 0x100; EMemset 0x81000100 0 0x100;
           ELockMem;
           ELoadModuleForLib 0x810000A0 0; EResolveImports 0x81000000 0;
           EFindMemBlockByAddr 0x1000 1; EFreeMemBlock 1 0]).
Proof. vm_compute. reflexivity. Qed.

(** ** More examples on the scripted platform *)

(** A run that has answered ends in its final world. *)
Lemma run_final {A : Type} (r : option (A * World Script)) (a : A)
  (w : World Script) :
  option_map fst r = Some a -> r = Some (a, final_world r w).
Proof.
  destruct r as [[a' w1] |]; cbn; intros E; [| discriminate].
  injection E as ->. reflexivity.
Defined.

Lemma align_1mb_multiple_witness :
  (2 ^ 20 | align_1mb 0xFFF00001) /\ 0 <= align_1mb 0xFFF00001 < 2 ^ 32 /\
  align_1mb (align_1mb 0xFFF00001) = align_1mb 0xFFF00001 /\
  (0xFFF00001 < 2 ^ 32 ->
   (align_1mb 0xFFF00001 = 0xFFF00001 <-> (2 ^ 20 | 0xFFF00001))).
Proof. apply (align_1mb_multiple 0xFFF00001). lia. Defined.

(** The first turn of the loop on the image with two segments: a block of
    code is asked for the first entry, whose flags are 5, and the segment
    is copied to the base granted. *)
Lemma load_segments_turn_calls_witness :
  let w := two_segment_world in
  let k1 := script [] 0 [0x81100000] [] (fun _ => 0) (fun _ => 0) in
  let m := mem w in
  let e := phdr_at 0x1034 0 in
  load_segments (S 3) 0x1000 0x1000 0x1034 0 0 w
  = if 1 <? 0 then
      Some (inl (-1),
            mkWorld m (kern w)
              (trace w ++ [allocation_of m e 1;
                           ELog "Error allocating memory. 0x%08X"]))
    else
      load_segments 3 0x1000 0x1000 0x1034 (0 + 1) 0x81000000
        (mkWorld (copy_segment m 0x1000 e 0x81000000)
           (psvLockMem (psvUnlockMem k1))
           (trace w ++ allocation_of m e 1 :: EGetMemBlockBase 1 0 0x81000000
              :: base_messages m e 0 0x81000000
              ++ segment_copy m 0x1000 e 0x81000000)).
Proof.
  intros w k1.
  apply (load_segments_turn_calls 3 0x1000 0x1000 0x1034 0 0 w
           1 (kern w) 0 0x81000000 k1);
    vm_compute; reflexivity.
Defined.

(** The request of that turn. *)
Example load_segments_turn_request :
  allocation_of two_segment_image (phdr_at 0x1034 0) 1
  = EAllocCodeMemBlock "UVLHomebrew" 0x100000 1 /\
  allocation_of two_segment_image (phdr_at 0x1034 2) 1
  = EAllocMemBlock "UVLHomebrew" 0xC20D060 0x100000 1.
Proof. split; vm_compute; reflexivity. Qed.

Lemma load_program_sections_nothing_loadable_witness :
  let w := world_of idle_image
             (script [] 0 [] [] (fun _ => 0) (fun _ => 0)) in
  load_program_sections 3 0x1000 0x1000 0x1034 w = Some (None, w).
Proof.
  intros w.
  apply (load_program_sections_nothing_loadable 3 0x1000 0x1000 0x1034 w);
    vm_compute; first [reflexivity | discriminate].
Defined.

Lemma load_program_sections_frame_witness :
  let w := two_segment_world in
  let w' := final_world
              (load_program_sections 4 0x1000 0x1000 0x1034 w) w in
  mem w' 0x1380 = mem w 0x1380.
Proof.
  intros w w'.
  apply (load_program_sections_frame 4 0x1000 0x400 0x1034 w w').
  - vm_compute. reflexivity.
  - apply run_final. vm_compute. reflexivity.
  - vm_compute. reflexivity.
  - lia.
  - intros i b Hin. left.
    assert (Hp : combine
                   (loadable_entries (mem w) 0x1034
                      (Z.to_nat (get (mem w) 0x1000 e_phnum)))
                   (granted_bases (new_events w w'))
                 = [(0, 0x81000000); (2, 0x81100000)])
      by (vm_compute; reflexivity).
    rewrite Hp in Hin.
    destruct Hin as [Hin | [Hin | []]]; injection Hin as <- <-; lia.
Defined.

Lemma load_program_sections_requests_witness :
  let w := two_segment_world in
  let w' := final_world
              (load_program_sections 4 0x1000 0x1000 0x1034 w) w in
  let m := mem w in
  let n := Z.to_nat (get m 0x1000 e_phnum) in
  requests (new_events w w')
  = map (fun i => requested m (phdr_at 0x1034 i))
        (loadable_entries m 0x1034 n).
Proof.
  intros w w'.
  apply (load_program_sections_requests 4 0x1000 0x400 0x1034 w w').
  - vm_compute. reflexivity.
  - apply run_final. vm_compute. reflexivity.
  - vm_compute. reflexivity.
Defined.

(** The blocks asked for the image with two segments. *)
Example load_program_sections_requests_run :
  let w := two_segment_world in
  requests (new_events w
              (final_world
                 (load_program_sections 4 0x1000 0x1000 0x1034 w) w))
  = [(true, 0x100000); (false, 0x100000)].
Proof. vm_compute. reflexivity. Qed.

Lemma load_program_sections_returns_witness :
  exists r w',
    load_program_sections
      (S (Z.to_nat (256 ^ Z.of_nat (f_len e_phnum)))) 0x1000 0x1000 0x1034
      two_segment_world
    = Some (r, w').
Proof.
  apply (load_program_sections_returns
           (S (Z.to_nat (256 ^ Z.of_nat (f_len e_phnum))))
           0x1000 0x1000 0x1034 two_segment_world).
  lia.
Defined.

(** The load of the executable [app_image], resident at the address
    zero: the ELF loader returns zero with the entry. *)
Example uvl_load_elf_example :
  observe (uvl_load_elf 3 0 resident_app_world)
  = Some ((0, 0x81000101),
          [EGetModuleList 0 [];
           EAllocCodeMemBlock "UVLHomebrew" 0x100000 1;
           EGetMemBlockBase 1 0 0x81000000; EUnlockMem;
           EMemcpy 0x81000000 0x400 0x100; EMemset 0x81000100 0 0x100;
           ELockMem;
           ELoadModuleForLib 0x810000A0 0; EResolveImports 0x81000000 0]).
Proof. vm_compute. reflexivity. Qed.

Lemma uvl_load_elf_result_witness :
  (0 = 0 \/ 0 = -1) /\ (0 = -1 -> 0x81000101 = NULL).
Proof.
  apply (uvl_load_elf_result 3 0 resident_app_world
           (final_world (uvl_load_elf 3 0 resident_app_world)
              resident_app_world) 0 0x81000101).
  apply run_final. vm_compute. reflexivity.
Defined.

Lemma uvl_load_elf_stages_witness :
  let w := resident_app_world in
  let w' := final_world (uvl_load_elf 3 0 w) w in
  ascending (stages (new_events w w')) = true /\
  ~ In 0%nat (stages (new_events w w')).
Proof.
  intros w w'.
  apply (uvl_load_elf_stages 3 0 w w' (0, 0x81000101)).
  apply run_final. vm_compute. reflexivity.
Defined.

(** The stages of the calls of that run. *)
Example uvl_load_elf_stages_run :
  let w := resident_app_world in
  stages (new_events w (final_world (uvl_load_elf 3 0 w) w))
  = [1; 2; 2; 2; 2; 2; 2; 3; 3]%nat.
Proof. vm_compute. reflexivity. Qed.

Lemma uvl_load_elf_protection_witness :
  let w := resident_app_world in
  let w' := final_world (uvl_load_elf 3 0 w) w in
  protection false (new_events w w') = Some false.
Proof.
  intros w w'.
  apply (uvl_load_elf_protection 3 0 w w' (0, 0x81000101)).
  apply run_final. vm_compute. reflexivity.
Defined.


(** The dispatch on an image with the magic of an ELF whose header is
    refused: the dispatcher returns -1 and the block of the image stays
    allocated. *)
Lemma uvl_load_exe_dispatch_witness :
  let w := world_of zero_mem
             (script wrong_class_file 0 [0x1000] [] (fun _ => 0) (fun _ => 0)) in
  let w1 := final_world (uvl_load_file "app" w) w in
  let w2 := final_world (uvl_load_elf 1 0x1000 w1) w1 in
  (-1 < 0 ->
   uvl_load_exe 1 "app" w
   = Some ((-1, NULL), logged w2 [ELog "Cannot load ELF."]) /\
   forall blk rcf,
     ~ In (EFreeMemBlock blk rcf)
          (new_events w1 (logged w2 [ELog "Cannot load ELF."]))) /\
  (0 <= -1 ->
   uvl_load_exe 1 "app" w = free_and_return 0x1000 NULL w2).
Proof.
  intros w w1 w2.
  apply (uvl_load_exe_dispatch 1 "app" w w1 w2 0x1000 (Some 7) 0x1000
           "Cannot load ELF." (-1) NULL).
  - apply run_final. vm_compute. reflexivity.
  - vm_compute. reflexivity.
  - apply run_final. vm_compute. reflexivity.
Defined.

(** The run of that witness. *)
Example uvl_load_exe_refused_run :
  observe (uvl_load_exe 1 "app"
             (world_of zero_mem
                (script wrong_class_file 0 [0x1000] []
                   (fun _ => 0) (fun _ => 0))))
  = Some ((-1, NULL),
          [EIoOpen "app" 3; EAllocMemBlock "UVLTemp" 0xC20D060 0x2000000 1;
           EGetMemBlockBase 1 0 0x1000; EIoRead 3 0x1000 0x2000000 7;
           EIoClose 3 0; ELog "Not a 32bit executable.";
           ELog "Check header failed."; ELog "Cannot load ELF."]).
Proof. vm_compute. reflexivity. Qed.

Lemma uvl_elf_get_module_info_search_witness :
  let w := world_of no_segment_image
             (script [] 0 [] [] (fun _ => 0) (fun _ => 0)) in
  let w2 := world_of short_sections_image
              (script [] 0 [] [] (fun _ => 0) (fun _ => 0)) in
  uvl_elf_get_module_info 0x1000 0x1000 w
  = Some (Some (u32 (0x1000
                     + get (mem w) (section_at (mem w) 0x1000 0x1000 2)
                         sh_offset)), w) /\
  uvl_elf_get_module_info 0x1000 0x1000 w2 = Some (None, w2).
Proof.
  intros w w2.
  assert (Hidx : 0 < name_index (K := Script) (mem w) 0x1000 0x1000)
    by (vm_compute; reflexivity).
  assert (Hidx2 : 0 < name_index (K := Script) (mem w2) 0x1000 0x1000)
    by (vm_compute; reflexivity).
  assert (Hn2 : get (mem w2) 0x1000 e_shnum = 2) by (vm_compute; reflexivity).
  split.
  - apply (proj1 (uvl_elf_get_module_info_search 0x1000 0x1000 w Hidx) 2).
    + (vm_compute; split; [discriminate | reflexivity]).
    + (vm_compute; reflexivity).
    + intros i' Hi'. assert (i' = 0 \/ i' = 1) as [-> | ->] by lia;
        vm_compute; discriminate.
  - apply (proj2 (uvl_elf_get_module_info_search 0x1000 0x1000 w2 Hidx2)).
    intros i Hi. rewrite Hn2 in Hi.
    assert (i = 0 \/ i = 1) as [-> | ->] by lia; vm_compute; discriminate.
Defined.

Lemma uvl_elf_get_module_info_index_witness :
  let w := world_of leading_name_image
             (script [] 0 [] [] (fun _ => 0) (fun _ => 0)) in
  let w2 := world_of zero_mem
              (script [] 0 [] [] (fun _ => 0) (fun _ => 0)) in
  uvl_elf_get_module_info 0x1000 0x1000 w
  = Some (None, logged w [ELog "Cannot find section %s in string table."]) /\
  uvl_elf_get_module_info 0x90000000 0x90000000 w2
  = Some (find_section (mem w2) 0x90000000 0x90000000
            (2 ^ 32 - names_table (mem w2) 0x90000000 0x90000000)
            (Z.to_nat (get (mem w2) 0x90000000 e_shnum)) 0, w2).
Proof.
  intros w w2. split.
  - apply (proj1 (uvl_elf_get_module_info_index 0x1000 0x1000 w)).
    vm_compute. reflexivity.
  - apply (proj2 (uvl_elf_get_module_info_index 0x90000000 0x90000000 w2));
      vm_compute; reflexivity.
Defined.

Lemma uvl_load_elf_no_module_info_witness :
  let w := world_of short_sections_image
             (script [] 0 [] three_modules (fun _ => 0) (fun _ => 0)) in
  uvl_load_elf 1 0x1000 w
  = Some ((-1, NULL), logged w [ELog "Cannot find module info section."]) /\
  mem w = mem w /\ kern w = kern w /\
  calls (new_events w (logged w [ELog "Cannot find module info section."]))
  = [].
Proof.
  intros w.
  apply (uvl_load_elf_no_module_info 1 0x1000 w w); vm_compute; reflexivity.
Defined.

Lemma uvl_offset_import_pass_witness :
  let m := relocation_example in
  let m' := uvl_offset_import 0x2000 0x100000 m in
  let region ct := table_region m 0x2000 ct 0x100000 in
  (forall f, In f import_pointers ->
             get m' 0x2000 f = u32 (get m 0x2000 f + 0x100000)) /\
  (forall g, In g import_counts -> get m' 0x2000 g = get m 0x2000 g) /\
  (forall a, 0 <= a < 2 ^ 32 ->
             outside (0x2000, sizeof_module_imports_t) a ->
             (forall ct, In ct import_tables -> outside (region ct) a) ->
             m' a = m a) /\
  (regions_apart (map region import_tables) = true ->
   forall ct, In ct import_tables ->
   forall j, 0 <= j < get m 0x2000 (fst ct) ->
             load32 m' (fst (region ct) + 4 * j)
             = u32 (load32 m (fst (region ct) + 4 * j) + 0x100000)).
Proof.
  intros m.
  apply (uvl_offset_import_pass 0x2000 0x100000 m); vm_compute; reflexivity.
Defined.

(** The entries of that descriptor after the pass: those at the bases
    it had are as they were, and those at the shifted bases, which were
    null, hold the addend. *)
Example uvl_offset_import_pass_run :
  let m' := uvl_offset_import 0x2000 0x100000 relocation_example in
  map (get m' 0x2000) import_pointers
  = [0x109000; 0x109100; 0x103000; 0x109200; 0x104000; 0x109300; 0x105000] /\
  map (load32 m') [0x3000; 0x3004; 0x4000; 0x103000; 0x103004; 0x104000]
  = [0x81001000; 0x81001010; 0x81002000; 0x100000; 0x100000; 0x100000].
Proof. vm_compute. split; reflexivity. Qed.

Lemma resolve_nids_never_skips_witness :
  let w := resident_world in
  let w' := final_world
              (resolve_nids 4 uvl_load_module_for_lib 0x1034 0x1300 w) w in
  let tr := new_events w w' in
  (forall name rcl, In (ELoadModuleForLib name rcl) tr -> rcl = 0) /\
  List.length (filter is_resolve tr) = List.length (filter is_load_module tr) /\
  (forall msg, In (ELog msg) tr ->
               msg = "Failed to resolve imports for %s" /\ Some (-1) = Some (-1)) /\
  (forall d rcr, In (EResolveImports d rcr) tr -> rcr < 0 ->
                 Some (-1) = Some (-1)).
Proof.
  intros w w'.
  apply (resolve_nids_never_skips 4 0x1034 0x1300 w w' (Some (-1))).
  apply run_final. vm_compute. reflexivity.
Defined.

(** The run of that witness: the three descriptors are given to the
    resolver, which fails on the third. *)
Example resolve_nids_stub_run :
  observe (resolve_nids 4 uvl_load_module_for_lib 0x1034 0x1300 resident_world)
  = Some (Some (-1),
          [ELoadModuleForLib 0xA0 0; EResolveImports 0x81000100 0;
           ELoadModuleForLib 0xA1 0; EResolveImports 0x81000134 0;
           ELoadModuleForLib 0xA2 0; EResolveImports 0x81000168 (-1);
           ELog "Failed to resolve imports for %s"]).
Proof. vm_compute. reflexivity. Qed.

(** An export table without an end below 2^32: the descriptors are at
    the multiples of 32, none of which is 0xFFFFFFFF, and none has the
    tag of the module information. *)
Lemma find_entry_point_never_ends_witness :
  find_entry_point 1000 0 (-24)
    (world_of endless_exports (script [] 0 [] [] (fun _ => 0) (fun _ => 0)))
  = None.
Proof.
  refine (find_entry_point_never_ends 0 (-24)
            (world_of endless_exports
               (script [] 0 [] [] (fun _ => 0) (fun _ => 0))) _ 1000%nat).
  intros i.
  assert (Hexp : u32 (get endless_exports 0 p_vaddr
                      + get endless_exports (-24) ent_top) = 0)
    by (vm_compute; reflexivity).
  assert (Hend : u32 (get endless_exports 0 p_vaddr
                      + get endless_exports (-24) ent_end) = 0xFFFFFFFF)
    by (vm_compute; reflexivity).
  cbn [mem world_of]. rewrite Hexp, Hend. clear Hexp Hend.
  unfold export_at. change sizeof_module_exports_t with 32.
  rewrite Z.add_0_l. unfold u32. change (2 ^ 32) with (2 ^ 27 * 32).
  rewrite Z.mul_mod_distr_r by lia.
  pose proof (Z.mod_pos_bound i (2 ^ 27) ltac:(lia)) as Hb.
  split; [lia |].
  intros [Ha _]. unfold get, load_le, load8, endless_exports in Ha.
  cbn [f_len f_off attribute vita u16_at] in Ha.
  repeat match type of Ha with
         | context [if ?c then _ else _] => destruct c
         end; vm_compute in Ha; discriminate Ha.
Defined.

(** ** Examples on the platform that answers from a queue *)

(** The allocation of the block of the image fails: the file that has
    been opened is not closed. *)
Example uvl_load_file_allocation_failure_run :
  uvl_load_file "app" (mkWorld zero_mem [3; -1] [])
  = Some ((-1, None, None),
          mkWorld zero_mem []
            [EIoOpen "app" 3; EAllocMemBlock "UVLTemp" 0xC20D060 0x2000000 (-1);
             ELog "Failed allocate %u bytes of memory."]).
Proof. reflexivity. Qed.

(** The read fills the buffer: the warning is logged and the function
    returns zero all the same. *)
Example uvl_load_file_truncated_run :
  uvl_load_file "app" (mkWorld zero_mem [3; 1; 0; 0x1000; 0x2000000; 0] [])
  = Some ((0, Some 0x1000, Some 0x2000000),
          mkWorld zero_mem []
            [EIoOpen "app" 3; EAllocMemBlock "UVLTemp" 0xC20D060 0x2000000 1;
             EGetMemBlockBase 1 0 0x1000; EIoRead 3 0x1000 0x2000000 0x2000000;
             ELog "Warning. Max homebrew size of %u bytes reached. File could be truncated.";
             EIoClose 3 0]).
Proof. reflexivity. Qed.

(** The block of the data is not found: the negative answer of the
    lookup is given to [sceKernelFreeMemBlock], and the function returns
    zero when that call does. *)
Example uvl_free_data_lookup_failure_run :
  uvl_free_data 0x1000 (mkWorld zero_mem [-5; 0] [])
  = Some (0,
          mkWorld zero_mem []
            [EFindMemBlockByAddr 0x1000 (-5);
             ELog "Cannot find block id: 0x%08X"; EFreeMemBlock (-5) 0]).
Proof. reflexivity. Qed.

(** The second allocation of the loop over the program headers fails:
    the function returns -1, the first block stays allocated, and the
    protection of memory is restored. *)
Example load_program_sections_allocation_failure_run :
  option_map (fun r => (fst r, trace (snd r)))
    (load_program_sections 4 0x1000 0x1000 0x1034
       (mkWorld two_segment_image [1; 0; 0x81000000; -1] []))
  = Some (Some (-1),
          [EAllocCodeMemBlock "UVLHomebrew" 0x100000 1;
           EGetMemBlockBase 1 0 0x81000000;
           EUnlockMem; EMemcpy 0x81000000 0x1380 4;
           EMemset 0x81000004 0 4; ELockMem;
           EAllocMemBlock "UVLHomebrew" 0xC20D060 0x100000 (-1);
           ELog "Error allocating memory. 0x%08X"]).
Proof. vm_compute. reflexivity. Qed.

(** The base of the second block cannot be fetched: the failure is
    logged, and the second segment is copied over the first one, at the
    address that the first call has left in [blockaddr]. *)
Example load_program_sections_base_failure_run :
  option_map (fun r => (fst r, trace (snd r)))
    (load_program_sections 4 0x1000 0x1000 0x1034
       (mkWorld two_segment_image [1; 0; 0x81000000; 2; -1] []))
  = Some (None,
          [EAllocCodeMemBlock "UVLHomebrew" 0x100000 1;
           EGetMemBlockBase 1 0 0x81000000;
           EUnlockMem; EMemcpy 0x81000000 0x1380 4;
           EMemset 0x81000004 0 4; ELockMem;
           EAllocMemBlock "UVLHomebrew" 0xC20D060 0x100000 2;
           EGetMemBlockBase 2 (-1) 0x81000000;
           ELog "Error getting memory block address.";
           ELog "Error, section %u wants to be loaded to 0x%08X but we allocated 0x%08X";
           EUnlockMem; EMemcpy 0x81000000 0x1384 2;
           EMemset 0x81000002 0 0; ELockMem]).
Proof. vm_compute. reflexivity. Qed.


(** ** The dispatcher and the ELF loader on whole images *)

Lemma uvl_load_exe_no_container_witness :
  let w := world_of zero_mem
             (script partial_magic_file 0 [0x1000] []
                (fun _ => 0) (fun _ => 0)) in
  let w1 := final_world (uvl_load_file "app" w) w in
  (load8 (mem w1) 0x1000 <> ELFMAG0 -> load8 (mem w1) 0x1000 <> SCEMAG0 ->
   uvl_load_exe 1 "app" w
   = Some ((-1, NULL), logged w1 [ELog "Invalid magic."])) /\
  (load8 (mem w1) 0x1000 = ELFMAG0 \/ load8 (mem w1) 0x1000 = SCEMAG0 ->
   uvl_load_exe 1 "app" w = free_and_return 0x1000 NULL w1).
Proof.
  intros w w1.
  apply (uvl_load_exe_no_container 1 "app" w w1 0x1000 (Some 4)).
  - apply run_final. vm_compute. reflexivity.
  - vm_compute. reflexivity.
Defined.

(** A file that starts as a SELF does and goes on otherwise, and a file
    that starts as neither container does: the first is accepted with a
    null entry, the second is refused and its block stays allocated. *)
Example uvl_load_exe_no_container_run :
  observe (uvl_load_exe 1 "app"
             (world_of zero_mem
                (script [0x53; 0; 0; 0] 0 [0x1000] []
                   (fun _ => 0) (fun _ => 0))))
  = Some ((0, NULL),
          [EIoOpen "app" 3; EAllocMemBlock "UVLTemp" 0xC20D060 0x2000000 1;
           EGetMemBlockBase 1 0 0x1000; EIoRead 3 0x1000 0x2000000 4;
           EIoClose 3 0; EFindMemBlockByAddr 0x1000 1; EFreeMemBlock 1 0]) /\
  observe (uvl_load_exe 1 "app"
             (world_of zero_mem
                (script [0x4D; 0x5A; 0; 0] 0 [0x1000] []
                   (fun _ => 0) (fun _ => 0))))
  = Some ((-1, NULL),
          [EIoOpen "app" 3; EAllocMemBlock "UVLTemp" 0xC20D060 0x2000000 1;
           EGetMemBlockBase 1 0 0x1000; EIoRead 3 0x1000 0x2000000 4;
           EIoClose 3 0; ELog "Invalid magic."]).
Proof. split; vm_compute; reflexivity. Qed.

Lemma uvl_load_elf_success_witness :
  let w := resident_app_world in
  let prog_hdrs := u32 (0 + get (mem w) 0 e_phoff) in
  let w1 := final_world
              (uvl_elf_free_memory prog_hdrs (get (mem w) 0 e_phnum) w) w in
  let w2 := final_world (load_program_sections 3 0 0 prog_hdrs w1) w1 in
  let w3 := final_world
              (resolve_nids 3 uvl_load_module_for_lib prog_hdrs 0x300 w2) w2 in
  let m := mem w3 in
  let export := u32 (get m prog_hdrs p_vaddr + get m 0x300 ent_top) in
  uvl_load_elf 3 0 w
  = Some ((0, entry_at m (export_at export (Z.of_nat 0)) 0), w3).
Proof.
  intros w prog_hdrs w1 w2 w3.
  apply (uvl_load_elf_success 3 0 0x300 0 w w1 w2 w3 0%nat 0).
  - vm_compute. reflexivity.
  - vm_compute. reflexivity.
  - apply run_final. vm_compute. reflexivity.
  - lia.
  - apply run_final. vm_compute. reflexivity.
  - apply run_final. vm_compute. reflexivity.
  - lia.
  - intros i' Hi'. lia.
  - vm_compute. reflexivity.
  - vm_compute. reflexivity.
  - vm_compute. split; [discriminate | reflexivity].
  - vm_compute. reflexivity.
  - intros j' Hj'. lia.
  - lia.
Defined.
